(** * The request-execution layer of the Firestore client (src/index.js)

    A shallow embedding of the [Firestore] class of [src/index.js]: the retry
    helper [_retry] and the unary funnel [request], the stream-health protocol
    [_initializeStream], the transaction coordinator [runTransaction], the
    batch reader [getAll_], and the lazily initialised client pool
    ([_runRequest], [_initClientPool], [settings]).

    Promises are modelled by the value they settle with ([Settled]); event
    handlers are state transformers run once per delivered event; the event
    loop is a fold over the delivered events.  [Firestore.log] is a no-op by
    default and is left out. *)

From Stdlib Require Import ZArith List Bool Lia.
From stdpp Require Import base option list gmap strings.
Import ListNotations.

Local Open Scope Z_scope.

(** ** JavaScript values and promise outcomes *)

(** The JS values that flow through the modelled code (error codes, settings
    fields, project ids). Numbers are integers here. *)
Inductive JsValue : Type :=
| JsUndefined
| JsNull
| JsBool (b : bool)
| JsNumber (n : Z)
| JsString (s : string).

#[global] Instance JsValue_eq_dec : EqDecision JsValue.
Proof. solve_decision. Defined.

(** [is.defined(v)]: everything but [undefined]. *)
Definition is_defined (v : JsValue) : bool :=
  match v with JsUndefined => false | _ => true end.

(** JS truthiness, as used by [!!v], [v || d] and [if (v)]. *)
Definition truthy (v : JsValue) : bool :=
  match v with
  | JsUndefined | JsNull => false
  | JsBool b => b
  | JsNumber n => negb (n =? 0)
  | JsString s => negb (bool_decide (s = ""%string))
  end.

(** [a !== b] on the modelled values. *)
Definition strict_ne (a b : JsValue) : bool := negb (bool_decide (a = b)).

(** An error object: [FirestoreError] carries a [code]; plain [Error]s have
    none ([JsUndefined]). *)
Record FirestoreError : Type := mkError {
  code : JsValue;
  message : string
}.

#[global] Instance FirestoreError_eq_dec : EqDecision FirestoreError.
Proof. solve_decision. Defined.

(** What a promise settles with. *)
Inductive Settled (A : Type) : Type :=
| Resolved (v : A)
| Rejected (err : FirestoreError).
Arguments Resolved {A} v.
Arguments Rejected {A} err.

(** ** Constants *)

Definition MAX_REQUEST_RETRIES : Z := 5.
Definition MAX_CONCURRENT_REQUESTS_PER_CLIENT : Z := 100.
Definition GRPC_UNAVAILABLE : Z := 14.

(** ** The retry helper and the unary funnel *)

Module Retry.

(** What one invocation chain of [_retry] does, in order. *)
Inductive RetryEvent : Type :=
| Wait (ms : Z)          (* setTimeout(resolve, currentDelay) *)
| Attempt (i : nat).     (* the i-th invocation of [func] *)

(** The state [_retry] threads: the instance field it writes, a clock that
    the timers advance, the number of invocations of [func] so far and the
    chronological trace. *)
Record RetryState : Type := mkRetryState {
  _lastSuccessfulRequest : option Z;
  clock : Z;
  calls : nat;
  trace : list RetryEvent
}.

Definition initialRetryState : RetryState :=
  {| _lastSuccessfulRequest := None; clock := 0; calls := 0%nat; trace := [] |}.

(** [delayMs || d] for an optional number. *)
Definition delay_or (delayMs : option Z) (d : Z) : Z :=
  match delayMs with
  | Some v => if v =? 0 then d else v
  | None => d
  end.

(** The timer: [new Promise(resolve => setTimeout(resolve, currentDelay))]. *)
Definition sleep (ms : Z) (st : RetryState) : RetryState :=
  {| _lastSuccessfulRequest := _lastSuccessfulRequest st;
     clock := clock st + ms;
     calls := calls st;
     trace := trace st ++ [Wait ms] |}.

Definition noteAttempt (st : RetryState) : RetryState :=
  {| _lastSuccessfulRequest := _lastSuccessfulRequest st;
     clock := clock st;
     calls := S (calls st);
     trace := trace st ++ [Attempt (calls st)] |}.

(** [.then(func)]: the next invocation of the retried function. The function
    is given by the outcome of each of its invocations, in order. *)
Definition invoke {R} (func : nat -> Settled R) (st : RetryState)
  : Settled R * RetryState :=
  (func (calls st), noteAttempt st).

(** [self._lastSuccessfulRequest = new Date().getTime()]. *)
Definition recordSuccess (st : RetryState) : RetryState :=
  {| _lastSuccessfulRequest := Some (clock st);
     clock := clock st;
     calls := calls st;
     trace := trace st |}.

(** [is.defined(err.code) && err.code !== GRPC_UNAVAILABLE]. *)
Definition unrecoverable (err : FirestoreError) : bool :=
  is_defined (code err) && strict_ne (code err) (JsNumber GRPC_UNAVAILABLE).

(** [_retry(attemptsRemaining, requestTag, func, delayMs)]; [requestTag] is
    only logged. The recursion of the source is bounded by [fuel]; [None]
    means the fuel ran out. *)
Fixpoint _retry {R} (fuel : nat) (attemptsRemaining : Z)
    (func : nat -> Settled R) (delayMs : option Z) (st : RetryState)
  : option (Settled R * RetryState) :=
  match fuel with
  | O => None
  | S fuel' =>
      let currentDelay := delay_or delayMs 0 in
      let nextDelay := delay_or delayMs 100 in
      let attemptsRemaining := attemptsRemaining - 1 in
      let st1 := sleep currentDelay st in
      let '(r, st2) := invoke func st1 in
      match r with
      | Resolved result => Some (Resolved result, recordSuccess st2)
      | Rejected err =>
          if unrecoverable err then Some (Rejected err, st2)
          else if attemptsRemaining =? 0 then Some (Rejected err, st2)
          else _retry fuel' attemptsRemaining func (Some nextDelay) st2
      end
  end.


(** [func] fails [k] times in a row from invocation [from] on, each time with
    an error that [_retry] does not treat as final. *)
Definition transient_failures {R} (func : nat -> Settled R) (from k : nat) : Prop :=
  forall i, (i < k)%nat ->
    exists err, func (from + i)%nat = Rejected err /\ unrecoverable err = false.

(** The state after [k] failed attempts that were each retried. *)
Fixpoint after_failures (k : nat) (delayMs : option Z) (st : RetryState)
  : RetryState :=
  match k with
  | O => st
  | S k' =>
      after_failures k' (Some (delay_or delayMs 100))
        (noteAttempt (sleep (delay_or delayMs 0) st))
  end.

(** The delay argument of the call of [_retry] that follows [k] failures. *)
Definition delay_after (k : nat) (delayMs : option Z) : option Z :=
  match k with O => delayMs | S _ => Some (delay_or delayMs 100) end.

(** The state in which the chain stops when its [m]-th retry is the last
    attempt: [m] retried failures, one more timer and invocation, and the
    timestamp when that invocation succeeded. *)
Definition stop_state (m : nat) (delayMs : option Z) (success : bool)
    (st : RetryState) : RetryState :=
  let s := noteAttempt (sleep (delay_or (delay_after m delayMs) 0)
                          (after_failures m delayMs st)) in
  if success then recordSuccess s else s.

Definition succeeded {R} (r : Settled R) : bool :=
  match r with Resolved _ => true | Rejected _ => false end.

(** Sample calls: a backend that is unavailable twice and then answers
    (with a document name, or with NOT_FOUND). *)
Definition unavailable : FirestoreError := mkError (JsNumber 14) "UNAVAILABLE".
Definition notFound : FirestoreError := mkError (JsNumber 5) "NOT_FOUND".

Definition flakyThenOk (i : nat) : Settled string :=
  if (i <? 2)%nat then Rejected unavailable else Resolved "doc"%string.

Definition flakyThenNotFound (i : nat) : Settled string :=
  if (i <? 2)%nat then Rejected unavailable else Rejected notFound.

Definition alwaysUnavailable (i : nat) : Settled string := Rejected unavailable.

(** A plain [Error] without a code, and a backend that is unavailable, then
    fails without a code, then answers NOT_FOUND. *)
Definition socketHangUp : FirestoreError := mkError JsUndefined "socket hang up".

Definition codelessThenNotFound (i : nat) : Settled string :=
  match i with
  | O => Rejected unavailable
  | S O => Rejected socketHangUp
  | _ => Rejected notFound
  end.

End Retry.

(** ** The stream-health protocol *)

Module StreamInit.

(** The events of [resultStream] that [_initializeStream] listens to. *)
Inductive Signal : Type :=
| Readable
| End
| Error (err : FirestoreError).

(** Who emitted an event on [resultStream]: the transport underneath, or
    [_initializeStream] itself through [resultStream.emit]. *)
Inductive Origin : Type := Transport | Initializer.

(** What happens to [resultStream] and to the returned promise, in order. *)
Inductive LogEntry : Type :=
| Emitted (o : Origin) (s : Signal)
| Written                              (* resultStream.write(request, 'utf-8', cb) *)
| Paused                               (* resultStream.pause() *)
| ResolveCalled                        (* resolve(resultStream) *)
| RejectCalled (err : FirestoreError). (* reject(err) *)

(** The three local variables of [_initializeStream], the returned promise
    ([None] while pending), the callbacks that are still due, and the log. *)
Record State : Type := mkState {
  errorReceived : option FirestoreError;
  streamReleased : bool;
  endCalled : bool;
  promise : option (Settled unit);
  timers : nat;            (* pending setTimeout callbacks *)
  writeCallback : bool;    (* the callback of resultStream.write is due *)
  log : list LogEntry
}.

Definition set_errorReceived (e : option FirestoreError) (st : State) : State :=
  mkState e (streamReleased st) (endCalled st) (promise st) (timers st)
    (writeCallback st) (log st).
Definition set_streamReleased (b : bool) (st : State) : State :=
  mkState (errorReceived st) b (endCalled st) (promise st) (timers st)
    (writeCallback st) (log st).
Definition set_endCalled (b : bool) (st : State) : State :=
  mkState (errorReceived st) (streamReleased st) b (promise st) (timers st)
    (writeCallback st) (log st).
Definition set_timers (n : nat) (st : State) : State :=
  mkState (errorReceived st) (streamReleased st) (endCalled st) (promise st) n
    (writeCallback st) (log st).
Definition set_writeCallback (b : bool) (st : State) : State :=
  mkState (errorReceived st) (streamReleased st) (endCalled st) (promise st)
    (timers st) b (log st).
Definition record (e : LogEntry) (st : State) : State :=
  mkState (errorReceived st) (streamReleased st) (endCalled st) (promise st)
    (timers st) (writeCallback st) (log st ++ [e]).

(** Settling the promise: only the first [resolve] or [reject] counts. *)
Definition settle (r : Settled unit) (st : State) : State :=
  mkState (errorReceived st) (streamReleased st) (endCalled st)
    (match promise st with None => Some r | Some old => Some old end)
    (timers st) (writeCallback st) (log st).

Definition resolve (st : State) : State :=
  settle (Resolved tt) (record ResolveCalled st).
Definition reject (err : FirestoreError) (st : State) : State :=
  settle (Rejected err) (record (RejectCalled err) st).

(** [resultStream.on('error', err => ...)]. *)
Definition on_error (err : FirestoreError) (st : State) : State :=
  if negb (streamReleased st)
  then reject err (set_streamReleased true st)
  else set_errorReceived (Some err) st.

(** [resultStream.emit('error', e)] called by [releaseStream]: the event
    reaches every listener of the stream, the handler above included. *)
Definition emit_error (err : FirestoreError) (st : State) : State :=
  on_error err (record (Emitted Initializer (Error err)) st).

(** [setTimeout(cb, 0)]. *)
Definition setTimeout (st : State) : State := set_timers (S (timers st)) st.

(** The closure [releaseStream]. *)
Definition releaseStream (st : State) : State :=
  match errorReceived st with
  | Some e => set_errorReceived None (emit_error e st)
  | None =>
      if negb (streamReleased st)
      then setTimeout (resolve (record Paused (set_streamReleased true st)))
      else st
  end.

(** [resultStream.on('readable', ...)] and [resultStream.on('end', ...)]. *)
Definition on_readable (st : State) : State := releaseStream st.
Definition on_end (st : State) : State := releaseStream (set_endCalled true st).

(** [resultStream.emit('end')] called by the timer callback. *)
Definition emit_end (st : State) : State :=
  on_end (record (Emitted Initializer End) st).

(** The callback handed to [setTimeout] by [releaseStream]. *)
Definition timer_callback (st : State) : State :=
  if endCalled st then emit_end st else st.

(** The transport emits [s] on [resultStream]. *)
Definition deliver (s : Signal) (st : State) : State :=
  let st := record (Emitted Transport s) st in
  match s with
  | Readable => on_readable st
  | End => on_end st
  | Error err => on_error err st
  end.

(** What the event loop runs next. *)
Inductive Event : Type :=
| Emit (s : Signal)     (* an event of the transport *)
| WriteDone             (* the write of the initial request completed *)
| TimerFired.           (* a pending timer is due *)

Definition step (st : State) (ev : Event) : State :=
  match ev with
  | Emit s => deliver s st
  | WriteDone =>
      if writeCallback st then releaseStream (set_writeCallback false st) else st
  | TimerFired =>
      match timers st with
      | O => st
      | S n => timer_callback (set_timers n st)
      end
  end.

(** [_initializeStream(resultStream, requestTag, request)] up to the return
    of the promise; [request] tells whether a request was passed. *)
Definition _initializeStream (request : bool) : State :=
  {| errorReceived := None;
     streamReleased := false;
     endCalled := false;
     promise := None;
     timers := 0;
     writeCallback := request;
     log := if request then [Written] else [] |}.

Definition run (st : State) (evs : list Event) : State := fold_left step evs st.

(** Counting log entries. *)
Fixpoint count (p : LogEntry -> bool) (l : list LogEntry) : nat :=
  match l with
  | [] => O
  | e :: l' => ((if p e then 1 else 0) + count p l')%nat
  end.

Definition is_resolve (e : LogEntry) : bool :=
  match e with ResolveCalled => true | _ => false end.
Definition is_forwarded_end (e : LogEntry) : bool :=
  match e with Emitted Initializer End => true | _ => false end.
Definition is_forwarded_error (e : LogEntry) : bool :=
  match e with Emitted Initializer (Error _) => true | _ => false end.
Definition is_transport_error (e : LogEntry) : bool :=
  match e with Emitted Transport (Error _) => true | _ => false end.
Definition is_transport_end (e : LogEntry) : bool :=
  match e with Emitted Transport End => true | _ => false end.


(** The stream has been handed to the caller. *)
Definition released (st : State) : Prop :=
  streamReleased st = true /\ promise st = Some (Resolved tt).

Definition buffered (st : State) : nat :=
  match errorReceived st with Some _ => 1%nat | None => O end.

(** Nothing has happened yet on the stream. *)
Definition pending (st : State) : Prop :=
  streamReleased st = false /\ errorReceived st = None /\ endCalled st = false /\
  promise st = None /\ timers st = O /\
  count is_resolve (log st) = O /\ count is_forwarded_end (log st) = O.

(** The promise was rejected with [err] and the stream was never handed out. *)
Definition failed (err : FirestoreError) (st : State) : Prop :=
  streamReleased st = true /\ promise st = Some (Rejected err) /\
  count is_resolve (log st) = O.

(** The end of the stream was seen and the timer set at release is due. *)
Definition end_due (st : State) : Prop :=
  released st /\ endCalled st = true /\ timers st = 1%nat /\
  count is_forwarded_end (log st) = O.

(** The timer set at release has run and has forwarded the end. *)
Definition end_forwarded (st : State) : Prop :=
  released st /\ timers st = O /\ count is_forwarded_end (log st) = 1%nat.

(** [resolve] was called at most once, and not at all before the release. *)
Definition released_once (st : State) : Prop :=
  (count is_resolve (log st) <= 1)%nat /\
  (streamReleased st = false -> count is_resolve (log st) = O).

(** Every error forwarded or still buffered came from the transport. *)
Definition errors_accounted (st : State) : Prop :=
  (count is_forwarded_error (log st) + buffered st
   <= count is_transport_error (log st))%nat.

Definition is_pause (e : LogEntry) : bool :=
  match e with Paused => true | _ => false end.
Definition is_reject (e : LogEntry) : bool :=
  match e with RejectCalled _ => true | _ => false end.

(** The bookkeeping of a run: how often [resolve], [reject] and [pause] were
    called and 'end' was forwarded, against the promise, the flags and the
    timer. *)
Definition orderly (st : State) : Prop :=
  (streamReleased st = false ->
   promise st = None /\ timers st = O /\ count is_forwarded_end (log st) = O) /\
  match promise st with
  | None => count is_resolve (log st) = O /\ count is_reject (log st) = O
  | Some (Resolved _) =>
      count is_resolve (log st) = 1%nat /\ count is_reject (log st) = O
  | Some (Rejected _) =>
      count is_resolve (log st) = O /\ count is_reject (log st) = 1%nat
  end /\
  count is_pause (log st) = count is_resolve (log st) /\
  (count is_forwarded_end (log st) + timers st <= count is_resolve (log st))%nat /\
  (count is_forwarded_end (log st) <> O -> endCalled st = true).

(** The flag [endCalled] is only set once the transport has emitted 'end'. *)
Definition end_seen (st : State) : Prop :=
  endCalled st = true -> count is_transport_end (log st) <> O.

(** Sample runs: a stream that fails after it was released, with and without
    a further 'readable' event. *)
Definition deadlineExceeded : FirestoreError := mkError (JsNumber 4) "DEADLINE_EXCEEDED".

Definition errorThenQuiet : State :=
  run (_initializeStream false) [Emit Readable; Emit (Error deadlineExceeded)].


End StreamInit.

(** ** The transaction coordinator *)

Module Transactions.

(** [new Transaction(firestore, previousTransaction)]. The class lives in
    [./transaction]; the coordinator only creates transactions, passes them on
    and calls their [begin], [commit] and [rollback]. *)
#[warnings="-register-all"]
Inductive Transaction : Type :=
| mkTransaction (previousTransaction : option Transaction).

(** The [transactionOptions] argument. *)
Record TransactionOptions : Type := mkOptions {
  maxAttempts : option Z;
  previousTransaction : option Transaction
}.

(** What the call [updateFunction(transaction)] does. *)
Inductive CallbackResult (R : Type) : Type :=
| ReturnedPromise (p : Settled R)   (* a promise, and what it settles with *)
| ReturnedOther                     (* something that is not a promise *)
| Threw (err : FirestoreError).
Arguments ReturnedPromise {R} p.
Arguments ReturnedOther {R}.
Arguments Threw {R} err.

(** The methods of [Transaction] that [runTransaction] calls, given by what
    their promises settle with. *)
Record TransactionMethods : Type := mkMethods {
  begin : Transaction -> Settled unit;
  commit : Transaction -> Settled unit;
  rollback : Transaction -> Settled unit
}.

(** The calls [runTransaction] makes, in order. *)
Inductive Call : Type :=
| Began (t : Transaction)
| Ran (t : Transaction)          (* updateFunction(t) *)
| Committed (t : Transaction)
| RolledBack (t : Transaction).

(** A call either throws synchronously or returns a promise. *)
Inductive Completion (R : Type) : Type :=
| Throws (err : FirestoreError)
| Returns (p : Settled R).
Arguments Throws {R} err.
Arguments Returns {R} p.

(** [validate.isOptionalInteger(name, value, min)] of [./validate]: [None]
    when the value passes, the error thrown otherwise. *)
Definition IntegerValidator : Type := option Z -> Z -> option FirestoreError.

(** [transactionOptions.maxAttempts || attemptsRemaining]. *)
Definition attempts_or (m : option Z) (d : Z) : Z :=
  match m with
  | Some v => if v =? 0 then d else v
  | None => d
  end.

Definition notAPromise : FirestoreError :=
  mkError JsUndefined "You must return a Promise in your transaction()-callback.".

(** A promise returned from a [then] or [catch] handler: a synchronous throw
    in the handler rejects the promise of the handler. *)
Definition adopt {R} (c : Completion R) : Completion R :=
  match c with
  | Throws err => Returns (Rejected err)
  | Returns p => Returns p
  end.

(** [runTransaction(updateFunction, transactionOptions)]; [calls] is the log
    of calls made so far. The recursion of the source is bounded by [fuel]. *)
Fixpoint runTransaction {R} (fuel : nat) (isOptionalInteger : IntegerValidator)
    (methods : TransactionMethods)
    (updateFunction : Transaction -> CallbackResult R)
    (transactionOptions : option TransactionOptions) (calls : list Call)
  : option (Completion R * list Call) :=
  match fuel with
  | O => None
  | S fuel' =>
      let defaultAttempts := 5 in
      let attemptsRemaining := defaultAttempts in
      let checked :=
        match transactionOptions with
        | Some o =>
            match isOptionalInteger (maxAttempts o) 1 with
            | Some err => inr err
            | None =>
                inl (attempts_or (maxAttempts o) attemptsRemaining,
                     previousTransaction o)
            end
        | None => inl (attemptsRemaining, None)
        end in
      match checked with
      | inr err => Some (Throws err, calls)
      | inl (attemptsRemaining, previousTransaction) =>
          let transaction := mkTransaction previousTransaction in
          let attemptsRemaining := attemptsRemaining - 1 in
          let calls := calls ++ [Began transaction] in
          match begin methods transaction with
          | Rejected err => Some (Returns (Rejected err), calls)
          | Resolved _ =>
              let calls := calls ++ [Ran transaction] in
              match updateFunction transaction with
              | Threw err => Some (Returns (Rejected err), calls)
              | returned =>
                  let result :=
                    match returned with
                    | ReturnedPromise p => p
                    | _ => Rejected notAPromise
                    end in
                  match result with
                  | Rejected _ =>
                      (* result.catch(err => transaction.rollback().then(() => result)) *)
                      let calls := calls ++ [RolledBack transaction] in
                      match rollback methods transaction with
                      | Resolved _ => Some (Returns result, calls)
                      | Rejected err => Some (Returns (Rejected err), calls)
                      end
                  | Resolved _ =>
                      let calls := calls ++ [Committed transaction] in
                      match commit methods transaction with
                      | Resolved _ => Some (Returns result, calls)
                      | Rejected err =>
                          if attemptsRemaining >? 0 then
                            match runTransaction fuel' isOptionalInteger methods
                                    updateFunction
                                    (Some {| previousTransaction := Some transaction;
                                             maxAttempts := Some attemptsRemaining |})
                                    calls with
                            | Some (c, calls') => Some (adopt c, calls')
                            | None => None
                            end
                          else Some (Returns (Rejected err), calls)
                      end
                  end
              end
          end
      end
  end.

(** The budget a call starts with. *)
Definition budget (transactionOptions : option TransactionOptions) : Z :=
  match transactionOptions with
  | Some o => attempts_or (maxAttempts o) 5
  | None => 5
  end.

Definition previous (transactionOptions : option TransactionOptions)
  : option Transaction :=
  match transactionOptions with
  | Some o => previousTransaction o
  | None => None
  end.

(** The options pass the validation at the head of [runTransaction]. *)
Definition accepted (isOptionalInteger : IntegerValidator)
    (transactionOptions : option TransactionOptions) : Prop :=
  match transactionOptions with
  | Some o => isOptionalInteger (maxAttempts o) 1 = None
  | None => True
  end.

(** The transaction of the [i]-th attempt: each one references the one of the
    attempt before. *)
Fixpoint attempt (prev : option Transaction) (i : nat) : Transaction :=
  match i with
  | O => mkTransaction prev
  | S i' => mkTransaction (Some (attempt prev i'))
  end.

(** One begin/run/commit cycle, and the cycles of attempts [from .. from+n-1]. *)
Definition cycle (t : Transaction) : list Call := [Began t; Ran t; Committed t].

Fixpoint cycles (prev : option Transaction) (from n : nat) : list Call :=
  match n with
  | O => []
  | S n' => cycle (attempt prev from) ++ cycles prev (S from) n'
  end.

(** The promise handed back by the [catch] handler of a failed commit. *)
Definition adopted {R} (r : option (Completion R * list Call))
  : option (Completion R * list Call) :=
  match r with
  | Some (c, calls) => Some (adopt c, calls)
  | None => None
  end.

(** The options of the recursive call after [k] failed commits. *)
Definition retryOptions (transactionOptions : option TransactionOptions) (k : nat)
  : option TransactionOptions :=
  match k with
  | O => transactionOptions
  | S k' =>
      Some {| maxAttempts := Some (budget transactionOptions - Z.of_nat k);
              previousTransaction := Some (attempt (previous transactionOptions) k') |}
  end.

(** How many transactions were begun in a log of calls. *)
Fixpoint began (l : list Call) : nat :=
  match l with
  | [] => O
  | Began _ :: l' => S (began l')
  | _ :: l' => began l'
  end.

(** Sample validator, and sample backends. *)
Definition atLeast : IntegerValidator :=
  fun v min =>
    match v with
    | Some n => if min <=? n then None else Some (mkError JsUndefined "out of range")
    | None => None
    end.

Fixpoint depth (t : Transaction) : nat :=
  match t with
  | mkTransaction None => O
  | mkTransaction (Some t') => S (depth t')
  end.

Definition aborted : FirestoreError := mkError (JsNumber 10) "ABORTED".
Definition callbackError : FirestoreError := mkError JsUndefined "callback failed".
Definition rollbackError : FirestoreError := mkError (JsNumber 14) "rollback failed".

(** Commit is refused for the first two transactions. *)
Definition contended : TransactionMethods :=
  {| begin := fun _ => Resolved tt;
     commit := fun t => if (depth t <? 2)%nat then Rejected aborted else Resolved tt;
     rollback := fun _ => Resolved tt |}.

(** Commit is always refused. *)
Definition alwaysContended : TransactionMethods :=
  {| begin := fun _ => Resolved tt;
     commit := fun _ => Rejected aborted;
     rollback := fun _ => Resolved tt |}.

(** Rollback fails. *)
Definition brokenRollback : TransactionMethods :=
  {| begin := fun _ => Resolved tt;
     commit := fun _ => Resolved tt;
     rollback := fun _ => Rejected rollbackError |}.

(** The backend is down: [begin] fails. *)
Definition unreachable : TransactionMethods :=
  {| begin := fun _ => Rejected aborted;
     commit := fun _ => Resolved tt;
     rollback := fun _ => Resolved tt |}.

Definition throwingCallback (t : Transaction) : CallbackResult nat :=
  Threw callbackError.

Definition forgetfulCallback (t : Transaction) : CallbackResult nat :=
  ReturnedOther.

(** The callback succeeds on the first transaction and fails afterwards. *)
Definition secondThoughts (t : Transaction) : CallbackResult nat :=
  match t with
  | mkTransaction None => ReturnedPromise (Resolved 0%nat)
  | _ => ReturnedPromise (Rejected callbackError)
  end.

Definition countAttempts (t : Transaction) : CallbackResult nat :=
  ReturnedPromise (Resolved (depth t)).

Definition failingCallback (t : Transaction) : CallbackResult nat :=
  ReturnedPromise (Rejected callbackError).

End Transactions.

(** ** The batch reader *)

Module BatchGet.

(** A [DocumentReference] ([./reference]), as far as [getAll_] looks at it:
    the fully qualified name sent to the backend and the path used as key. *)
Record DocumentReference : Type := mkRef {
  formattedName : string;
  path : string
}.

(** The [Document] proto inside a response. *)
Record Document : Type := mkDocument {
  name : string;
  fields : option string;
  createTime : Z;
  updateTime : Z
}.

(** One message of the [batchGetDocuments] stream. *)
Record Response : Type := mkResponse {
  found : option Document;
  missing : option string;
  readTime : option Z
}.

(** What [DocumentSnapshot.Builder.build()] returns. *)
Record DocumentSnapshot : Type := mkSnapshot {
  ref : DocumentReference;
  fieldsProto : option string;
  snapCreateTime : option Z;
  snapUpdateTime : option Z;
  snapReadTime : option Z
}.

(** The events of the stream handed over by [readStream]. *)
Inductive StreamEvent : Type :=
| Data (response : Response)
| StreamError (err : FirestoreError)
| StreamEnd.

(** The request sent to [readStream]. *)
Record BatchGetRequest : Type := mkRequest {
  database : string;
  transaction : option string;
  documents : list string
}.

(** An argument of [getAll]: a reference, an array, or something else. *)
#[warnings="-register-all"]
Inductive Argument : Type :=
| ArgReference (r : DocumentReference)
| ArgArray (elements : list Argument)
| ArgOther (v : JsValue).

(** [Set.prototype.add]: a JS [Set] keeps the order of first insertion. *)
Definition set_add (s : list string) (x : string) : list string :=
  if bool_decide (x ∈ s) then s else s ++ [x].

Definition typeError : FirestoreError :=
  mkError JsUndefined "Cannot read property 'name' of undefined".

(** The double quote character, for messages that quote a path. *)
Definition quote : string := String (Ascii.ascii_of_nat 34) EmptyString.

(** [new Error(`Did not receive document for "${docRef.path}".`)]. *)
Definition didNotReceive (docRef : DocumentReference) : FirestoreError :=
  mkError JsUndefined
    ("Did not receive document for " ++ quote ++ path docRef ++ quote ++ ".").

(** The local state of one call of [getAll_]: the map [retrievedDocuments]
    and the promise handed to the caller ([None] while pending). *)
Record State : Type := mkState {
  retrievedDocuments : gmap string DocumentSnapshot;
  promise : option (Settled (list (option DocumentSnapshot)))
}.

(** [new Map()] and the fresh promise. *)
Definition initial : State := {| retrievedDocuments := ∅; promise := None |}.

Definition settle (r : Settled (list (option DocumentSnapshot))) (st : State) : State :=
  {| retrievedDocuments := retrievedDocuments st;
     promise := match promise st with None => Some r | Some old => Some old end |}.

Definition resolve (docs : list (option DocumentSnapshot)) : State -> State :=
  settle (Resolved docs).
Definition reject (err : FirestoreError) : State -> State :=
  settle (Rejected err).

Section Reader.

(** [new DocumentReference(this, ResourcePath.fromSlashSeparatedString(name))]
    of [./reference] and [./path]: the reference for a resource name, or the
    error thrown for a name that is not one. *)
Variable documentAt : string -> FirestoreError + DocumentReference.

(** [snapshot_(documentOrName, readTime)] with the default encoding. *)
Definition snapshot_ (documentOrName : Document + option string)
    (readTime : option Z) : FirestoreError + DocumentSnapshot :=
  match documentOrName with
  | inr (Some resourceName) =>
      match documentAt resourceName with
      | inl err => inl err
      | inr r => inr (mkSnapshot r None None None readTime)
      end
  | inl doc =>
      match documentAt (name doc) with
      | inl err => inl err
      | inr r =>
          inr (mkSnapshot r
                 (Some (match fields doc with Some f => f | None => "{}"%string end))
                 (Some (createTime doc)) (Some (updateTime doc)) readTime)
      end
  | inr None => inl typeError
  end.

(** The ['data'] handler. *)
Definition on_data (response : Response) (st : State) : State :=
  let document :=
    match found response with
    | Some doc => snapshot_ (inl doc) (readTime response)
    | None => snapshot_ (inr (missing response)) (readTime response)
    end in
  match document with
  | inr document =>
      {| retrievedDocuments :=
           <[path (ref document) := document]> (retrievedDocuments st);
         promise := promise st |}
  | inl err => reject err st
  end.

(** The ['end'] handler: the loop over [docRefs] rejects for every reference
    without a document and pushes what the map holds; then [resolve]. *)
Definition check_received (retrieved : gmap string DocumentSnapshot)
    (docRefs : list DocumentReference) (st : State) : State :=
  fold_left
    (fun acc docRef =>
       match retrieved !! path docRef with
       | None => reject (didNotReceive docRef) acc
       | Some _ => acc
       end)
    docRefs st.

Definition on_end (docRefs : list DocumentReference) (st : State) : State :=
  let orderedDocuments :=
    map (fun docRef => retrievedDocuments st !! path docRef) docRefs in
  resolve orderedDocuments (check_received (retrievedDocuments st) docRefs st).

Definition step (docRefs : list DocumentReference) (st : State) (ev : StreamEvent)
  : State :=
  match ev with
  | StreamError err => reject err st
  | Data response => on_data response st
  | StreamEnd => on_end docRefs st
  end.

Definition run (docRefs : list DocumentReference) (st : State)
    (evs : list StreamEvent) : State :=
  fold_left (step docRefs) evs st.

(** The request built by [getAll_]. *)
Definition batchGetRequest (formattedDatabase : string)
    (docRefs : list DocumentReference) (transactionId : option string)
  : BatchGetRequest :=
  let requestedDocuments := fold_left set_add (map formattedName docRefs) [] in
  {| database := formattedDatabase;
     transaction := transactionId;
     documents := requestedDocuments |}.

(** [getAll_(docRefs, requestTag, transactionId)]: [readStream] is given by
    what its promise settles with for the request, a stream being the events
    it delivers once resumed. The result is what the returned promise
    settles with, [None] if it never does. *)
Definition getAll_ (formattedDatabase : string)
    (readStream : BatchGetRequest -> Settled (list StreamEvent))
    (docRefs : list DocumentReference) (transactionId : option string)
  : option (Settled (list (option DocumentSnapshot))) :=
  match readStream (batchGetRequest formattedDatabase docRefs transactionId) with
  | Rejected err => Some (Rejected err)
  | Resolved stream =>
      promise (run docRefs initial stream)
  end.

(** [validate.isDocumentReference(i, documents[i])] of [./reference] for each
    argument in turn: the references, or the first error thrown. *)
Fixpoint check_references
    (isDocumentReference : nat -> Argument -> FirestoreError + DocumentReference)
    (i : nat) (documents : list Argument) : FirestoreError + list DocumentReference :=
  match documents with
  | [] => inr []
  | d :: rest =>
      match isDocumentReference i d with
      | inl err => inl err
      | inr r =>
          match check_references isDocumentReference (S i) rest with
          | inl err => inl err
          | inr rs => inr (r :: rs)
          end
      end
  end.

(** [getAll(documents)]: the error thrown, or what the returned promise
    settles with. The request tag is only logged. *)
Definition getAll
    (isDocumentReference : nat -> Argument -> FirestoreError + DocumentReference)
    (formattedDatabase : string)
    (readStream : BatchGetRequest -> Settled (list StreamEvent))
    (arguments : list Argument)
  : FirestoreError + option (Settled (list (option DocumentSnapshot))) :=
  let documents :=
    match arguments with
    | ArgArray elements :: _ => elements
    | _ => arguments
    end in
  match check_references isDocumentReference 0 documents with
  | inl err => inl err
  | inr docRefs => inr (getAll_ formattedDatabase readStream docRefs None)
  end.

(** The key under which the ['data'] handler files a response, if it does. *)
Definition key_of (response : Response) : option string :=
  match
    match found response with
    | Some doc => snapshot_ (inl doc) (readTime response)
    | None => snapshot_ (inr (missing response)) (readTime response)
    end
  with
  | inr document => Some (path (ref document))
  | inl _ => None
  end.

(** The snapshot the ['data'] handler builds for a response. *)
Definition snapshot_of (response : Response) : FirestoreError + DocumentSnapshot :=
  match found response with
  | Some doc => snapshot_ (inl doc) (readTime response)
  | None => snapshot_ (inr (missing response)) (readTime response)
  end.

(** The map [retrievedDocuments] after the given responses. *)
Definition file (m : gmap string DocumentSnapshot) (response : Response)
  : gmap string DocumentSnapshot :=
  match snapshot_of response with
  | inr document => <[path (ref document) := document]> m
  | inl _ => m
  end.

Definition received (responses : list Response) : gmap string DocumentSnapshot :=
  fold_left file responses ∅.

End Reader.

(** Sample references and a backend that names documents by their path. *)
Definition docA : DocumentReference := mkRef "db/A" "A".
Definition docB : DocumentReference := mkRef "db/B" "B".

Definition byName (resourceName : string) : FirestoreError + DocumentReference :=
  if bool_decide (resourceName = "db/A"%string) then inr docA
  else if bool_decide (resourceName = "db/B"%string) then inr docB
  else inl (mkError JsUndefined "invalid resource name").

(** A check that lets references through. *)
Definition referencesOnly (i : nat) (a : Argument) : FirestoreError + DocumentReference :=
  match a with
  | ArgReference r => inr r
  | _ => inl (mkError JsUndefined "Argument is not a valid DocumentReference.")
  end.

Definition unknownName : Response :=
  mkResponse None (Some "elsewhere"%string) None.

Definition docC : DocumentReference := mkRef "db/C" "C".

(** A backend that also knows a third document. *)
Definition byName3 (resourceName : string) : FirestoreError + DocumentReference :=
  if bool_decide (resourceName = "db/C"%string) then inr docC else byName resourceName.

Definition missingC : Response := mkResponse None (Some "db/C"%string) (Some 3).

Definition foundA : Response :=
  mkResponse (Some (mkDocument "db/A" None 1 2)) None (Some 3).
Definition missingB : Response := mkResponse None (Some "db/B"%string) (Some 3).

(** A later answer for the first document: it is gone. *)
Definition goneA : Response := mkResponse None (Some "db/A"%string) (Some 4).

End BatchGet.

(** ** Settings and the lazily initialised client pool *)

Module Client.

(** The settings object: the two fields the class looks at, and the rest
    (key file, library name and version, ...). *)
Record Settings : Type := mkSettings {
  projectId : JsValue;
  timestampsInSnapshots : JsValue;
  otherSettings : gmap string JsValue
}.

(** The properties of a settings object that [extend] copies: it skips
    those whose value is [undefined]. *)
Definition defined_entries (m : gmap string JsValue) : gmap string JsValue :=
  filter (fun kv => kv.2 <> JsUndefined) m.

(** [extend({}, a, b)]: a fresh object that takes the properties of [a] and
    then those of [b]; a property whose value is [undefined] is skipped in
    either source, so [b] overrides [a] where it is defined. *)
Definition extend (a b : Settings) : Settings :=
  {| projectId := if is_defined (projectId b) then projectId b else projectId a;
     timestampsInSnapshots :=
       if is_defined (timestampsInSnapshots b) then timestampsInSnapshots b
       else timestampsInSnapshots a;
     otherSettings :=
       defined_entries (otherSettings b) ∪ defined_entries (otherSettings a) |}.

(** [new ResourcePath(projectId, databaseId)] of [./path]. *)
Record ResourcePath : Type := mkResourcePath {
  pathProjectId : JsValue;
  databaseId : string
}.

(** [new ClientPool(concurrentOperationLimit, clientFactory)] of [./pool]:
    the pools are told apart by the order of their creation. *)
Record ClientPool : Type := mkClientPool {
  poolId : nat;
  concurrentOperationLimit : Z
}.

(** The checks of [./validate] used here: [None] when the value passes, the
    error thrown otherwise. *)
Record Validate : Type := mkValidate {
  isOptionalString : JsValue -> option FirestoreError;
  isOptionalBoolean : JsValue -> option FirestoreError;
  isString : JsValue -> option FirestoreError
}.

(** The fields of a [Firestore] instance. *)
Record Firestore : Type := mkFirestore {
  _clientPool : option ClientPool;
  _settingsFrozen : bool;
  _clientInitialized : option nat;      (* the memoized promise, by identity *)
  _initalizationSettings : Settings;
  _timestampsInSnapshotsEnabled : bool;
  _referencePath : ResourcePath;
  _preferTransactions : bool
}.

Definition set_clientPool (v : option ClientPool) (fs : Firestore) : Firestore :=
  mkFirestore v (_settingsFrozen fs) (_clientInitialized fs)
    (_initalizationSettings fs) (_timestampsInSnapshotsEnabled fs)
    (_referencePath fs) (_preferTransactions fs).
Definition set_settingsFrozen (v : bool) (fs : Firestore) : Firestore :=
  mkFirestore (_clientPool fs) v (_clientInitialized fs)
    (_initalizationSettings fs) (_timestampsInSnapshotsEnabled fs)
    (_referencePath fs) (_preferTransactions fs).
Definition set_clientInitialized (v : option nat) (fs : Firestore) : Firestore :=
  mkFirestore (_clientPool fs) (_settingsFrozen fs) v
    (_initalizationSettings fs) (_timestampsInSnapshotsEnabled fs)
    (_referencePath fs) (_preferTransactions fs).
Definition set_initalizationSettings (v : Settings) (fs : Firestore) : Firestore :=
  mkFirestore (_clientPool fs) (_settingsFrozen fs) (_clientInitialized fs)
    v (_timestampsInSnapshotsEnabled fs)
    (_referencePath fs) (_preferTransactions fs).
Definition set_timestampsInSnapshotsEnabled (v : bool) (fs : Firestore) : Firestore :=
  mkFirestore (_clientPool fs) (_settingsFrozen fs) (_clientInitialized fs)
    (_initalizationSettings fs) v
    (_referencePath fs) (_preferTransactions fs).
Definition set_referencePath (v : ResourcePath) (fs : Firestore) : Firestore :=
  mkFirestore (_clientPool fs) (_settingsFrozen fs) (_clientInitialized fs)
    (_initalizationSettings fs) (_timestampsInSnapshotsEnabled fs)
    v (_preferTransactions fs).

Definition startedError : FirestoreError :=
  mkError JsUndefined
    ("Firestore has already been started and its settings can no longer " ++
     "be changed. You can only call settings() before calling any other " ++
     "methods on a Firestore object.").

Definition frozenError : FirestoreError :=
  mkError JsUndefined
    ("Firestore.settings() has already be called. You can only call " ++
     "settings() once, and only before calling any other methods on a " ++
     "Firestore object.").

Definition projectIdToken : JsValue := JsString "{{projectId}}".

(** [validateAndApplySettings(settings)]: the instance afterwards, and the
    error if a check threw. *)
Definition validateAndApplySettings (validate : Validate) (settings : Settings)
    (fs : Firestore) : Firestore * option FirestoreError :=
  match isOptionalBoolean validate (timestampsInSnapshots settings) with
  | Some err => (fs, Some err)
  | None =>
      let fs := set_timestampsInSnapshotsEnabled
                  (truthy (timestampsInSnapshots settings)) fs in
      if truthy (projectId settings) then
        match isString validate (projectId settings) with
        | Some err => (fs, Some err)
        | None =>
            (set_initalizationSettings settings
               (set_referencePath (mkResourcePath (projectId settings) "(default)") fs),
             None)
        end
      else
        (set_initalizationSettings settings
           (set_referencePath (mkResourcePath projectIdToken "(default)") fs),
         None)
  end.

(** [settings(settings)]: the instance afterwards, and the error thrown, if
    any. *)
Definition settings (validate : Validate) (s : Settings) (fs : Firestore)
  : Firestore * option FirestoreError :=
  match isOptionalString validate (projectId s) with
  | Some err => (fs, Some err)
  | None =>
  match isOptionalBoolean validate (timestampsInSnapshots s) with
  | Some err => (fs, Some err)
  | None =>
      if bool_decide (_clientInitialized fs <> None) then (fs, Some startedError)
      else if _settingsFrozen fs then (fs, Some frozenError)
      else
        let mergedSettings := extend (_initalizationSettings fs) s in
        match validateAndApplySettings validate mergedSettings fs with
        | (fs, Some err) => (fs, Some err)
        | (fs, None) => (set_settingsFrozen true fs, None)
        end
  end
  end.

(** [new Firestore(settings)]: the instance, or the error thrown.
    [libVersion] is the version of the package, [functionTriggerType] the
    environment variable [FUNCTION_TRIGGER_TYPE]. *)
Definition newFirestore (validate : Validate) (libVersion : string)
    (functionTriggerType : JsValue) (s : Settings)
  : FirestoreError + Firestore :=
  let s := extend s {| projectId := JsUndefined;
                       timestampsInSnapshots := JsUndefined;
                       otherSettings := {[ "libName"%string := JsString "gccl";
                                           "libVersion"%string := JsString libVersion ]} |} in
  let fs := {| _clientPool := None;
               _settingsFrozen := false;
               _clientInitialized := None;
               _initalizationSettings := s;   (* null until the next line *)
               _timestampsInSnapshotsEnabled := false;
               _referencePath := mkResourcePath JsUndefined "";
               _preferTransactions := false |} in
  match validateAndApplySettings validate s fs with
  | (_, Some err) => inl err
  | (fs, None) =>
      inr (mkFirestore (_clientPool fs) (_settingsFrozen fs) (_clientInitialized fs)
             (_initalizationSettings fs) (_timestampsInSnapshotsEnabled fs)
             (_referencePath fs) (is_defined functionTriggerType))
  end.

(** The operations handed to [_runRequest]: the arrow functions built by
    [request], [readStream] and [readWriteStream], by what they close over. *)
Inductive OpKind : Type := Unary | ReadOnlyStream | ReadWriteStream.

Record Op : Type := mkOp {
  kind : OpKind;
  methodName : string;
  payload : string;
  requestTag : string;
  attempts : Z
}.

(** The promise made by [_initClientPool().then(...)]. *)
Inductive InitPromise : Type :=
| Detecting (pool : ClientPool)   (* waiting for the project id *)
| Ready                           (* fulfilled: [_clientPool] is set *)
| Failed (err : FirestoreError).  (* rejected *)

(** The instance together with what surrounds it: the promises made by the
    initialisation, the callbacks waiting on them, and logs of what was
    created, dispatched and rejected. *)
Record World : Type := mkWorld {
  firestore : Firestore;
  promises : list InitPromise;           (* promise [p] is entry [p] *)
  waiting : list (nat * Op);             (* [.then(() => this._clientPool.run(op))] *)
  poolsCreated : nat;                    (* runs of [new ClientPool(...)] *)
  dispatched : list (option ClientPool * Op);  (* [this._clientPool.run(op)] *)
  rejected : list (Op * FirestoreError); (* calls whose promise rejected *)
  thrown : list FirestoreError;          (* errors thrown by [settings] *)
  warnings : nat                         (* [console.error] of the Date warning *)
}.

Definition with_firestore (fs : Firestore) (w : World) : World :=
  mkWorld fs (promises w) (waiting w) (poolsCreated w) (dispatched w)
    (rejected w) (thrown w) (warnings w).

Definition boot (fs : Firestore) : World :=
  {| firestore := fs; promises := []; waiting := []; poolsCreated := 0;
     dispatched := []; rejected := []; thrown := []; warnings := 0 |}.

(** [_initClientPool()]: the new pool, and whether the promise it returns
    is already resolved ([Promise.resolve(clientPool)]) or waits for
    [_detectProjectId]. The assertion holds wherever it is called. *)
Definition _initClientPool (w : World) : World * InitPromise * ClientPool :=
  let clientPool :=
    mkClientPool (poolsCreated w) MAX_CONCURRENT_REQUESTS_PER_CLIENT in
  let w := mkWorld (firestore w) (promises w) (waiting w) (S (poolsCreated w))
             (dispatched w) (rejected w) (thrown w) (warnings w) in
  let projectIdProvided :=
    strict_ne (pathProjectId (_referencePath (firestore w))) projectIdToken in
  if projectIdProvided then (w, Ready, clientPool)
  else (w, Detecting clientPool, clientPool).

(** The callback [() => this._clientPool.run(op)] runs. *)
Definition dispatch (op : Op) (w : World) : World :=
  mkWorld (firestore w) (promises w) (waiting w) (poolsCreated w)
    (dispatched w ++ [(_clientPool (firestore w), op)])
    (rejected w) (thrown w) (warnings w).

Definition fail (err : FirestoreError) (op : Op) (w : World) : World :=
  mkWorld (firestore w) (promises w) (waiting w) (poolsCreated w)
    (dispatched w) (rejected w ++ [(op, err)]) (thrown w) (warnings w).

(** [_runRequest(op)], run up to the point where control returns to the
    event loop. *)
Definition _runRequest (op : Op) (w : World) : World :=
  let w :=
    match _clientInitialized (firestore w) with
    | Some _ => w
    | None =>
        let w :=
          if _timestampsInSnapshotsEnabled (firestore w) then w
          else mkWorld (firestore w) (promises w) (waiting w) (poolsCreated w)
                 (dispatched w) (rejected w) (thrown w) (S (warnings w)) in
        let '(w, made, clientPool) := _initClientPool w in
        let p := length (promises w) in
        (* this._clientInitialized = <the promise>; when the promise of
           _initClientPool is already resolved, its callback sets the pool
           before any other callback runs *)
        let fs := set_clientInitialized (Some p) (firestore w) in
        let fs := match made with
                  | Ready => set_clientPool (Some clientPool) fs
                  | _ => fs
                  end in
        mkWorld fs (promises w ++ [made]) (waiting w) (poolsCreated w)
          (dispatched w) (rejected w) (thrown w) (warnings w)
    end in
  match _clientInitialized (firestore w) with
  | Some p =>
      match promises w !! p with
      | Some Ready => dispatch op w
      | Some (Failed err) => fail err op w
      | _ => mkWorld (firestore w) (promises w) (waiting w ++ [(p, op)])
               (poolsCreated w) (dispatched w) (rejected w) (thrown w) (warnings w)
      end
  | None => w
  end.

(** [request], [readStream] and [readWriteStream]. *)
Definition request (methodName payload requestTag : string) (allowRetries : bool)
  : World -> World :=
  let attempts := if allowRetries then MAX_REQUEST_RETRIES else 1 in
  _runRequest (mkOp Unary methodName payload requestTag attempts).

Definition readStream (methodName payload requestTag : string) (allowRetries : bool)
  : World -> World :=
  let attempts := if allowRetries then MAX_REQUEST_RETRIES else 1 in
  _runRequest (mkOp ReadOnlyStream methodName payload requestTag attempts).

Definition readWriteStream (methodName payload requestTag : string)
    (allowRetries : bool) : World -> World :=
  let attempts := if allowRetries then MAX_REQUEST_RETRIES else 1 in
  _runRequest (mkOp ReadWriteStream methodName payload requestTag attempts).

(** What the instance uses from outside this file:
    [common.util.replaceProjectIdToken] of [@google-cloud/common] and the
    getter [formattedName] of [ResourcePath] ([./path]). *)
Record Externals : Type := mkExternals {
  replaceProjectIdToken : string -> JsValue -> string;
  formattedName : ResourcePath -> string
}.

Definition CLOUD_RESOURCE_HEADER : string := "google-cloud-resource-prefix".

(** What [_decorateRequest] returns: [{request, gax}], the latter by its
    headers. *)
Record DecoratedRequest : Type := mkDecorated {
  decoratedRequest : string;
  gaxHeaders : list (string * string)
}.

Definition _decorateRequest (ext : Externals) (fs : Firestore) (payload : string)
  : DecoratedRequest :=
  {| decoratedRequest :=
       replaceProjectIdToken ext payload (pathProjectId (_referencePath fs));
     gaxHeaders := [(CLOUD_RESOURCE_HEADER, formattedName ext (_referencePath fs))] |}.

(** A GAPIC client: for a method and a decorated request, what the callback
    of the i-th call on this client receives. *)
Definition GapicClient (R : Type) : Type :=
  string -> DecoratedRequest -> nat -> Settled R.

(** The arrow function that [request] hands to [_runRequest], run by the
    pool on a client: decorate the request, then
    [_retry(attempts, requestTag, () => ...)] around the call of
    [gapicClient[methodName]]. *)
Definition run_unary {R} (fuel : nat) (ext : Externals) (fs : Firestore)
    (gapicClient : GapicClient R) (op : Op) (st : Retry.RetryState)
  : option (Settled R * Retry.RetryState) :=
  let decorated := _decorateRequest ext fs (payload op) in
  Retry._retry fuel (attempts op) (gapicClient (methodName op) decorated) None st.

(** The callbacks waiting on promise [p] run, in the order of registration. *)
Definition settle_waiting (p : nat) (outcome : option FirestoreError) (w : World)
  : World :=
  let mine := filter (fun po => po.1 = p) (waiting w) in
  let others := filter (fun po => po.1 <> p) (waiting w) in
  let w := mkWorld (firestore w) (promises w) others (poolsCreated w)
             (dispatched w) (rejected w) (thrown w) (warnings w) in
  fold_left (fun w po => match outcome with
                         | None => dispatch po.2 w
                         | Some err => fail err po.2 w
                         end) mine w.

(** The callback of [gapicClient.getProjectId] for the detection behind
    promise [p] is called with [(err, projectId)]. *)
Definition projectIdDetected (p : nat) (result : Settled JsValue) (w : World) : World :=
  match promises w !! p with
  | Some (Detecting clientPool) =>
      match result with
      | Resolved detected =>
          let fs := firestore w in
          let fs := set_referencePath
                      (mkResourcePath detected (databaseId (_referencePath fs))) fs in
          let fs := set_clientPool (Some clientPool) fs in
          settle_waiting p None
            (mkWorld fs (<[p := Ready]> (promises w)) (waiting w) (poolsCreated w)
               (dispatched w) (rejected w) (thrown w) (warnings w))
      | Rejected err =>
          settle_waiting p (Some err)
            (mkWorld (firestore w) (<[p := Failed err]> (promises w)) (waiting w)
               (poolsCreated w) (dispatched w) (rejected w) (thrown w) (warnings w))
      end
  | _ => w
  end.

(** What the application and the event loop do to an instance. *)
Inductive Event : Type :=
| CallRequest (methodName payload requestTag : string) (allowRetries : bool)
| CallReadStream (methodName payload requestTag : string) (allowRetries : bool)
| CallReadWriteStream (methodName payload requestTag : string) (allowRetries : bool)
| CallSettings (s : Settings)
| ProjectIdDetected (p : nat) (result : Settled JsValue).

Definition step (validate : Validate) (w : World) (ev : Event) : World :=
  match ev with
  | CallRequest m r t a => request m r t a w
  | CallReadStream m r t a => readStream m r t a w
  | CallReadWriteStream m r t a => readWriteStream m r t a w
  | CallSettings s =>
      let '(fs, err) := settings validate s (firestore w) in
      mkWorld fs (promises w) (waiting w) (poolsCreated w) (dispatched w)
        (rejected w)
        (match err with Some e => thrown w ++ [e] | None => thrown w end)
        (warnings w)
  | ProjectIdDetected p result => projectIdDetected p result w
  end.

Definition run (validate : Validate) (w : World) (evs : list Event) : World :=
  fold_left (step validate) evs w.

Definition is_call (ev : Event) : bool :=
  match ev with
  | CallRequest _ _ _ _ | CallReadStream _ _ _ _ | CallReadWriteStream _ _ _ _ => true
  | _ => false
  end.

(** The operation a call hands to [_runRequest]. *)
Definition op_of_event (ev : Event) : option Op :=
  match ev with
  | CallRequest m r t a => Some (mkOp Unary m r t (if a then MAX_REQUEST_RETRIES else 1))
  | CallReadStream m r t a =>
      Some (mkOp ReadOnlyStream m r t (if a then MAX_REQUEST_RETRIES else 1))
  | CallReadWriteStream m r t a =>
      Some (mkOp ReadWriteStream m r t (if a then MAX_REQUEST_RETRIES else 1))
  | _ => None
  end.

(** The operations of a sequence of events, in the order of the calls. *)
Definition called (evs : list Event) : list Op := omap op_of_event evs.

(** Where the operations [ops] called so far are: all waiting for the
    project id, all handed to the pool, or all rejected. *)
Definition tracked (ops : list Op) (w : World) : Prop :=
  match _clientInitialized (firestore w) with
  | None =>
      ops = [] /\ promises w = [] /\ waiting w = [] /\ dispatched w = [] /\
      rejected w = []
  | Some p =>
      p = O /\
      (((exists pool, promises w = [Detecting pool]) /\
        waiting w = map (fun op => (O, op)) ops /\
        dispatched w = [] /\ rejected w = []) \/
       (promises w = [Ready] /\
        dispatched w = map (fun op => (_clientPool (firestore w), op)) ops /\
        waiting w = [] /\ rejected w = []) \/
       (exists err, promises w = [Failed err] /\
                    rejected w = map (fun op => (op, err)) ops /\
                    waiting w = [] /\ dispatched w = []))
  end.

(** The warning about [Date] objects was printed by the call that started
    the initialisation, if at all. *)
Definition warned_once (w : World) : Prop :=
  (warnings w <= 1)%nat /\
  (_clientInitialized (firestore w) = None -> warnings w = O) /\
  (_timestampsInSnapshotsEnabled (firestore w) = true -> warnings w = O).

(** The one pool of an instance. *)
Definition firstPool : ClientPool :=
  mkClientPool 0 MAX_CONCURRENT_REQUESTS_PER_CLIENT.

(** The instance has a project id, and every promise made so far is
    fulfilled. *)
Definition eager (rp : ResourcePath) (w : World) : Prop :=
  pathProjectId rp <> projectIdToken /\ _referencePath (firestore w) = rp /\
  Forall (fun made => made = Ready) (promises w).

(** The instance has no project id yet and is not past the detection. *)
Definition undetected (rp : ResourcePath) (w : World) : Prop :=
  pathProjectId rp = projectIdToken /\ _referencePath (firestore w) = rp /\
  match _clientInitialized (firestore w) with
  | None => promises w = [] /\ poolsCreated w = O /\ _clientPool (firestore w) = None
  | Some p =>
      p = O /\ promises w = [Detecting firstPool] /\ _clientPool (firestore w) = None
  end.

(** What holds of an instance at any time: nothing is there before the first
    request; from the first request on there is one promise and one pool. *)
Definition consistent (w : World) : Prop :=
  match _clientInitialized (firestore w) with
  | None =>
      poolsCreated w = O /\ promises w = [] /\ waiting w = [] /\
      dispatched w = [] /\ _clientPool (firestore w) = None
  | Some p =>
      p = O /\ poolsCreated w = 1%nat /\
      ((promises w = [Detecting firstPool] /\ _clientPool (firestore w) = None /\
        dispatched w = []) \/
       (promises w = [Ready] /\ _clientPool (firestore w) = Some firstPool /\
        Forall (fun d => d.1 = Some firstPool) (dispatched w)) \/
       (exists err, promises w = [Failed err] /\ _clientPool (firestore w) = None /\
                    dispatched w = []))
  end.

(** Sample validators and settings. *)
Definition lenient : Validate :=
  {| isOptionalString := fun v =>
       match v with
       | JsUndefined | JsString _ => None
       | _ => Some (mkError JsUndefined "not a string")
       end;
     isOptionalBoolean := fun v =>
       match v with
       | JsUndefined | JsBool _ => None
       | _ => Some (mkError JsUndefined "not a boolean")
       end;
     isString := fun v =>
       match v with
       | JsString _ => None
       | _ => Some (mkError JsUndefined "not a string")
       end |}.

(** An instance without a project id sends two requests, learns its
    project id, and sends a third. *)
Definition sampleSession : list Event :=
  [CallRequest "commit" "{}" "tag01" false;
   CallReadStream "runQuery" "{}" "tag02" true;
   ProjectIdDetected 0 (Resolved (JsString "detected-project"));
   CallReadWriteStream "listen" "{}" "tag03" true].

Definition noSettings : Settings := mkSettings JsUndefined JsUndefined ∅.

(** The same session with a detection that fails. *)
Definition failingSession : list Event :=
  [CallRequest "commit" "{}" "tag01" false;
   ProjectIdDetected 0 (Rejected (mkError (JsNumber 16) "UNAUTHENTICATED"));
   CallReadStream "runQuery" "{}" "tag02" true].

Definition freshInstance : Firestore :=
  mkFirestore None false None
    (mkSettings JsUndefined JsUndefined
       {[ "libName"%string := JsString "gccl";
          "libVersion"%string := JsString "0.14.1" ]})
    false (mkResourcePath projectIdToken "(default)") false.

Definition sampleExternals : Externals :=
  {| replaceProjectIdToken := fun payload _ => payload;
     formattedName := fun rp => ("projects/" ++ "my-project" ++ "/databases/" ++ databaseId rp)%string |}.

Definition sampleInstance : Firestore :=
  mkFirestore (Some firstPool) true (Some 0%nat)
    (mkSettings (JsString "my-project") (JsBool true) ∅) true
    (mkResourcePath (JsString "my-project") "(default)") false.

(** A client that is unavailable twice and then answers. *)
Definition flakyClient : GapicClient string :=
  fun _ _ i => Retry.flakyThenOk i.
Definition withProject : Settings := mkSettings (JsString "my-project") (JsBool true) ∅.

End Client.

(** ** Client-side identifiers *)

Module Identifiers.

Definition chars : string :=
  "ABCDEFGHIJKLMNOPQRSTUVWXYZabcdefghijklmnopqrstuvwxyz0123456789".

(** [s.charAt(i)]: the empty string out of range. *)
Definition charAt (s : string) (i : nat) : string :=
  match String.get i s with
  | Some c => String c EmptyString
  | None => EmptyString
  end.

(** The loop of [autoId]: [n] rounds are left, [i] draws were made.
    [draw i] is the value of [Math.floor(Math.random() * chars.length)] in
    round [i]. *)
Fixpoint autoId_loop (n : nat) (draw : nat -> nat) (i : nat) (autoId : string)
  : string :=
  match n with
  | O => autoId
  | S n' => autoId_loop n' draw (S i) (String.append autoId (charAt chars (draw i)))
  end.

(** [Firestore.autoId()] and [Firestore.requestTag()]. *)
Definition autoId (draw : nat -> nat) : string := autoId_loop 20 draw 0 EmptyString.

Definition requestTag (draw : nat -> nat) : string :=
  String.substring 0 5 (autoId draw).

Definition sampleDraw (i : nat) : nat := (7 * i + 3) mod 62.

End Identifiers.

(** * Properties *)

(** ** The retry helper *)

Module RetryProps.
Import Retry.

Lemma delay_or_idem d x : x <> 0 -> delay_or (Some (delay_or d x)) x = delay_or d x.
Proof.
  intros Hx. unfold delay_or. destruct d as [v|].
  - destruct (v =? 0) eqn:E.
    + apply Z.eqb_neq in Hx. now rewrite Hx.
    + now rewrite E.
  - apply Z.eqb_neq in Hx. now rewrite Hx.
Qed.


Lemma delay_after_step k d :
  delay_after k (Some (delay_or d 100)) = delay_after (S k) d.
Proof.
  destruct k; cbn [delay_after]; [reflexivity|]. now rewrite delay_or_idem.
Qed.

Lemma transient_failures_tail {R} (func : nat -> Settled R) from k :
  transient_failures func from (S k) -> transient_failures func (S from) k.
Proof.
  intros H i Hi. destruct (H (S i)) as [err [E U]]; [lia|].
  exists err. split; [|exact U]. rewrite <- E. f_equal. lia.
Qed.


(** [k] retried failures unfold [k] levels of the recursion. *)
Lemma retry_after_failures {R} (func : nat -> Settled R) k :
  forall fuel n d st,
    transient_failures func (calls st) k ->
    n <= 0 \/ Z.of_nat k < n ->
    _retry (k + fuel) n func d st
    = _retry fuel (n - Z.of_nat k) func (delay_after k d) (after_failures k d st).
Proof.
  induction k as [|k IH]; intros fuel n d st Hf Hn.
  - simpl. now rewrite Z.sub_0_r.
  - destruct (Hf 0%nat) as [err [E U]]; [lia|].
    rewrite Nat.add_0_r in E.
    change (S k + fuel)%nat with (S (k + fuel)).
    cbn [_retry]. unfold invoke. cbn [calls sleep]. rewrite E, U.
    destruct (n - 1 =? 0) eqn:Hz; [apply Z.eqb_eq in Hz; lia|].
    rewrite IH.
    + rewrite delay_after_step. cbn [after_failures]. f_equal. lia.
    + apply transient_failures_tail in Hf. exact Hf.
    + lia.
Qed.

Lemma after_failures_calls k : forall d st,
  calls (after_failures k d st) = (calls st + k)%nat.
Proof.
  induction k as [|k IH]; intros d st; simpl; [lia|].
  rewrite IH. simpl. lia.
Qed.


Lemma stop_state_calls m d b st : calls (stop_state m d b st) = (calls st + m + 1)%nat.
Proof.
  unfold stop_state. destruct b; cbn [calls recordSuccess noteAttempt sleep];
    rewrite after_failures_calls; lia.
Qed.


(** With a budget of at least one attempt and fuel for the whole budget,
    [_retry] returns: it stops at the first attempt [m] that succeeds, fails
    with an unrecoverable error, or uses up the budget. *)
Lemma retry_run {R} (func : nat -> Settled R) :
  forall fuel n d st,
    1 <= n -> (Z.to_nat n <= fuel)%nat ->
    exists m,
      Z.of_nat m < n /\
      transient_failures func (calls st) m /\
      _retry fuel n func d st
      = Some (func (calls st + m)%nat,
              stop_state m d (succeeded (func (calls st + m)%nat)) st) /\
      match func (calls st + m)%nat with
      | Resolved _ => True
      | Rejected err => unrecoverable err = true \/ Z.of_nat (S m) = n
      end.
Proof.
  induction fuel as [|fuel IH]; intros n d st Hn Hfuel; [lia|].
  assert (T0 : transient_failures func (calls st) 0) by (intros i Hi; lia).
  cbn [_retry]. unfold invoke. cbn [calls sleep].
  destruct (func (calls st)) as [v|err] eqn:E.
  - exists 0%nat. rewrite Nat.add_0_r, E. repeat split; [lia|exact T0].
  - destruct (unrecoverable err) eqn:U.
    + exists 0%nat. rewrite Nat.add_0_r, E. repeat split; [lia|exact T0|now left].
    + destruct (n - 1 =? 0) eqn:Hz.
      * apply Z.eqb_eq in Hz.
        exists 0%nat. rewrite Nat.add_0_r, E. repeat split; [lia|exact T0|right; lia].
      * apply Z.eqb_neq in Hz.
        set (st2 := noteAttempt (sleep (delay_or d 0) st)).
        destruct (IH (n - 1) (Some (delay_or d 100)) st2) as (m & Hm & Tm & Run & Stop);
          [lia|lia|].
        assert (C : (calls st2 + m = calls st + S m)%nat) by (subst st2; cbn; lia).
        rewrite C in Run, Stop.
        exists (S m). repeat split.
        -- lia.
        -- intros i Hi. destruct i as [|i].
           ++ exists err. rewrite Nat.add_0_r. now split.
           ++ destruct (Tm i) as [e [Ee Ue]]; [lia|]. exists e. split; [|exact Ue].
              rewrite <- Ee. f_equal. subst st2. cbn. lia.
        -- rewrite Run. unfold stop_state. rewrite delay_after_step. reflexivity.
        -- destruct (func (calls st + S m)%nat); [exact I|].
           destruct Stop as [?|?]; [now left|right; lia].
Qed.

(** The test of the [catch] handler, by the code of the error: an error is
    final exactly when its code is defined and is not 14. *)
Lemma unrecoverable_by_code err :
  (unrecoverable err = true <-> code err <> JsUndefined /\ code err <> JsNumber 14) /\
  (unrecoverable err = false <-> code err = JsNumber 14 \/ code err = JsUndefined).
Proof.
  unfold unrecoverable, strict_ne, GRPC_UNAVAILABLE.
  destruct (code err) as [| |b|n|str]; cbn;
    try (split; split; [intros _; split; discriminate | reflexivity
                        | discriminate | intros [?|?]; discriminate]);
    [split; split; [discriminate | intros [? _]; congruence
                    | intros _; now right | reflexivity]|].
  case_bool_decide as E; cbn.
  - injection E as ->. split; split;
      [discriminate | intros [_ ?]; congruence | intros _; now left | reflexivity].
  - split; split; [intros _; split; [discriminate|exact E] | reflexivity
                   | discriminate | intros [?|?]; [congruence|discriminate]].
Qed.

(** C1: in [_retry], an attempt that fails with an error whose code is
    defined and is not 14 ('service unavailable') ends the call at once with
    that error, whatever the budget, and the retried function is not invoked
    again; an attempt that fails with code 14 or with no defined code is
    followed by a further call of [_retry], and so by a further attempt,
    while the decremented budget is not zero, and ends the call with its
    error when the budget is used up. *)
Theorem retry_error_classification {R} (func : nat -> Settled R)
    (k fuel : nat) (n : Z) (d : option Z) (st : RetryState) (err : FirestoreError) :
  (forall i, (i < k)%nat ->
     exists e, func (calls st + i)%nat = Rejected e /\
               (code e = JsNumber 14 \/ code e = JsUndefined)) ->
  func (calls st + k)%nat = Rejected err ->
  n <= 0 \/ Z.of_nat k < n ->
  (code err <> JsUndefined -> code err <> JsNumber 14 ->
     _retry (k + S fuel) n func d st = Some (Rejected err, stop_state k d false st) /\
     calls (stop_state k d false st) = (calls st + k + 1)%nat) /\
  (code err = JsNumber 14 \/ code err = JsUndefined -> n - Z.of_nat k - 1 <> 0 ->
     _retry (k + S fuel) n func d st
     = _retry fuel (n - Z.of_nat k - 1) func (Some (delay_or d 100))
         (stop_state k d false st) /\
     (1 <= n - Z.of_nat k - 1 -> (Z.to_nat (n - Z.of_nat k - 1) <= fuel)%nat ->
      exists r st',
        _retry (k + S fuel) n func d st = Some (r, st') /\
        (calls st + k + 1 < calls st')%nat)) /\
  (code err = JsNumber 14 \/ code err = JsUndefined -> n - Z.of_nat k - 1 = 0 ->
     _retry (k + S fuel) n func d st = Some (Rejected err, stop_state k d false st) /\
     calls (stop_state k d false st) = (calls st + k + 1)%nat).
Proof.
  intros Hk Hfail Hn.
  assert (Hk' : transient_failures func (calls st) k).
  { intros i Hi. destruct (Hk i Hi) as (e & He & Hc). exists e. split; [exact He|].
    now apply (unrecoverable_by_code e). }
  rewrite (retry_after_failures func k (S fuel) n d st Hk' Hn).
  cbn [_retry]. unfold invoke. cbn [calls sleep].
  rewrite after_failures_calls, Hfail.
  assert (Hd : delay_or (delay_after k d) 100 = delay_or d 100).
  { destruct k; cbn [delay_after]; [reflexivity|]. apply delay_or_idem. lia. }
  split; [|split].
  - intros U1 U2.
    assert (U : unrecoverable err = true) by now apply (unrecoverable_by_code err).
    rewrite U. split; [reflexivity|apply stop_state_calls].
  - intros U Hz. apply (unrecoverable_by_code err) in U. rewrite U.
    apply Z.eqb_neq in Hz. rewrite Hz, Hd.
    split; [reflexivity|]. intros Hb Hf.
    destruct (retry_run func fuel (n - Z.of_nat k - 1) (Some (delay_or d 100))
                (stop_state k d false st) Hb Hf) as (m & _ & _ & Run & _).
    fold (stop_state k d false st).
    replace (n - Z.of_nat k - 1) with (n - Z.of_nat k - 1) in Run by reflexivity.
    eexists _, _. split; [exact Run|].
    rewrite !stop_state_calls. lia.
  - intros U Hz. apply (unrecoverable_by_code err) in U. rewrite U.
    apply Z.eqb_eq in Hz. rewrite Hz.
    split; [reflexivity|apply stop_state_calls].
Qed.

Lemma retry_error_classification_witness :
  _retry 5 5 codelessThenNotFound None initialRetryState
  = Some (Rejected notFound, stop_state 2 None false initialRetryState) /\
  calls (stop_state 2 None false initialRetryState) = 3%nat.
Proof.
  assert (H : forall i, (i < 2)%nat ->
            exists e, codelessThenNotFound (calls initialRetryState + i)%nat = Rejected e /\
                      (code e = JsNumber 14 \/ code e = JsUndefined)).
  { intros i Hi. destruct i as [|[|i]]; [| |lia].
    - exists unavailable. split; [reflexivity|now left].
    - exists socketHangUp. split; [reflexivity|now right]. }
  destruct (retry_error_classification codelessThenNotFound 2 2 5 None
              initialRetryState notFound H eq_refl) as [T _].
  - right. lia.
  - apply T; discriminate.
Defined.



Lemma after_failures_timestamp k : forall d st,
  _lastSuccessfulRequest (after_failures k d st) = _lastSuccessfulRequest st.
Proof.
  induction k as [|k IH]; intros d st; cbn [after_failures]; [reflexivity|].
  now rewrite IH.
Qed.


(** With a budget of [n >= 1], [_retry] returns after at least one and at
    most [n] invocations of the retried function. *)
Theorem retry_attempts_within_budget {R} (func : nat -> Settled R)
    (fuel : nat) (n : Z) (d : option Z) (st : RetryState) :
  1 <= n -> (Z.to_nat n <= fuel)%nat ->
  exists r st',
    _retry fuel n func d st = Some (r, st') /\
    (calls st < calls st')%nat /\
    Z.of_nat (calls st' - calls st) <= n.
Proof.
  intros Hn Hfuel.
  destruct (retry_run func fuel n d st Hn Hfuel) as (m & Hm & _ & Run & _).
  eexists _, _. split; [exact Run|]. rewrite stop_state_calls. split; lia.
Qed.

Lemma retry_attempts_within_budget_witness :
  exists r st',
    _retry 5 5 alwaysUnavailable None initialRetryState = Some (r, st') /\
    (calls initialRetryState < calls st')%nat /\
    Z.of_nat (calls st' - calls initialRetryState) <= 5.
Proof.
  apply (retry_attempts_within_budget alwaysUnavailable 5 5 None initialRetryState);
    [lia | reflexivity].
Defined.

(** When every attempt of a budget of [n + 1] fails with a transient error,
    [_retry] makes exactly [n + 1] attempts and rejects with the error of the
    last one. *)
Theorem retry_budget_exhausted {R} (func : nat -> Settled R)
    (n fuel : nat) (d : option Z) (st : RetryState) (err : FirestoreError) :
  transient_failures func (calls st) (S n) ->
  func (calls st + n)%nat = Rejected err ->
  _retry (n + S fuel) (Z.of_nat (S n)) func d st
  = Some (Rejected err, stop_state n d false st) /\
  calls (stop_state n d false st) = (calls st + S n)%nat.
Proof.
  intros Hall Hlast.
  assert (Hpre : transient_failures func (calls st) n).
  { intros i Hi. apply Hall. lia. }
  destruct (Hall n) as (err' & E & U); [lia|].
  rewrite Hlast in E. injection E as <-.
  rewrite (retry_after_failures func n (S fuel) (Z.of_nat (S n)) d st Hpre) by lia.
  cbn [_retry]. unfold invoke. cbn [calls sleep].
  rewrite after_failures_calls, Hlast, U.
  replace (Z.of_nat (S n) - Z.of_nat n - 1 =? 0) with true
    by (symmetry; apply Z.eqb_eq; lia).
  split; [reflexivity|]. rewrite stop_state_calls. lia.
Qed.

Lemma retry_budget_exhausted_witness :
  _retry 5 5 alwaysUnavailable None initialRetryState
  = Some (Rejected unavailable, stop_state 4 None false initialRetryState) /\
  calls (stop_state 4 None false initialRetryState)
  = (calls initialRetryState + 5)%nat.
Proof.
  apply (retry_budget_exhausted alwaysUnavailable 4 0 None initialRetryState unavailable).
  - intros i Hi. exists unavailable. split; reflexivity.
  - reflexivity.
Defined.

(** Called with a budget of zero or less, [_retry] never gives up on
    transient errors: the decremented budget is never 0, so no amount of
    fuel lets the chain return. *)
Theorem retry_without_budget_never_returns {R} (func : nat -> Settled R) (fuel : nat) :
  forall (n : Z) (d : option Z) (st : RetryState),
    n <= 0 ->
    (forall i, exists err, func i = Rejected err /\ unrecoverable err = false) ->
    _retry fuel n func d st = None.
Proof.
  induction fuel as [|fuel IH]; intros n d st Hn Hall; [reflexivity|].
  cbn [_retry]. unfold invoke. cbn [calls sleep].
  destruct (Hall (calls st)) as (err & E & U). rewrite E, U.
  destruct (n - 1 =? 0) eqn:Hz; [apply Z.eqb_eq in Hz; lia|].
  apply IH; [lia|exact Hall].
Qed.

Lemma retry_without_budget_never_returns_witness :
  _retry 50 0 alwaysUnavailable None initialRetryState = None.
Proof.
  apply (retry_without_budget_never_returns alwaysUnavailable 50 0 None
           initialRetryState); [lia|].
  intros i. exists unavailable. split; reflexivity.
Defined.

(** [_lastSuccessfulRequest] is written exactly when the chain succeeds: a
    chain that resolves leaves the time of the success in it, a chain that
    rejects leaves it as it was. *)
Theorem retry_records_success_only {R} (func : nat -> Settled R)
    (fuel : nat) (n : Z) (d : option Z) (st : RetryState) :
  1 <= n -> (Z.to_nat n <= fuel)%nat ->
  exists r st',
    _retry fuel n func d st = Some (r, st') /\
    match r with
    | Resolved _ => _lastSuccessfulRequest st' = Some (clock st')
    | Rejected _ => _lastSuccessfulRequest st' = _lastSuccessfulRequest st
    end.
Proof.
  intros Hn Hfuel.
  destruct (retry_run func fuel n d st Hn Hfuel) as (m & _ & _ & Run & _).
  eexists _, _. split; [exact Run|].
  destruct (func (calls st + m)%nat); cbn [succeeded stop_state].
  - reflexivity.
  - cbn [_lastSuccessfulRequest noteAttempt sleep]. apply after_failures_timestamp.
Qed.

Lemma retry_records_success_only_witness :
  exists r st',
    _retry 5 5 flakyThenOk None initialRetryState = Some (r, st') /\
    match r with
    | Resolved _ => _lastSuccessfulRequest st' = Some (clock st')
    | Rejected _ => _lastSuccessfulRequest st' = _lastSuccessfulRequest initialRetryState
    end.
Proof.
  apply (retry_records_success_only flakyThenOk 5 5 None initialRetryState);
    [lia | reflexivity].
Defined.



Example retry_trace_example :
  option_map (fun p => trace (snd p))
    (_retry 5 5 flakyThenOk None initialRetryState)
  = Some [Wait 0; Attempt 0; Wait 100; Attempt 1; Wait 100; Attempt 2].
Proof. reflexivity. Qed.

End RetryProps.

(** ** The stream-health protocol *)

Module StreamInitProps.
Import StreamInit.

Lemma count_app p l1 l2 : count p (l1 ++ l2) = (count p l1 + count p l2)%nat.
Proof. induction l1 as [|e l1 IH]; cbn; [reflexivity|]. rewrite IH. lia. Qed.

Lemma stream_run_app st evs1 evs2 : run st (evs1 ++ evs2) = run (run st evs1) evs2.
Proof. apply fold_left_app. Qed.

Lemma run_cons st ev evs : run st (ev :: evs) = run (step st ev) evs.
Proof. reflexivity. Qed.

Ltac eval_handlers := cbv -[app count Nat.add] in *.

Ltac cases :=
  repeat match goal with
         | |- context [match ?x with _ => _ end] =>
             is_var x; destruct x eqn:?; eval_handlers
         end.

Ltac by_cases st ev :=
  destruct st as [er sr ec pr tm wc lg];
  unfold pending, failed, end_due, end_forwarded, released, released_once,
    errors_accounted in *;
  destruct ev as [[| |e]| |]; eval_handlers; cases; subst;
  rewrite ?count_app in *; cbn [count] in *;
  try congruence; try lia; try (intuition (congruence || lia)).

Lemma step_keeps_released st ev :
  streamReleased st = true -> streamReleased (step st ev) = true.
Proof. intros H. by_cases st ev. Qed.

Lemma step_pending st ev :
  pending st -> streamReleased (step st ev) = false -> pending (step st ev).
Proof. intros H H'. by_cases st ev. Qed.

Lemma pending_reachable request evs :
  streamReleased (run (_initializeStream request) evs) = false ->
  pending (run (_initializeStream request) evs).
Proof.
  induction evs as [|ev evs IH] using rev_ind.
  - intros _. unfold pending. destruct request; cbn; intuition.
  - rewrite stream_run_app. cbn [run fold_left]. intros H.
    apply step_pending; [|exact H]. apply IH.
    destruct (streamReleased (run (_initializeStream request) evs)) eqn:E; [|reflexivity].
    unfold run in *. rewrite (step_keeps_released _ ev E) in H. discriminate.
Qed.

Lemma step_failed err st ev : failed err st -> failed err (step st ev).
Proof. intros H. by_cases st ev. Qed.

Lemma run_failed err evs : forall st, failed err st -> failed err (run st evs).
Proof.
  induction evs as [|ev evs IH]; intros st H; [exact H|].
  rewrite run_cons. apply IH, step_failed, H.
Qed.

Lemma pending_error err st : pending st -> failed err (step st (Emit (Error err))).
Proof.
  intros H. destruct st as [er sr ec pr tm wc lg]. unfold pending, failed in *.
  cbn in H. destruct H as (-> & _ & _ & -> & _ & C & _). eval_handlers.
  rewrite !count_app, C. cbn. intuition.
Qed.

(** C4: an error that arrives while nothing has released the stream yet
    rejects the promise of [_initializeStream] with that very error, and
    [resolve(resultStream)] is never called, whatever happens afterwards. *)
Theorem initial_error_rejects (request : bool) (pre post : list Event)
    (err : FirestoreError) :
  streamReleased (run (_initializeStream request) pre) = false ->
  promise (run (_initializeStream request) (pre ++ Emit (Error err) :: post))
  = Some (Rejected err) /\
  count is_resolve
    (log (run (_initializeStream request) (pre ++ Emit (Error err) :: post))) = O.
Proof.
  intros H. rewrite stream_run_app, run_cons.
  pose proof (pending_error err _ (pending_reachable request pre H)) as F.
  apply (run_failed err post) in F. unfold failed in F. tauto.
Qed.

Lemma initial_error_rejects_witness :
  promise (run (_initializeStream true)
             ([TimerFired] ++ Emit (Error deadlineExceeded) :: [Emit Readable; WriteDone]))
  = Some (Rejected deadlineExceeded) /\
  count is_resolve
    (log (run (_initializeStream true)
            ([TimerFired] ++ Emit (Error deadlineExceeded) :: [Emit Readable; WriteDone])))
  = O.
Proof.
  apply (initial_error_rejects true [TimerFired] [Emit Readable; WriteDone]
           deadlineExceeded).
  reflexivity.
Defined.













Ltac by_cases_orderly st ev :=
  destruct st as [er sr ec pr tm wc lg];
  unfold orderly, released in *;
  destruct ev as [[| |e]| |]; eval_handlers; cases; subst;
  rewrite ?count_app in *; cbn [count] in *;
  try congruence; try lia; try (intuition (congruence || lia)).

Lemma step_orderly st ev : orderly st -> orderly (step st ev).
Proof. intros H. by_cases_orderly st ev. Qed.

Lemma run_orderly request evs : orderly (run (_initializeStream request) evs).
Proof.
  induction evs as [|ev evs IH] using rev_ind.
  - unfold orderly. destruct request; cbn; intuition.
  - rewrite stream_run_app. cbn [run fold_left]. apply step_orderly, IH.
Qed.










Lemma step_end_seen st ev : end_seen st -> end_seen (step st ev).
Proof. intros H. unfold end_seen in *. by_cases st ev. Qed.

Lemma run_end_seen request evs : end_seen (run (_initializeStream request) evs).
Proof.
  induction evs as [|ev evs IH] using rev_ind.
  - unfold end_seen. destruct request; cbn; discriminate.
  - rewrite stream_run_app. cbn [run fold_left]. apply step_end_seen, IH.
Qed.

(** [_initializeStream] emits 'end' itself at most once, only on a stream it
    has handed to the caller, and only when the transport has emitted 'end'
    before: at every point of every run, a forwarded 'end' in the log comes
    with an 'end' of the transport in the log. *)
Theorem end_forwarded_only_when_seen (request : bool) (evs : list Event) :
  (count is_forwarded_end (log (run (_initializeStream request) evs))
   <= count is_resolve (log (run (_initializeStream request) evs)))%nat /\
  (count is_resolve (log (run (_initializeStream request) evs)) <= 1)%nat /\
  (count is_forwarded_end (log (run (_initializeStream request) evs)) <> O ->
   endCalled (run (_initializeStream request) evs) = true /\
   promise (run (_initializeStream request) evs) = Some (Resolved tt) /\
   count is_transport_end (log (run (_initializeStream request) evs)) <> O) /\
  (count is_transport_end (log (run (_initializeStream request) evs)) = O ->
   endCalled (run (_initializeStream request) evs) = false /\
   count is_forwarded_end (log (run (_initializeStream request) evs)) = O).
Proof.
  pose proof (run_orderly request evs) as (_ & P & _ & T & E).
  pose proof (run_end_seen request evs) as S.
  unfold end_seen in S.
  destruct (promise (run (_initializeStream request) evs)) as [[[]|err]|];
    destruct P as [P1 P2];
    (split; [lia|]); (split; [lia|]); split.
  all: try (intros F; specialize (E F); split; [exact E|]; split;
            [reflexivity || lia | exact (S E)]).
  all: intros Z;
    destruct (endCalled (run (_initializeStream request) evs)) eqn:C;
    [now destruct (S eq_refl)|];
    split; [reflexivity|];
    destruct (count is_forwarded_end (log (run (_initializeStream request) evs)));
    [reflexivity|]; assert (false = true) by (apply E; discriminate); discriminate.
Qed.

(** [resolve] and [reject] are never both called and neither is called
    twice; the returned promise is settled exactly by the one call made; and
    the stream is paused exactly when it is handed to the caller. *)
Theorem promise_settled_by_one_call (request : bool) (evs : list Event) :
  (count is_resolve (log (run (_initializeStream request) evs))
   + count is_reject (log (run (_initializeStream request) evs)) <= 1)%nat /\
  (promise (run (_initializeStream request) evs) = None <->
   (count is_resolve (log (run (_initializeStream request) evs))
    + count is_reject (log (run (_initializeStream request) evs)) = 0)%nat) /\
  (promise (run (_initializeStream request) evs) = Some (Resolved tt) <->
   count is_resolve (log (run (_initializeStream request) evs)) = 1%nat) /\
  count is_pause (log (run (_initializeStream request) evs))
  = count is_resolve (log (run (_initializeStream request) evs)).
Proof.
  pose proof (run_orderly request evs) as (_ & P & Pa & _).
  destruct (promise (run (_initializeStream request) evs)) as [[[]|err]|];
    destruct P as [P1 P2]; rewrite P1, P2 in *; repeat split; auto;
    try discriminate; try lia; intros; try discriminate; try lia.
Qed.

Lemma step_released st ev : released st -> released (step st ev).
Proof. intros H. by_cases st ev. Qed.

Lemma run_released evs : forall st, released st -> released (run st evs).
Proof.
  induction evs as [|ev evs IH]; intros st H; [exact H|].
  rewrite run_cons. apply IH, step_released, H.
Qed.

(** A stream opened without a request ([readStream]) is released by events
    of the transport only: the completion of a write or a timer leaves it as
    it is. *)
Theorem read_stream_waits_for_transport (evs : list Event) :
  Forall (fun ev => ev = WriteDone \/ ev = TimerFired) evs ->
  run (_initializeStream false) evs = _initializeStream false.
Proof.
  induction evs as [|ev evs IH] using rev_ind; intros H; [reflexivity|].
  apply Forall_app in H. destruct H as [H1 H2].
  rewrite stream_run_app, (IH H1). inversion H2 as [|? ? [-> | ->] _]; reflexivity.
Qed.

Lemma read_stream_waits_for_transport_witness :
  run (_initializeStream false) [WriteDone; TimerFired; WriteDone]
  = _initializeStream false.
Proof.
  apply (read_stream_waits_for_transport [WriteDone; TimerFired; WriteDone]).
  constructor; [now left|]. constructor; [now right|].
  constructor; [now left|]. constructor.
Defined.

(** A stream opened with a request ([readWriteStream]) is released when the
    write of the request completes, without any event of the transport, and
    stays released. *)
Theorem write_completion_releases (pre post : list Event) :
  Forall (fun ev => ev = TimerFired) pre ->
  released (run (_initializeStream true) (pre ++ WriteDone :: post)) /\
  log (run (_initializeStream true) (pre ++ [WriteDone]))
  = [Written; Paused; ResolveCalled].
Proof.
  intros Hpre.
  assert (E : run (_initializeStream true) pre = _initializeStream true).
  { induction pre as [|ev pre IH] using rev_ind; [reflexivity|].
    apply Forall_app in Hpre. destruct Hpre as [H1 H2].
    rewrite stream_run_app, (IH H1). inversion H2 as [|? ? -> _]. reflexivity. }
  split.
  - rewrite stream_run_app, run_cons, E. apply run_released. split; reflexivity.
  - rewrite stream_run_app, E. reflexivity.
Qed.

Lemma write_completion_releases_witness :
  released (run (_initializeStream true)
              ([TimerFired] ++ WriteDone :: [Emit (Error deadlineExceeded)])) /\
  log (run (_initializeStream true) ([TimerFired] ++ [WriteDone]))
  = [Written; Paused; ResolveCalled].
Proof.
  apply (write_completion_releases [TimerFired] [Emit (Error deadlineExceeded)]).
  repeat constructor.
Defined.

(** Whether an 'end' that arrives after the release is forwarded depends on
    the timer set at the release: when the timer is still due it emits 'end'
    once more, so the released stream carries 'end' twice; when the timer
    has already run, only the transport's own 'end' is there. *)
Theorem end_after_release (st : State) :
  streamReleased st = true -> errorReceived st = None -> endCalled st = false ->
  (timers st = 1%nat ->
   log (run st [Emit End; TimerFired])
   = log st ++ [Emitted Transport End; Emitted Initializer End]) /\
  (timers st = O ->
   log (run st [Emit End; TimerFired]) = log st ++ [Emitted Transport End]).
Proof.
  intros Hr He Hc. destruct st as [er sr ec pr tm wc lg]. cbn in Hr, He, Hc. subst.
  split; intros Ht; cbn in Ht; subst; cbv -[app]; [rewrite <- app_assoc|]; reflexivity.
Qed.

Lemma end_after_release_witness :
  log (run (run (_initializeStream false) [Emit Readable]) [Emit End; TimerFired])
  = log (run (_initializeStream false) [Emit Readable])
    ++ [Emitted Transport End; Emitted Initializer End].
Proof.
  refine (proj1 (end_after_release (run (_initializeStream false) [Emit Readable])
                   _ _ _) _); reflexivity.
Defined.

End StreamInitProps.

(** ** The transaction coordinator *)

Module TransactionsProps.
Import Transactions.

Section Coordinator.

Context {R : Type}.
Variable isOptionalInteger : IntegerValidator.
Variable methods : TransactionMethods.
Variable updateFunction : Transaction -> CallbackResult R.

Abbreviation run fuel := (runTransaction fuel isOptionalInteger methods updateFunction).

Lemma cycle_commit_ok fuel opts calls v :
  accepted isOptionalInteger opts ->
  begin methods (mkTransaction (previous opts)) = Resolved tt ->
  updateFunction (mkTransaction (previous opts)) = ReturnedPromise (Resolved v) ->
  commit methods (mkTransaction (previous opts)) = Resolved tt ->
  run (S fuel) opts calls
  = Some (Returns (Resolved v), calls ++ cycle (mkTransaction (previous opts))).
Proof.
  intros Ha Hb Hu Hc. cbn [runTransaction].
  destruct opts as [o|]; cbn [accepted previous] in *.
  - rewrite Ha, Hb, Hu, Hc. unfold cycle. now rewrite <- !app_assoc.
  - rewrite Hb, Hu, Hc. unfold cycle. now rewrite <- !app_assoc.
Qed.

Lemma cycle_commit_last fuel opts calls v err :
  accepted isOptionalInteger opts ->
  begin methods (mkTransaction (previous opts)) = Resolved tt ->
  updateFunction (mkTransaction (previous opts)) = ReturnedPromise (Resolved v) ->
  commit methods (mkTransaction (previous opts)) = Rejected err ->
  budget opts - 1 <= 0 ->
  run (S fuel) opts calls
  = Some (Returns (Rejected err), calls ++ cycle (mkTransaction (previous opts))).
Proof.
  intros Ha Hb Hu Hc Hn. cbn [runTransaction].
  destruct opts as [o|]; cbn [accepted previous budget] in *.
  - rewrite Ha, Hb, Hu, Hc.
    destruct (attempts_or (maxAttempts o) 5 - 1 >? 0) eqn:E; [lia|].
    unfold cycle. now rewrite <- !app_assoc.
  - lia.
Qed.

Lemma cycle_commit_retry fuel opts calls v err :
  accepted isOptionalInteger opts ->
  begin methods (mkTransaction (previous opts)) = Resolved tt ->
  updateFunction (mkTransaction (previous opts)) = ReturnedPromise (Resolved v) ->
  commit methods (mkTransaction (previous opts)) = Rejected err ->
  0 < budget opts - 1 ->
  run (S fuel) opts calls
  = adopted (run fuel (retryOptions opts 1)
               (calls ++ cycle (mkTransaction (previous opts)))).
Proof.
  intros Ha Hb Hu Hc Hn. cbn [runTransaction retryOptions attempt Z.of_nat].
  change (Z.pos (Pos.of_succ_nat 0)) with 1.
  destruct opts as [o|]; cbn [accepted previous budget] in *.
  - rewrite Ha, Hb, Hu, Hc.
    destruct (attempts_or (maxAttempts o) 5 - 1 >? 0) eqn:E; [|lia].
    unfold cycle, adopted. now rewrite <- !app_assoc.
  - rewrite Hb, Hu, Hc. cbn. unfold cycle, adopted. now rewrite <- !app_assoc.
Qed.

Lemma cycle_callback_failed fuel opts calls err :
  accepted isOptionalInteger opts ->
  begin methods (mkTransaction (previous opts)) = Resolved tt ->
  updateFunction (mkTransaction (previous opts)) = ReturnedPromise (Rejected err) ->
  run (S fuel) opts calls
  = Some (Returns (Rejected
                     match rollback methods (mkTransaction (previous opts)) with
                     | Resolved _ => err
                     | Rejected rerr => rerr
                     end),
          calls ++ [Began (mkTransaction (previous opts));
                    Ran (mkTransaction (previous opts));
                    RolledBack (mkTransaction (previous opts))]).
Proof.
  intros Ha Hb Hu. cbn [runTransaction].
  destruct opts as [o|]; cbn [accepted previous] in *.
  - rewrite Ha, Hb, Hu. rewrite <- !app_assoc.
    now destruct (rollback methods (mkTransaction (previousTransaction o))).
  - rewrite Hb, Hu. rewrite <- !app_assoc.
    now destruct (rollback methods (mkTransaction None)).
Qed.

Lemma attempt_shift prev i :
  attempt (Some (mkTransaction prev)) i = attempt prev (S i).
Proof. induction i as [|i IH]; cbn; [reflexivity|]. now rewrite IH. Qed.

Lemma cycles_shift prev n : forall from,
  cycles (Some (mkTransaction prev)) from n = cycles prev (S from) n.
Proof.
  induction n as [|n IH]; intros from; cbn [cycles]; [reflexivity|].
  now rewrite attempt_shift, IH.
Qed.

Lemma adopted_returns (p : Settled R) calls :
  adopted (Some (Returns p, calls)) = Some (Returns p, calls).
Proof. reflexivity. Qed.

Lemma adopted_idem (r : option (Completion R * list Call)) :
  adopted (adopted r) = adopted r.
Proof. destruct r as [[[e|p] c]|]; reflexivity. Qed.

(** After [k] cycles whose commit failed with budget left, the call has made
    these [k] cycles and goes on as the recursive call for cycle [k]. *)
Lemma run_after_commit_failures k :
  forall fuel opts calls,
    accepted isOptionalInteger opts ->
    (forall m, 1 <= m -> isOptionalInteger (Some m) 1 = None) ->
    Z.of_nat k < budget opts ->
    (forall i, (i < k)%nat ->
       begin methods (attempt (previous opts) i) = Resolved tt /\
       (exists val, updateFunction (attempt (previous opts) i)
                    = ReturnedPromise (Resolved val)) /\
       exists err, commit methods (attempt (previous opts) i) = Rejected err) ->
    run (k + fuel) opts calls
    = match k with
      | O => run fuel opts calls
      | S _ => adopted (run fuel (retryOptions opts k)
                          (calls ++ cycles (previous opts) 0 k))
      end.
Proof.
  induction k as [|k IH]; intros fuel opts calls Ha Hv Hn Hi; [reflexivity|].
  destruct (Hi 0%nat) as (Hb & [val Hu] & err & Hc); [lia|].
  cbn [attempt] in Hb, Hu, Hc.
  change (S k + fuel)%nat with (S (k + fuel)).
  rewrite (cycle_commit_retry _ opts calls val err Ha Hb Hu Hc) by lia.
  set (opts1 := retryOptions opts 1).
  assert (B1 : budget opts1 = budget opts - 1).
  { subst opts1. cbn [retryOptions budget maxAttempts attempts_or].
    change (Z.of_nat 1) with 1.
    destruct (budget opts - 1 =? 0) eqn:E; [apply Z.eqb_eq in E; lia|reflexivity]. }
  assert (P1 : previous opts1 = Some (mkTransaction (previous opts))) by reflexivity.
  assert (A1 : accepted isOptionalInteger opts1).
  { subst opts1. cbn. apply Hv. lia. }
  rewrite (IH fuel opts1 (calls ++ cycle (mkTransaction (previous opts))) A1 Hv).
  - destruct k as [|k'].
    + cbn [cycles attempt]. now rewrite app_nil_r.
    + rewrite adopted_idem. f_equal. f_equal.
      * cbn [retryOptions]. rewrite B1, P1, attempt_shift. do 3 f_equal. lia.
      * rewrite P1, cycles_shift, <- app_assoc. reflexivity.
  - lia.
  - intros i Hlt. rewrite P1, attempt_shift. apply Hi. lia.
Qed.

Lemma cycles_snoc prev n : forall from,
  cycles prev from (S n) = cycles prev from n ++ cycle (attempt prev (from + n)).
Proof.
  induction n as [|n IH]; intros from.
  - cbn [cycles]. now rewrite Nat.add_0_r, app_nil_r.
  - change (cycles prev from (S (S n)))
      with (cycle (attempt prev from) ++ cycles prev (S from) (S n)).
    rewrite IH. cbn [cycles]. rewrite <- app_assoc.
    replace (from + S n)%nat with (S from + n)%nat by lia. reflexivity.
Qed.

Lemma retryOptions_facts opts k :
  Z.of_nat k < budget opts ->
  budget (retryOptions opts k) = budget opts - Z.of_nat k /\
  mkTransaction (previous (retryOptions opts k)) = attempt (previous opts) k /\
  ((forall m, 1 <= m -> isOptionalInteger (Some m) 1 = None) ->
   accepted isOptionalInteger opts ->
   accepted isOptionalInteger (retryOptions opts k)).
Proof.
  intros Hn. destruct k as [|k'].
  - cbn [retryOptions attempt]. rewrite Z.sub_0_r. auto.
  - cbn [retryOptions budget previous maxAttempts previousTransaction attempts_or attempt accepted].
    split; [|split].
    + destruct (budget opts - Z.of_nat (S k') =? 0) eqn:E;
        [apply Z.eqb_eq in E; lia|reflexivity].
    + reflexivity.
    + intros Hv _. apply Hv. lia.
Qed.

(** C2: when the commits of the first [k] cycles fail with budget left,
    [runTransaction] has run [k] begin/run/commit cycles, each on a new
    transaction that references the one before, and the budget is down by
    [k]. If then the commit of cycle [k] succeeds, the call resolves with the
    result of that cycle's [updateFunction] after [k + 1] cycles; if it fails
    and the budget is used up, the call rejects with that commit's error
    after [k + 1] cycles; if it fails with budget left, the call goes on with
    a further transaction. With the default budget of 5 and [k = 2] this is
    the commit that fails twice and then succeeds (3 cycles); with a budget
    of 2 and [k = 1] the commit that always fails (2 cycles). *)
Theorem transaction_retry_on_commit_failure (v : nat -> R) (k fuel : nat)
    (opts : option TransactionOptions) (calls : list Call) :
  accepted isOptionalInteger opts ->
  (forall m, 1 <= m -> isOptionalInteger (Some m) 1 = None) ->
  Z.of_nat k < budget opts ->
  (forall i, (i <= k)%nat ->
     begin methods (attempt (previous opts) i) = Resolved tt /\
     updateFunction (attempt (previous opts) i) = ReturnedPromise (Resolved (v i))) ->
  (forall i, (i < k)%nat ->
     exists err, commit methods (attempt (previous opts) i) = Rejected err) ->
  (commit methods (attempt (previous opts) k) = Resolved tt ->
     run (k + S fuel) opts calls
     = Some (Returns (Resolved (v k)), calls ++ cycles (previous opts) 0 (S k))) /\
  (forall err, commit methods (attempt (previous opts) k) = Rejected err ->
     (Z.of_nat (S k) = budget opts ->
        run (k + S fuel) opts calls
        = Some (Returns (Rejected err), calls ++ cycles (previous opts) 0 (S k))) /\
     (Z.of_nat (S k) < budget opts ->
        run (k + S fuel) opts calls
        = adopted (run fuel (retryOptions opts (S k))
                     (calls ++ cycles (previous opts) 0 (S k))))).
Proof.
  intros Ha Hv Hn Hbu Hc.
  assert (Hi : forall i, (i < k)%nat ->
            begin methods (attempt (previous opts) i) = Resolved tt /\
            (exists val, updateFunction (attempt (previous opts) i)
                         = ReturnedPromise (Resolved val)) /\
            exists err, commit methods (attempt (previous opts) i) = Rejected err).
  { intros i Hlt. destruct (Hbu i) as [Hb Hu]; [lia|]. eauto. }
  destruct (Hbu k) as [Hb Hu]; [lia|].
  destruct (retryOptions_facts opts k Hn) as (Bk & Pk & Ak).
  specialize (Ak Hv Ha). rewrite <- Pk in Hb, Hu.
  assert (Calls : (calls ++ cycles (previous opts) 0 k)
                  ++ cycle (mkTransaction (previous (retryOptions opts k)))
                  = calls ++ cycles (previous opts) 0 (S k)).
  { rewrite cycles_snoc, Pk, <- app_assoc. reflexivity. }
  assert (Unfold : forall r,
            run (S fuel) (retryOptions opts k)
              (match k with O => calls | S _ => calls ++ cycles (previous opts) 0 k end)
            = Some (Returns r, calls ++ cycles (previous opts) 0 (S k)) ->
            run (k + S fuel) opts calls
            = Some (Returns r, calls ++ cycles (previous opts) 0 (S k))).
  { intros r E.
    rewrite (run_after_commit_failures k (S fuel) opts calls Ha Hv Hn Hi).
    destruct k; [exact E|]. rewrite E. reflexivity. }
  assert (Calls' : (match k with O => calls | S _ => calls ++ cycles (previous opts) 0 k end)
                   ++ cycle (mkTransaction (previous (retryOptions opts k)))
                   = calls ++ cycles (previous opts) 0 (S k)).
  { rewrite <- Calls. destruct k; [|reflexivity]. cbn [cycles]. now rewrite app_nil_r. }
  split.
  - intros Hok. rewrite <- Pk in Hok. apply Unfold.
    rewrite (cycle_commit_ok fuel _ _ (v k) Ak Hb Hu Hok), Calls'. reflexivity.
  - intros err Herr. rewrite <- Pk in Herr. split.
    + intros Hlast. apply Unfold.
      rewrite (cycle_commit_last fuel _ _ (v k) err Ak Hb Hu Herr), Calls' by lia.
      reflexivity.
    + intros Hmore. replace (k + S fuel)%nat with (S k + fuel)%nat by lia.
      rewrite (run_after_commit_failures (S k) fuel opts calls Ha Hv Hmore).
      * reflexivity.
      * intros i Hlt. destruct (Nat.eq_dec i k) as [->|Hne].
        -- rewrite <- Pk. eauto.
        -- apply Hi. lia.
Qed.

(** When [updateFunction] returns a promise that fails, [runTransaction]
    calls [rollback] and nothing else (no commit, no further transaction,
    whatever the budget) and the call rejects; it rejects with the failure
    of [updateFunction] when the rollback succeeds. *)
Theorem callback_failure_rolls_back (fuel : nat)
    (opts : option TransactionOptions) (calls : list Call) (err : FirestoreError) :
  accepted isOptionalInteger opts ->
  begin methods (mkTransaction (previous opts)) = Resolved tt ->
  updateFunction (mkTransaction (previous opts)) = ReturnedPromise (Rejected err) ->
  exists outcome,
    run (S fuel) opts calls
    = Some (Returns (Rejected outcome),
            calls ++ [Began (mkTransaction (previous opts));
                      Ran (mkTransaction (previous opts));
                      RolledBack (mkTransaction (previous opts))]) /\
    (rollback methods (mkTransaction (previous opts)) = Resolved tt ->
     outcome = err).
Proof.
  intros Ha Hb Hu. eexists. split; [apply cycle_callback_failed; eassumption|].
  intros ->. reflexivity.
Qed.

Lemma began_app l1 l2 : began (l1 ++ l2) = (began l1 + began l2)%nat.
Proof.
  induction l1 as [|c l1 IH]; cbn; [reflexivity|]. destruct c; cbn; rewrite IH; lia.
Qed.

(** Nothing runs before [begin] has succeeded: options that fail the check
    make the call throw without any call to the backend, and a failing
    [begin] rejects the call with its error without [updateFunction] being
    called and without commit or rollback. *)
Theorem nothing_runs_before_begin (fuel : nat) (opts : option TransactionOptions)
    (calls : list Call) (err : FirestoreError) :
  (forall o, opts = Some o -> isOptionalInteger (maxAttempts o) 1 = Some err ->
     run (S fuel) opts calls = Some (Throws err, calls)) /\
  (accepted isOptionalInteger opts ->
   begin methods (mkTransaction (previous opts)) = Rejected err ->
   run (S fuel) opts calls
   = Some (Returns (Rejected err), calls ++ [Began (mkTransaction (previous opts))])).
Proof.
  split.
  - intros o -> Hv. cbn [runTransaction]. now rewrite Hv.
  - intros Ha Hb. cbn [runTransaction].
    destruct opts as [o|]; cbn [accepted previous] in *.
    + now rewrite Ha, Hb.
    + now rewrite Hb.
Qed.

(** An [updateFunction] that throws rejects the call with the thrown error
    and the transaction is not rolled back; one that returns something that
    is not a promise has its transaction rolled back, and the call then
    rejects with the error that asks for a promise when the rollback
    succeeds, and with the error of the rollback when the rollback fails.
    Neither is committed or retried. *)
Theorem callback_must_return_promise (fuel : nat)
    (opts : option TransactionOptions) (calls : list Call) :
  accepted isOptionalInteger opts ->
  begin methods (mkTransaction (previous opts)) = Resolved tt ->
  (forall err, updateFunction (mkTransaction (previous opts)) = Threw err ->
     run (S fuel) opts calls
     = Some (Returns (Rejected err),
             calls ++ [Began (mkTransaction (previous opts));
                       Ran (mkTransaction (previous opts))])) /\
  (updateFunction (mkTransaction (previous opts)) = ReturnedOther ->
   run (S fuel) opts calls
   = Some (Returns (Rejected
                      match rollback methods (mkTransaction (previous opts)) with
                      | Resolved _ => notAPromise
                      | Rejected rerr => rerr
                      end),
           calls ++ [Began (mkTransaction (previous opts));
                     Ran (mkTransaction (previous opts));
                     RolledBack (mkTransaction (previous opts))])).
Proof.
  intros Ha Hb. split.
  - intros err Hu. cbn [runTransaction].
    destruct opts as [o|]; cbn [accepted previous] in *;
      rewrite ?Ha, Hb, Hu, <- !app_assoc; reflexivity.
  - intros Hu. cbn [runTransaction].
    destruct opts as [o|]; cbn [accepted previous] in *;
      rewrite ?Ha, Hb, Hu, <- !app_assoc;
      match goal with
      | |- context [rollback methods ?t] => destruct (rollback methods t)
      end; reflexivity.
Qed.

(** One level of [runTransaction]: either the call ends after at most one
    begun transaction, or its commit failed with budget left and the call
    goes on with a budget that is one less. *)
Lemma run_one_level fuel opts calls :
  (exists c extra,
     run (S fuel) opts calls = Some (c, calls ++ extra) /\ (began extra <= 1)%nat /\
     (forall err, c = Throws err -> extra = [])) \/
  (exists opts1 t,
     run (S fuel) opts calls = adopted (run fuel opts1 (calls ++ cycle t)) /\
     budget opts1 = budget opts - 1 /\ 0 < budget opts - 1).
Proof.
  cbn [runTransaction].
  set (n := budget opts). set (prev := previous opts).
  assert (Shape :
    (exists err, match opts with
                 | Some o => isOptionalInteger (maxAttempts o) 1 = Some err
                 | None => False
                 end) \/ accepted isOptionalInteger opts).
  { destruct opts as [o|]; cbn; [|now right].
    destruct (isOptionalInteger (maxAttempts o) 1); eauto. }
  destruct Shape as [[err Herr]|Ha].
  - left. destruct opts as [o|]; [|contradiction]. rewrite Herr.
    exists (Throws err), []. rewrite app_nil_r. repeat split; auto.
  - assert (E : match opts with
                | Some o =>
                    match isOptionalInteger (maxAttempts o) 1 with
                    | Some err => inr err
                    | None => inl (attempts_or (maxAttempts o) 5, previousTransaction o)
                    end
                | None => inl (5, None)
                end = inl (n, prev)).
    { subst n prev. destruct opts as [o|]; cbn in *; [now rewrite Ha|reflexivity]. }
    rewrite E. clear E.
    destruct (begin methods (mkTransaction prev)) as [[]|berr].
    2:{ left. eexists _, _. split; [reflexivity|]. split; [cbn; lia|discriminate]. }
    destruct (updateFunction (mkTransaction prev)) as [[v|uerr]| |terr].
    + destruct (commit methods (mkTransaction prev)) as [[]|cerr].
      * left. eexists _, _. rewrite <- !app_assoc. split; [reflexivity|].
        split; [cbn; lia|discriminate].
      * destruct (n - 1 >? 0) eqn:Hn.
        -- right. eexists _, (mkTransaction prev). unfold cycle, adopted.
           rewrite <- !app_assoc. split; [reflexivity|].
           cbn [budget maxAttempts attempts_or].
           destruct (n - 1 =? 0) eqn:Hz; [apply Z.eqb_eq in Hz; lia|].
           split; [reflexivity|lia].
        -- left. eexists _, _. rewrite <- !app_assoc. split; [reflexivity|].
           split; [cbn; lia|discriminate].
    + left. destruct (rollback methods (mkTransaction prev)) as [[]|rerr];
        eexists _, _; rewrite <- !app_assoc; (split; [reflexivity|]);
        (split; [cbn; lia|discriminate]).
    + left. destruct (rollback methods (mkTransaction prev)) as [[]|rerr];
        eexists _, _; rewrite <- !app_assoc; (split; [reflexivity|]);
        (split; [cbn; lia|discriminate]).
    + left. eexists _, _. rewrite <- !app_assoc. split; [reflexivity|].
      split; [cbn; lia|discriminate].
Qed.

(** Whatever the backend and the callback do, [runTransaction] ends, and it
    begins at most as many transactions as the budget allows (and one when
    the budget is less than one). *)
Theorem transaction_attempts_bounded (fuel : nat) :
  forall (opts : option TransactionOptions) (calls : list Call),
    (1 <= fuel)%nat -> (Z.to_nat (budget opts) <= fuel)%nat ->
    exists c extra,
      run fuel opts calls = Some (c, calls ++ extra) /\
      (began extra <= Nat.max 1 (Z.to_nat (budget opts)))%nat.
Proof.
  induction fuel as [|fuel IH]; intros opts calls H1 Hb; [lia|].
  destruct (run_one_level fuel opts calls)
    as [(c & extra & E & B & _)|(opts1 & t & E & B1 & Hpos)].
  - exists c, extra. split; [exact E|lia].
  - destruct (IH opts1 (calls ++ cycle t)) as (c & extra & E1 & B); [lia|lia|].
    rewrite E, E1. exists (adopt c), (cycle t ++ extra). cbn [adopted].
    rewrite <- app_assoc. split; [reflexivity|].
    rewrite began_app. cbn [cycle began]. lia.
Qed.

(** A callback that fails on a retry ends the retries: after [k] failed
    commits, a failing promise from [updateFunction] on attempt [k] has that
    transaction rolled back and the call rejected, with the callback's
    failure when the rollback succeeds and with the error of the rollback
    when it fails; the transactions of the failed commits are not rolled
    back, and no further transaction is begun. *)
Theorem abort_after_retries (k fuel : nat) (opts : option TransactionOptions)
    (calls : list Call) (err : FirestoreError) :
  accepted isOptionalInteger opts ->
  (forall m, 1 <= m -> isOptionalInteger (Some m) 1 = None) ->
  Z.of_nat k < budget opts ->
  (forall i, (i < k)%nat ->
     begin methods (attempt (previous opts) i) = Resolved tt /\
     (exists val, updateFunction (attempt (previous opts) i)
                  = ReturnedPromise (Resolved val)) /\
     exists cerr, commit methods (attempt (previous opts) i) = Rejected cerr) ->
  begin methods (attempt (previous opts) k) = Resolved tt ->
  updateFunction (attempt (previous opts) k) = ReturnedPromise (Rejected err) ->
  run (k + S fuel) opts calls
  = Some (Returns (Rejected
                     match rollback methods (attempt (previous opts) k) with
                     | Resolved _ => err
                     | Rejected rerr => rerr
                     end),
          calls ++ cycles (previous opts) 0 k
            ++ [Began (attempt (previous opts) k); Ran (attempt (previous opts) k);
                RolledBack (attempt (previous opts) k)]).
Proof.
  intros Ha Hv Hn Hi Hb Hu.
  rewrite (run_after_commit_failures k (S fuel) opts calls Ha Hv Hn Hi).
  destruct (retryOptions_facts opts k Hn) as (_ & Pk & Ak).
  specialize (Ak Hv Ha). rewrite <- Pk in Hb, Hu.
  destruct k as [|k'].
  - cbn [retryOptions] in *.
    rewrite (cycle_callback_failed fuel opts calls err Ha Hb Hu), <- Pk.
    reflexivity.
  - rewrite (cycle_callback_failed fuel _ _ err Ak Hb Hu), Pk.
    cbn [adopted adopt]. now rewrite <- app_assoc.
Qed.

End Coordinator.

Lemma transaction_retry_on_commit_failure_witness :
  runTransaction 3 atLeast contended countAttempts None []
  = Some (Returns (Resolved 2%nat), [] ++ cycles None 0 3).
Proof.
  assert (Hv : forall m, 1 <= m -> atLeast (Some m) 1 = None).
  { intros m Hm. unfold atLeast. destruct (1 <=? m) eqn:E; [reflexivity|lia]. }
  assert (Hn : Z.of_nat 2 < budget None) by (cbn; lia).
  assert (Hbu : forall i, (i <= 2)%nat ->
            begin contended (attempt (previous None) i) = Resolved tt /\
            countAttempts (attempt (previous None) i)
            = ReturnedPromise (Resolved (id i))).
  { intros i Hi. destruct i as [|[|[|i]]]; [split; reflexivity ..|lia]. }
  assert (Hc : forall i, (i < 2)%nat ->
            exists err, commit contended (attempt (previous None) i) = Rejected err).
  { intros i Hi. exists aborted. destruct i as [|[|i]]; [reflexivity ..|lia]. }
  destruct (transaction_retry_on_commit_failure atLeast contended countAttempts
              id 2 0 None [] I Hv Hn Hbu Hc) as [Ok _].
  exact (Ok eq_refl).
Defined.

Lemma callback_failure_rolls_back_witness :
  exists outcome,
    runTransaction 1 atLeast contended failingCallback None []
    = Some (Returns (Rejected outcome),
            [] ++ [Began (mkTransaction None); Ran (mkTransaction None);
                   RolledBack (mkTransaction None)]) /\
    (rollback contended (mkTransaction None) = Resolved tt -> outcome = callbackError).
Proof.
  apply (callback_failure_rolls_back atLeast contended failingCallback 0 None []
           callbackError I eq_refl eq_refl).
Defined.

Lemma transaction_attempts_bounded_witness :
  exists c extra,
    runTransaction 5 atLeast alwaysContended countAttempts None [] = Some (c, [] ++ extra) /\
    (began extra <= Nat.max 1 (Z.to_nat (budget None)))%nat.
Proof.
  apply (transaction_attempts_bounded atLeast alwaysContended countAttempts 5 None []);
    [lia | reflexivity].
Defined.

Lemma nothing_runs_before_begin_witness :
  runTransaction 1 atLeast unreachable countAttempts None []
  = Some (Returns (Rejected aborted), [] ++ [Began (mkTransaction (previous None))]).
Proof.
  refine (proj2 (nothing_runs_before_begin atLeast unreachable countAttempts 0 None []
                   aborted) _ _); [exact I | reflexivity].
Defined.

Lemma callback_must_return_promise_witness :
  runTransaction 1 atLeast brokenRollback forgetfulCallback None []
  = Some (Returns (Rejected
                     match rollback brokenRollback (mkTransaction (previous None)) with
                     | Resolved _ => notAPromise
                     | Rejected rerr => rerr
                     end),
          [] ++ [Began (mkTransaction (previous None));
                 Ran (mkTransaction (previous None));
                 RolledBack (mkTransaction (previous None))]).
Proof.
  refine (proj2 (callback_must_return_promise atLeast brokenRollback forgetfulCallback 0
                   None [] _ _) _); [exact I | reflexivity | reflexivity].
Defined.

Lemma abort_after_retries_witness :
  runTransaction 2 atLeast contended secondThoughts None []
  = Some (Returns (Rejected
                     match rollback contended (attempt (previous None) 1) with
                     | Resolved _ => callbackError
                     | Rejected rerr => rerr
                     end),
          [] ++ cycles (previous None) 0 1
            ++ [Began (attempt (previous None) 1); Ran (attempt (previous None) 1);
                RolledBack (attempt (previous None) 1)]).
Proof.
  assert (Hv : forall m, 1 <= m -> atLeast (Some m) 1 = None).
  { intros m Hm. unfold atLeast. destruct (1 <=? m) eqn:E; [reflexivity|lia]. }
  assert (Hn : Z.of_nat 1 < budget None) by (cbn; lia).
  apply (abort_after_retries atLeast contended secondThoughts 1 0 None []
           callbackError I Hv Hn); try reflexivity.
  intros i Hi. destruct i as [|i]; [|lia].
  split; [reflexivity|]. split; [now exists 0%nat|now exists aborted].
Defined.

(** C6: the code at the input where the claim and the documentation of
    [runTransaction] ("the Promise returned by the updateFunction will be
    returned here", "return the failed result") are not met. The callback's
    promise fails with [callbackError] and the rollback fails with
    [rollbackError]: the transaction is rolled back and neither committed
    nor retried, but the call rejects with the rollback's error, and the
    failure of [updateFunction] is lost. With a rollback that succeeds the
    same callback has its own failure returned. *)
Lemma rollback_failure_surfaces :
  failingCallback (mkTransaction None) = ReturnedPromise (Rejected callbackError) /\
  rollback brokenRollback (mkTransaction None) = Rejected rollbackError /\
  runTransaction 1 atLeast brokenRollback failingCallback None []
  = Some (Returns (Rejected rollbackError),
          [Began (mkTransaction None); Ran (mkTransaction None);
           RolledBack (mkTransaction None)]) /\
  rollbackError <> callbackError /\
  runTransaction 1 atLeast contended failingCallback None []
  = Some (Returns (Rejected callbackError),
          [Began (mkTransaction None); Ran (mkTransaction None);
           RolledBack (mkTransaction None)]).
Proof. repeat split. discriminate. Qed.

(** A commit that fails twice and then succeeds under the default budget,
    and a commit that always fails under a budget of 2. *)
Example commit_fails_twice_budget_5 :
  runTransaction 5 atLeast contended countAttempts None []
  = Some (Returns (Resolved 2%nat), cycles None 0 3).
Proof. reflexivity. Qed.

Example commit_always_fails_budget_2 :
  runTransaction 5 atLeast alwaysContended countAttempts
    (Some {| maxAttempts := Some 2; previousTransaction := None |}) []
  = Some (Returns (Rejected aborted), cycles None 0 2).
Proof. reflexivity. Qed.

End TransactionsProps.

(** ** The batch reader *)

Module BatchGetProps.
Import BatchGet.

Lemma set_add_NoDup s x : NoDup s -> NoDup (set_add s x).
Proof.
  intros H. unfold set_add. case_bool_decide; [exact H|].
  apply NoDup_app. split; [exact H|]. split.
  - intros y Hy Hin. apply list_elem_of_singleton in Hin. now subst.
  - apply NoDup_singleton.
Qed.

Lemma set_add_elem s x y : y ∈ set_add s x <-> y ∈ s \/ y = x.
Proof.
  unfold set_add. case_bool_decide.
  - split; [auto|]. intros [?| ->]; assumption.
  - rewrite elem_of_app, list_elem_of_singleton. reflexivity.
Qed.

Lemma requested_NoDup l : forall s, NoDup s -> NoDup (fold_left set_add l s).
Proof.
  induction l as [|x l IH]; intros s H; cbn; [exact H|].
  apply IH, set_add_NoDup, H.
Qed.

Lemma requested_elem l y : forall s, y ∈ fold_left set_add l s <-> y ∈ s \/ y ∈ l.
Proof.
  induction l as [|x l IH]; intros s; cbn.
  - rewrite elem_of_nil. tauto.
  - rewrite IH, set_add_elem, elem_of_cons. tauto.
Qed.

Section Reader.

Variable documentAt : string -> FirestoreError + DocumentReference.
Variable docRefs : list DocumentReference.

Abbreviation run := (BatchGet.run documentAt docRefs).
Abbreviation step := (BatchGet.step documentAt docRefs).

Lemma reader_run_app st evs1 evs2 : run st (evs1 ++ evs2) = run (run st evs1) evs2.
Proof. apply fold_left_app. Qed.

Lemma settle_settled r st p : promise st = Some p -> promise (settle r st) = Some p.
Proof. intros H. unfold settle. cbn. now rewrite H. Qed.

Lemma check_received_settled m l : forall st p,
  promise st = Some p -> promise (check_received m l st) = Some p.
Proof.
  induction l as [|r l IH]; intros st p H; cbn; [exact H|].
  apply IH. destruct (m !! path r); [exact H|]. now apply settle_settled.
Qed.

Lemma check_received_complete m l st :
  (forall r, r ∈ l -> is_Some (m !! path r)) -> check_received m l st = st.
Proof.
  revert st. induction l as [|r l IH]; intros st H; cbn; [reflexivity|].
  destruct (H r) as [d Hd]; [left|]. rewrite Hd. apply IH.
  intros r' Hr'. apply H. now right.
Qed.

Lemma check_received_incomplete m l : forall st,
  promise st = None ->
  (exists r, r ∈ l /\ m !! path r = None) ->
  exists r, r ∈ l /\ m !! path r = None /\
            promise (check_received m l st) = Some (Rejected (didNotReceive r)).
Proof.
  induction l as [|r l IH]; intros st Hp [r0 [Hin Hnone]].
  - now apply elem_of_nil in Hin.
  - cbn. destruct (m !! path r) as [d|] eqn:E.
    + apply elem_of_cons in Hin. destruct Hin as [->|Hin]; [congruence|].
      destruct (IH st Hp) as (r1 & H1 & H2 & H3); [eauto|].
      exists r1. split; [now right|]. auto.
    + exists r. split; [left|]. split; [exact E|].
      apply check_received_settled. unfold reject, settle. cbn. now rewrite Hp.
Qed.

Lemma step_settled st ev p : promise st = Some p -> promise (step st ev) = Some p.
Proof.
  intros H. destruct ev as [response|err|]; cbn.
  - unfold on_data. destruct (found response);
      destruct (snapshot_ _ _ _); cbn; rewrite ?H; reflexivity.
  - now apply settle_settled.
  - unfold on_end, resolve. apply settle_settled.
    now apply check_received_settled.
Qed.

Lemma run_settled evs : forall st p,
  promise st = Some p -> promise (run st evs) = Some p.
Proof.
  induction evs as [|ev evs IH]; intros st p H; [exact H|].
  cbn. apply IH, step_settled, H.
Qed.

(** Responses whose snapshot can be built only fill the map. *)
Lemma run_data responses : forall st,
  Forall (fun r => key_of documentAt r <> None) responses ->
  run st (map Data responses)
  = {| retrievedDocuments := fold_left (file documentAt) responses (retrievedDocuments st);
       promise := promise st |}.
Proof.
  induction responses as [|r l IH]; intros st H.
  - now destruct st.
  - inversion H as [|? ? Hr Hl]; subst. cbn [map fold_left]. unfold run in *.
    cbn [fold_left]. rewrite IH by assumption. cbn [BatchGet.step].
    unfold on_data, file, snapshot_of, key_of in *.
    destruct (match found r with Some _ => _ | None => _ end); [congruence|].
    reflexivity.
Qed.

(** Every document is filed under the path of its own reference. *)
Lemma file_keys responses : forall m,
  (forall k d, m !! k = Some d -> path (ref d) = k) ->
  forall k d, fold_left (file documentAt) responses m !! k = Some d ->
              path (ref d) = k.
Proof.
  induction responses as [|r l IH]; intros m Hm k d; cbn; [apply Hm|].
  apply IH. intros k' d'. unfold file. destruct (snapshot_of documentAt r) as [e|doc].
  - apply Hm.
  - rewrite lookup_insert. case_decide.
    + intros [= <-]. assumption.
    + apply Hm.
Qed.

Lemma file_commute m r1 r2 :
  key_of documentAt r1 <> key_of documentAt r2 ->
  file documentAt (file documentAt m r1) r2 = file documentAt (file documentAt m r2) r1.
Proof.
  unfold file, key_of, snapshot_of. intros H.
  destruct (match found r1 with Some _ => _ | None => _ end) as [e1|d1];
    destruct (match found r2 with Some _ => _ | None => _ end) as [e2|d2];
    try reflexivity.
  apply insert_insert_ne. congruence.
Qed.

(** The order in which the backend answers does not matter. *)
Lemma received_permutation rs1 rs2 :
  Permutation rs1 rs2 ->
  NoDup (omap (key_of documentAt) rs1) ->
  Forall (fun r => key_of documentAt r <> None) rs1 ->
  forall m, fold_left (file documentAt) rs1 m = fold_left (file documentAt) rs2 m.
Proof.
  induction 1 as [|x l l' HP IH|x y l|l l' l'' HP1 IH1 HP2 IH2]; intros Hnd Hok m.
  - reflexivity.
  - cbn. apply IH.
    + cbn in Hnd. destruct (key_of documentAt x); [now inversion Hnd|exact Hnd].
    + now inversion Hok.
  - cbn. f_equal. apply file_commute.
    inversion Hok as [|? ? Hy Hl]; subst. inversion Hl as [|? ? Hx Hl']; subst.
    cbn in Hnd. destruct (key_of documentAt y) as [ky|]; [|congruence].
    destruct (key_of documentAt x) as [kx|]; [|congruence].
    cbn in Hnd. inversion Hnd as [|? ? Hnotin _]; subst.
    intros [= ->]. apply Hnotin. left.
  - rewrite IH1 by assumption. apply IH2.
    + now rewrite <- HP1.
    + now rewrite <- HP1.
Qed.

Lemma on_end_settles st : exists p, promise (on_end docRefs st) = Some p.
Proof.
  unfold on_end, resolve, settle. cbn.
  destruct (promise (check_received _ _ _)); eauto.
Qed.

Lemma end_of_stream responses rest :
  Forall (fun r => key_of documentAt r <> None) responses ->
  promise (run (initial) (map Data responses ++ StreamEnd :: rest))
  = promise (on_end docRefs {| retrievedDocuments := received documentAt responses;
                               promise := None |}).
Proof.
  intros Hok. rewrite reader_run_app, (run_data responses initial Hok).
  cbn [BatchGet.run fold_left BatchGet.step initial retrievedDocuments promise].
  fold (received documentAt responses).
  destruct (on_end_settles {| retrievedDocuments := received documentAt responses;
                              promise := None |}) as [p Hp].
  rewrite Hp. apply (run_settled rest), Hp.
Qed.

Lemma received_keys responses k d :
  received documentAt responses !! k = Some d -> path (ref d) = k.
Proof.
  apply file_keys. intros k' d'. rewrite lookup_empty. discriminate.
Qed.

Lemma ordered_documents (m : gmap string DocumentSnapshot) (l : list DocumentReference) :
  (forall k d, m !! k = Some d -> path (ref d) = k) ->
  (forall r, r ∈ l -> is_Some (m !! path r)) ->
  exists docs,
    map (fun r => m !! path r) l = map Some docs /\
    map (fun d => path (ref d)) docs = map path l.
Proof.
  intros Hk. induction l as [|r l IH]; intros H.
  - exists []. split; reflexivity.
  - destruct IH as (docs & E1 & E2); [intros r' Hr'; apply H; now right|].
    destruct (H r) as [d Hd]; [left|].
    exists (d :: docs). cbn. rewrite Hd, E1, E2, (Hk _ _ Hd). split; reflexivity.
Qed.

(** C3: [getAll_] asks [readStream] for the formatted names of the
    references, each once; when the stream has delivered its documents and
    ends, the promise resolves with one snapshot per requested reference, in
    the order of the request, whatever the order of the responses was; when
    the document of some requested reference has not arrived at the end of
    the stream, the promise rejects (and so never resolves with a list). *)
Theorem batch_get_restores_request_order (formattedDatabase : string)
    (transactionId : option string)
    (readStream : BatchGetRequest -> Settled (list StreamEvent))
    (responses : list Response) (rest : list StreamEvent) :
  Forall (fun r => key_of documentAt r <> None) responses ->
  readStream (batchGetRequest formattedDatabase docRefs transactionId)
  = Resolved (map Data responses ++ StreamEnd :: rest) ->
  (NoDup (documents (batchGetRequest formattedDatabase docRefs transactionId)) /\
   forall x, x ∈ documents (batchGetRequest formattedDatabase docRefs transactionId)
             <-> x ∈ map formattedName docRefs) /\
  ((forall r, r ∈ docRefs -> is_Some (received documentAt responses !! path r)) ->
   exists docs,
     getAll_ documentAt formattedDatabase readStream docRefs transactionId
     = Some (Resolved (map Some docs)) /\
     map (fun d => path (ref d)) docs = map path docRefs /\
     map Some docs = map (fun r => received documentAt responses !! path r) docRefs) /\
  ((exists r, r ∈ docRefs /\ received documentAt responses !! path r = None) ->
   exists r, r ∈ docRefs /\
     getAll_ documentAt formattedDatabase readStream docRefs transactionId
     = Some (Rejected (didNotReceive r))) /\
  (forall readStream' responses' rest',
     Permutation responses responses' ->
     NoDup (omap (key_of documentAt) responses) ->
     readStream' (batchGetRequest formattedDatabase docRefs transactionId)
     = Resolved (map Data responses' ++ StreamEnd :: rest') ->
     getAll_ documentAt formattedDatabase readStream' docRefs transactionId
     = getAll_ documentAt formattedDatabase readStream docRefs transactionId).
Proof.
  intros Hok Hstream.
  assert (Hget : getAll_ documentAt formattedDatabase readStream docRefs transactionId
                 = promise (on_end docRefs
                              {| retrievedDocuments := received documentAt responses;
                                 promise := None |})).
  { unfold getAll_. rewrite Hstream. apply (end_of_stream responses rest Hok). }
  split; [|split; [|split]].
  - cbn [documents batchGetRequest]. split.
    + apply requested_NoDup, NoDup_nil_2.
    + intros x. rewrite requested_elem, elem_of_nil. tauto.
  - intros Hall.
    destruct (ordered_documents (received documentAt responses) docRefs
                (received_keys responses) Hall) as (docs & E1 & E2).
    exists docs. split; [|split; [exact E2|now symmetry]].
    rewrite Hget. unfold on_end. cbn [retrievedDocuments].
    rewrite (check_received_complete _ _ _ Hall), E1. reflexivity.
  - intros Hmiss.
    destruct (check_received_incomplete (received documentAt responses) docRefs
                {| retrievedDocuments := received documentAt responses;
                   promise := None |} eq_refl Hmiss) as (r & Hin & _ & Hr).
    exists r. split; [exact Hin|]. rewrite Hget. unfold on_end, resolve.
    cbn [retrievedDocuments]. now apply settle_settled.
  - intros readStream' responses' rest' HP Hnd Hstream'.
    rewrite Hget. unfold getAll_. rewrite Hstream'.
    rewrite (end_of_stream responses' rest') by now rewrite <- HP.
    unfold received. now rewrite (received_permutation responses responses' HP Hnd Hok).
Qed.

(** [getAll_] does not answer before the stream ends: as long as only
    documents arrive, the returned promise stays pending, even when every
    requested document is there. *)
Theorem no_result_before_end (formattedDatabase : string)
    (transactionId : option string)
    (readStream : BatchGetRequest -> Settled (list StreamEvent))
    (responses : list Response) :
  Forall (fun r => key_of documentAt r <> None) responses ->
  readStream (batchGetRequest formattedDatabase docRefs transactionId)
  = Resolved (map Data responses) ->
  getAll_ documentAt formattedDatabase readStream docRefs transactionId = None.
Proof.
  intros Hok Hstream. unfold getAll_. rewrite Hstream.
  now rewrite (run_data responses initial Hok).
Qed.

(** The first failure decides: an 'error' of the stream, or a response whose
    snapshot cannot be built, rejects the promise with that error, whatever
    arrived before and whatever follows, the end of the stream included. *)
Theorem stream_failure_rejects (formattedDatabase : string)
    (transactionId : option string)
    (readStream : BatchGetRequest -> Settled (list StreamEvent))
    (responses : list Response) (rest : list StreamEvent) (err : FirestoreError) :
  Forall (fun r => key_of documentAt r <> None) responses ->
  (readStream (batchGetRequest formattedDatabase docRefs transactionId)
   = Resolved (map Data responses ++ StreamError err :: rest) ->
   getAll_ documentAt formattedDatabase readStream docRefs transactionId
   = Some (Rejected err)) /\
  (forall bad,
     snapshot_of documentAt bad = inl err ->
     readStream (batchGetRequest formattedDatabase docRefs transactionId)
     = Resolved (map Data responses ++ Data bad :: rest) ->
     getAll_ documentAt formattedDatabase readStream docRefs transactionId
     = Some (Rejected err)).
Proof.
  intros Hok. split.
  - intros Hstream. unfold getAll_. rewrite Hstream, reader_run_app.
    rewrite (run_data responses initial Hok).
    apply (run_settled rest). reflexivity.
  - intros bad Hbad Hstream. unfold getAll_. rewrite Hstream, reader_run_app.
    rewrite (run_data responses initial Hok).
    apply (run_settled rest). cbn [BatchGet.step]. unfold on_data.
    unfold snapshot_of in Hbad. rewrite Hbad. reflexivity.
Qed.

Lemma key_of_snapshot r k :
  key_of documentAt r = Some k <->
  exists d, snapshot_of documentAt r = inr d /\ path (ref d) = k.
Proof.
  unfold key_of, snapshot_of.
  destruct (match found r with Some _ => _ | None => _ end) as [e|d].
  - split; [discriminate|]. intros (d & Hd & _). discriminate.
  - split.
    + intros [= <-]. now exists d.
    + intros (d' & [= <-] & <-). reflexivity.
Qed.

Lemma file_present k responses : forall m : gmap string DocumentSnapshot,
  is_Some (m !! k) \/ (exists q, q ∈ responses /\ key_of documentAt q = Some k) ->
  is_Some (fold_left (file documentAt) responses m !! k).
Proof.
  induction responses as [|q l IH]; intros m H; cbn [fold_left].
  - destruct H as [H|(q & Hq & _)]; [exact H|]. now apply elem_of_nil in Hq.
  - apply IH. destruct H as [H|(q' & Hq' & Hk)].
    + left. unfold file. destruct (snapshot_of documentAt q) as [e|d]; [exact H|].
      rewrite lookup_insert. case_decide; [eauto|exact H].
    + apply elem_of_cons in Hq'. destruct Hq' as [->|Hq']; [|right; eauto].
      left. apply key_of_snapshot in Hk. destruct Hk as (d & Hd & <-).
      unfold file. rewrite Hd, lookup_insert_eq. eauto.
Qed.

(** When the backend sends several results for one document, the ['data']
    handler keeps the last one and leaves the results for other documents
    alone; so a call whose stream ends after a last response for a document
    answers with the snapshot of that response at every position at which
    the document was requested. *)
Theorem last_response_wins (formattedDatabase : string)
    (transactionId : option string)
    (readStream : BatchGetRequest -> Settled (list StreamEvent))
    (responses : list Response) (r : Response) (rest : list StreamEvent)
    (document : DocumentSnapshot) :
  Forall (fun q => key_of documentAt q <> None) responses ->
  snapshot_of documentAt r = inr document ->
  (forall st evs,
     retrievedDocuments (run st (evs ++ [Data r])) !! path (ref document)
     = Some document /\
     forall k, k <> path (ref document) ->
       retrievedDocuments (run st (evs ++ [Data r])) !! k
       = retrievedDocuments (run st evs) !! k) /\
  (readStream (batchGetRequest formattedDatabase docRefs transactionId)
   = Resolved (map Data (responses ++ [r]) ++ StreamEnd :: rest) ->
   (forall d, d ∈ docRefs ->
      path d = path (ref document) \/
      exists q, q ∈ responses /\ key_of documentAt q = Some (path d)) ->
   exists docs,
     getAll_ documentAt formattedDatabase readStream docRefs transactionId
     = Some (Resolved docs) /\
     length docs = length docRefs /\
     forall i d, docRefs !! i = Some d -> path d = path (ref document) ->
                 docs !! i = Some (Some document)).
Proof.
  intros Hok Hr. split.
  - intros st evs. rewrite reader_run_app.
    cbn [BatchGet.run fold_left BatchGet.step]. unfold on_data.
    unfold snapshot_of in Hr. rewrite Hr. cbn [retrievedDocuments]. split.
    + apply lookup_insert_eq.
    + intros k Hk. now apply lookup_insert_ne.
  - intros Hstream Hall.
    assert (Hk : key_of documentAt r = Some (path (ref document)))
      by (apply key_of_snapshot; eauto).
    assert (Hok' : Forall (fun q => key_of documentAt q <> None) (responses ++ [r])).
    { apply Forall_app. split; [exact Hok|]. constructor; [congruence|constructor]. }
    assert (Hm : received documentAt (responses ++ [r])
                 = <[path (ref document) := document]> (received documentAt responses)).
    { unfold received. rewrite fold_left_app. cbn [fold_left]. unfold file at 1.
      now rewrite Hr. }
    assert (Hall' : forall d, d ∈ docRefs ->
              is_Some (received documentAt (responses ++ [r]) !! path d)).
    { intros d Hd. rewrite Hm. destruct (Hall d Hd) as [->|Hq].
      - rewrite lookup_insert_eq. eauto.
      - rewrite lookup_insert. case_decide; [eauto|].
        apply file_present. now right. }
    exists (map (fun d => received documentAt (responses ++ [r]) !! path d) docRefs).
    split; [|split].
    + unfold getAll_. rewrite Hstream, (end_of_stream (responses ++ [r]) rest Hok').
      unfold on_end. cbn [retrievedDocuments].
      now rewrite (check_received_complete _ _ _ Hall').
    + apply length_map.
    + intros i d Hi Hp.
      change (map (fun d0 => received documentAt (responses ++ [r]) !! path d0) docRefs)
        with ((fun d0 => received documentAt (responses ++ [r]) !! path d0) <$> docRefs).
      rewrite list_lookup_fmap, Hi. cbn. rewrite Hp, Hm.
      now rewrite lookup_insert_eq.
Qed.

Lemma file_agree k responses : forall m m' : gmap string DocumentSnapshot,
  (forall k', k' <> k -> m !! k' = m' !! k') ->
  forall k', k' <> k ->
    fold_left (file documentAt) responses m !! k'
    = fold_left (file documentAt) responses m' !! k'.
Proof.
  induction responses as [|r l IH]; intros m m' H; cbn [fold_left]; [exact H|].
  apply IH. intros k' Hk'. unfold file.
  destruct (snapshot_of documentAt r) as [e|d]; [now apply H|].
  rewrite !lookup_insert. case_decide; [reflexivity|now apply H].
Qed.

Lemma check_received_agree (m m' : gmap string DocumentSnapshot) l :
  (forall r, r ∈ l -> m !! path r = m' !! path r) ->
  forall st st', promise st = promise st' ->
    promise (check_received m l st) = promise (check_received m' l st').
Proof.
  induction l as [|r l IH]; intros H st st' Hp; cbn; [exact Hp|].
  rewrite <- (H r) by left.
  apply IH; [intros r' Hr'; apply H; now right|].
  destruct (m !! path r); [exact Hp|]. unfold reject, settle. cbn. now rewrite Hp.
Qed.

Lemma on_end_agree (m m' : gmap string DocumentSnapshot) :
  (forall r, r ∈ docRefs -> m !! path r = m' !! path r) ->
  promise (on_end docRefs {| retrievedDocuments := m; promise := None |})
  = promise (on_end docRefs {| retrievedDocuments := m'; promise := None |}).
Proof.
  intros H. unfold on_end, resolve, settle. cbn [retrievedDocuments promise].
  rewrite (check_received_agree m m' docRefs H
             {| retrievedDocuments := m; promise := None |}
             {| retrievedDocuments := m'; promise := None |} eq_refl).
  replace (map (fun docRef => m !! path docRef) docRefs)
    with (map (fun docRef => m' !! path docRef) docRefs); [reflexivity|].
  apply map_ext_in. intros r Hr. symmetry. apply H. now apply list_elem_of_In.
Qed.

(** A result for a document that was not asked for changes nothing: the
    promise settles as it does without that response. *)
Theorem unrequested_result_ignored (formattedDatabase : string)
    (transactionId : option string) (before after : list Response)
    (r : Response) (k : string) :
  Forall (fun r => key_of documentAt r <> None) (before ++ r :: after) ->
  key_of documentAt r = Some k ->
  k ∉ map path docRefs ->
  getAll_ documentAt formattedDatabase
    (fun _ => Resolved (map Data (before ++ r :: after) ++ [StreamEnd]))
    docRefs transactionId
  = getAll_ documentAt formattedDatabase
      (fun _ => Resolved (map Data (before ++ after) ++ [StreamEnd]))
      docRefs transactionId.
Proof.
  intros Hok Hk Hnot. unfold getAll_.
  assert (Hok' : Forall (fun r => key_of documentAt r <> None) (before ++ after)).
  { apply Forall_app in Hok. destruct Hok as [H1 H2]. inversion H2; subst.
    apply Forall_app. now split. }
  rewrite (end_of_stream _ [] Hok), (end_of_stream _ [] Hok').
  apply on_end_agree. intros d Hd.
  assert (Hne : path d <> k).
  { intros <-. apply Hnot. apply list_elem_of_fmap. now exists d. }
  unfold received. rewrite !fold_left_app. cbn [fold_left].
  apply (file_agree k); [|exact Hne].
  intros k' Hk'. unfold file at 1. unfold key_of, snapshot_of in *.
  destruct (match found r with Some _ => _ | None => _ end) as [e|doc];
    [reflexivity|].
  injection Hk as <-. now apply lookup_insert_ne.
Qed.

End Reader.

Lemma batch_get_restores_request_order_witness :
  exists docs,
    getAll_ byName "db" (fun _ => Resolved (map Data [foundA; missingB] ++ StreamEnd :: []))
      [docB; docA] None
    = Some (Resolved (map Some docs)) /\
    map (fun d => path (ref d)) docs = map path [docB; docA] /\
    map Some docs
    = map (fun r => received byName [foundA; missingB] !! path r) [docB; docA].
Proof.
  assert (Hok : Forall (fun r => key_of byName r <> None) [foundA; missingB]).
  { repeat constructor; discriminate. }
  destruct (batch_get_restores_request_order byName [docB; docA] "db" None
              (fun _ => Resolved (map Data [foundA; missingB] ++ StreamEnd :: []))
              [foundA; missingB] [] Hok eq_refl) as (_ & Hall & _).
  apply Hall. intros r Hr.
  apply elem_of_cons in Hr. destruct Hr as [->|Hr]; [now eexists|].
  apply elem_of_cons in Hr. destruct Hr as [->|Hr]; [now eexists|].
  now apply elem_of_nil in Hr.
Defined.

Lemma no_result_before_end_witness :
  getAll_ byName "db" (fun _ => Resolved (map Data [foundA; missingB])) [docB; docA] None
  = None.
Proof.
  apply (no_result_before_end byName [docB; docA] "db" None _ [foundA; missingB]);
    [repeat constructor; discriminate | reflexivity].
Defined.

Lemma stream_failure_rejects_witness :
  getAll_ byName "db"
    (fun _ => Resolved (map Data [foundA] ++ Data unknownName :: [Data missingB; StreamEnd]))
    [docB; docA] None
  = Some (Rejected (mkError JsUndefined "invalid resource name")).
Proof.
  assert (Hok : Forall (fun r => key_of byName r <> None) [foundA]).
  { repeat constructor; discriminate. }
  refine (proj2 (stream_failure_rejects byName [docB; docA] "db" None
                   (fun _ => Resolved (map Data [foundA] ++ Data unknownName
                                         :: [Data missingB; StreamEnd]))
                   [foundA] [Data missingB; StreamEnd] _ Hok) unknownName _ _);
    reflexivity.
Defined.

Lemma last_response_wins_witness :
  exists docs,
    getAll_ byName "db"
      (fun _ => Resolved (map Data ([foundA; missingB] ++ [goneA]) ++ StreamEnd :: []))
      [docA; docB] None
    = Some (Resolved docs) /\
    length docs = length [docA; docB] /\
    forall i d, [docA; docB] !! i = Some d ->
                path d = path (ref (mkSnapshot docA None None None (Some 4))) ->
                docs !! i = Some (Some (mkSnapshot docA None None None (Some 4))).
Proof.
  refine (proj2 (last_response_wins byName [docA; docB] "db" None
                   (fun _ => Resolved (map Data ([foundA; missingB] ++ [goneA])
                                         ++ StreamEnd :: []))
                   [foundA; missingB] goneA []
                   (mkSnapshot docA None None None (Some 4)) _ _) _ _).
  - constructor; [discriminate|]. constructor; [discriminate|constructor].
  - reflexivity.
  - reflexivity.
  - intros d Hd. apply elem_of_cons in Hd. destruct Hd as [->|Hd]; [now left|].
    apply list_elem_of_singleton in Hd. subst. right. exists missingB.
    split; [|reflexivity]. right. left.
Defined.

Lemma unrequested_result_ignored_witness :
  getAll_ byName3 "db"
    (fun _ => Resolved (map Data ([foundA] ++ missingC :: [missingB]) ++ [StreamEnd]))
    [docB; docA] None
  = getAll_ byName3 "db"
      (fun _ => Resolved (map Data ([foundA] ++ [missingB]) ++ [StreamEnd]))
      [docB; docA] None.
Proof.
  apply (unrequested_result_ignored byName3 [docB; docA] "db" None [foundA] [missingB]
           missingC "C").
  - repeat constructor; discriminate.
  - reflexivity.
  - intros H. apply list_elem_of_In in H. cbn in H.
    destruct H as [H|[H|[]]]; discriminate.
Defined.

Lemma requested_unique l : forall s,
  NoDup (s ++ l) -> fold_left set_add l s = s ++ l.
Proof.
  induction l as [|x l IH]; intros s H; cbn [fold_left]; [now rewrite app_nil_r|].
  assert (Hx : x ∉ s).
  { apply NoDup_app in H. destruct H as (_ & H & _). intros Hin.
    apply (H x Hin). left. }
  unfold set_add at 2. rewrite bool_decide_eq_false_2 by exact Hx.
  rewrite IH; rewrite <- app_assoc; [reflexivity|exact H].
Qed.

Lemma requested_length l : forall s,
  (length (fold_left set_add l s) <= length s + length l)%nat.
Proof.
  induction l as [|x l IH]; intros s; cbn [fold_left length]; [lia|].
  etransitivity; [apply IH|]. unfold set_add. case_bool_decide; [lia|].
  rewrite length_app. cbn. lia.
Qed.

(** The request never lists more names than references were given, and when
    no reference is given twice it lists their names in the order given. *)
Theorem request_lists_names_in_order (formattedDatabase : string)
    (docRefs : list DocumentReference) (transactionId : option string) :
  (length (documents (batchGetRequest formattedDatabase docRefs transactionId))
   <= length docRefs)%nat /\
  (NoDup (map formattedName docRefs) ->
   documents (batchGetRequest formattedDatabase docRefs transactionId)
   = map formattedName docRefs).
Proof.
  cbn [documents batchGetRequest]. split.
  - etransitivity; [apply requested_length|]. cbn. now rewrite length_map.
  - intros H. now rewrite (requested_unique _ []).
Qed.

Lemma request_lists_names_in_order_witness :
  documents (batchGetRequest "db" [docB; docA] None) = map formattedName [docB; docA].
Proof.
  refine (proj2 (request_lists_names_in_order "db" [docB; docA] None) _).
  repeat constructor; intros H; apply list_elem_of_In in H; cbn in H;
    intuition discriminate.
Defined.

(** Asked for no document at all, [getAll_] sends a request without names
    and, when the stream ends, answers with the empty list, whatever the
    backend sent. *)
Theorem empty_batch_resolves_empty
    (documentAt : string -> FirestoreError + DocumentReference)
    (formattedDatabase : string) (transactionId : option string)
    (readStream : BatchGetRequest -> Settled (list StreamEvent))
    (responses : list Response) (rest : list StreamEvent) :
  Forall (fun r => key_of documentAt r <> None) responses ->
  readStream (batchGetRequest formattedDatabase [] transactionId)
  = Resolved (map Data responses ++ StreamEnd :: rest) ->
  documents (batchGetRequest formattedDatabase [] transactionId) = [] /\
  getAll_ documentAt formattedDatabase readStream [] transactionId
  = Some (Resolved []).
Proof.
  intros Hok Hstream. split; [reflexivity|].
  unfold getAll_. rewrite Hstream, (end_of_stream documentAt [] responses rest Hok).
  reflexivity.
Qed.

Lemma empty_batch_resolves_empty_witness :
  documents (batchGetRequest "db" [] None) = [] /\
  getAll_ byName "db" (fun _ => Resolved (map Data [foundA] ++ StreamEnd :: [])) [] None
  = Some (Resolved []).
Proof.
  apply (empty_batch_resolves_empty byName "db" None _ [foundA] []);
    [repeat constructor; discriminate | reflexivity].
Defined.

(** [getAll] takes its references from an array given as first argument
    and then ignores every further argument; an array whose first element
    is not itself an array means the same as its elements given one by
    one. *)
Theorem getAll_array_or_arguments
    (documentAt : string -> FirestoreError + DocumentReference)
    (isDocumentReference : nat -> Argument -> FirestoreError + DocumentReference)
    (formattedDatabase : string)
    (readStream : BatchGetRequest -> Settled (list StreamEvent))
    (elements more : list Argument) :
  getAll documentAt isDocumentReference formattedDatabase readStream
    (ArgArray elements :: more)
  = getAll documentAt isDocumentReference formattedDatabase readStream
      [ArgArray elements] /\
  ((forall inner rest, elements <> ArgArray inner :: rest) ->
   getAll documentAt isDocumentReference formattedDatabase readStream
     [ArgArray elements]
   = getAll documentAt isDocumentReference formattedDatabase readStream elements).
Proof.
  split; [reflexivity|]. intros H. unfold getAll.
  destruct elements as [|[r|inner|v] rest]; try reflexivity.
  now destruct (H inner rest).
Qed.

Lemma getAll_array_or_arguments_witness :
  getAll byName referencesOnly "db" (fun _ => Resolved [Data foundA; StreamEnd])
    [ArgArray [ArgReference docA]]
  = getAll byName referencesOnly "db" (fun _ => Resolved [Data foundA; StreamEnd])
      [ArgReference docA].
Proof.
  refine (proj2 (getAll_array_or_arguments byName referencesOnly "db" _
                   [ArgReference docA] []) _).
  intros inner rest. discriminate.
Defined.

Lemma check_references_stops isDocumentReference bad err post :
  forall pre i refs,
    check_references isDocumentReference i pre = inr refs ->
    isDocumentReference (i + length pre)%nat bad = inl err ->
    check_references isDocumentReference i (pre ++ bad :: post) = inl err.
Proof.
  induction pre as [|d pre IH]; intros i refs Hpre Hbad; cbn [app check_references].
  - cbn in Hbad. rewrite Nat.add_0_r in Hbad. now rewrite Hbad.
  - cbn [check_references] in Hpre.
    destruct (isDocumentReference i d) as [e|r]; [discriminate|].
    destruct (check_references isDocumentReference (S i) pre) as [e|rs] eqn:E;
      [discriminate|].
    rewrite (IH (S i) rs E); [reflexivity|].
    rewrite <- Hbad. f_equal. cbn. lia.
Qed.

(** [getAll] checks its arguments in order before it reads anything: the
    first argument that is not a document reference makes it throw the
    error of that check, whatever the stream would deliver. *)
Theorem getAll_checks_before_reading
    (documentAt : string -> FirestoreError + DocumentReference)
    (isDocumentReference : nat -> Argument -> FirestoreError + DocumentReference)
    (formattedDatabase : string)
    (readStream : BatchGetRequest -> Settled (list StreamEvent))
    (pre post : list Argument) (bad : Argument) (refs : list DocumentReference)
    (err : FirestoreError) :
  check_references isDocumentReference 0 pre = inr refs ->
  isDocumentReference (length pre) bad = inl err ->
  getAll documentAt isDocumentReference formattedDatabase readStream
    [ArgArray (pre ++ bad :: post)]
  = inl err.
Proof.
  intros Hpre Hbad. unfold getAll.
  now rewrite (check_references_stops isDocumentReference bad err post pre 0 refs Hpre Hbad).
Qed.

Lemma getAll_checks_before_reading_witness :
  getAll byName referencesOnly "db" (fun _ => Resolved [Data foundA; StreamEnd])
    [ArgArray ([ArgReference docA] ++ ArgOther JsNull :: [ArgReference docB])]
  = inl (mkError JsUndefined "Argument is not a valid DocumentReference.").
Proof.
  apply (getAll_checks_before_reading byName referencesOnly "db" _
           [ArgReference docA] [ArgReference docB] (ArgOther JsNull) [docA]);
    reflexivity.
Defined.

(** Two runs, evaluated: [B, A] is requested and the backend
    answers A then B; [A, B] is requested and the backend never answers B. *)
Example batch_get_caller_order :
  option_map (fun r => match r with
                       | Resolved docs => map (fmap (fun d => path (ref d))) docs
                       | Rejected _ => []
                       end)
    (getAll_ byName "db" (fun _ => Resolved [Data foundA; Data missingB; StreamEnd])
       [docB; docA] None)
  = Some [Some "B"%string; Some "A"%string].
Proof. vm_compute. reflexivity. Qed.

Example batch_get_missing_document :
  getAll_ byName "db" (fun _ => Resolved [Data foundA; StreamEnd]) [docA; docB] None
  = Some (Rejected (didNotReceive docB)).
Proof. vm_compute. reflexivity. Qed.

End BatchGetProps.

(** ** Settings and the client pool *)

Module ClientProps.
Import Client.

Lemma validateAndApplySettings_keeps validate s fs :
  _clientInitialized (validateAndApplySettings validate s fs).1 = _clientInitialized fs /\
  _clientPool (validateAndApplySettings validate s fs).1 = _clientPool fs /\
  _settingsFrozen (validateAndApplySettings validate s fs).1 = _settingsFrozen fs.
Proof.
  unfold validateAndApplySettings.
  destruct (isOptionalBoolean validate _); [auto|].
  destruct (truthy (projectId s)); [destruct (isString validate _)|]; auto.
Qed.

Lemma settings_keeps validate s fs :
  _clientInitialized (settings validate s fs).1 = _clientInitialized fs /\
  _clientPool (settings validate s fs).1 = _clientPool fs.
Proof.
  unfold settings.
  destruct (isOptionalString validate _); [auto|].
  destruct (isOptionalBoolean validate _); [auto|].
  case_bool_decide; [auto|]. destruct (_settingsFrozen fs); [auto|].
  destruct (validateAndApplySettings_keeps validate
              (extend (_initalizationSettings fs) s) fs) as (H1 & H2 & _).
  destruct (validateAndApplySettings validate _ fs) as [fs' [err|]]; cbn in *; auto.
Qed.

Lemma client_run_app validate w evs1 evs2 :
  run validate w (evs1 ++ evs2) = run validate (run validate w evs1) evs2.
Proof. apply fold_left_app. Qed.

Lemma settle_waiting_dispatch p w :
  _clientPool (firestore w) = Some firstPool ->
  Forall (fun d => d.1 = Some firstPool) (dispatched w) ->
  firestore (settle_waiting p None w) = firestore w /\
  promises (settle_waiting p None w) = promises w /\
  poolsCreated (settle_waiting p None w) = poolsCreated w /\
  Forall (fun d => d.1 = Some firstPool) (dispatched (settle_waiting p None w)).
Proof.
  unfold settle_waiting.
  generalize (filter (fun po : nat * Op => po.1 = p) (waiting w)) as mine.
  generalize (filter (fun po : nat * Op => po.1 <> p) (waiting w)) as others.
  intros others mine. destruct w as [fs ps wt pc ds rj th wn]. cbn [firestore promises poolsCreated dispatched waiting rejected thrown warnings].
  revert ds rj. induction mine as [|po mine IH]; intros ds rj Hp Hd; cbn.
  - auto.
  - apply IH; [exact Hp|]. apply Forall_app. split; [exact Hd|].
    constructor; [exact Hp|constructor].
Qed.

Lemma settle_waiting_fail p err w :
  firestore (settle_waiting p (Some err) w) = firestore w /\
  promises (settle_waiting p (Some err) w) = promises w /\
  poolsCreated (settle_waiting p (Some err) w) = poolsCreated w /\
  dispatched (settle_waiting p (Some err) w) = dispatched w.
Proof.
  unfold settle_waiting.
  generalize (filter (fun po : nat * Op => po.1 = p) (waiting w)) as mine.
  generalize (filter (fun po : nat * Op => po.1 <> p) (waiting w)) as others.
  intros others mine. destruct w as [fs ps wt pc ds rj th wn]. cbn [firestore promises poolsCreated dispatched waiting rejected thrown warnings].
  revert rj. induction mine as [|po mine IH]; intros rj; cbn.
  - auto.
  - apply IH.
Qed.

Lemma runRequest_consistent op w : consistent w -> consistent (_runRequest op w).
Proof.
  intros H. destruct w as [fs ps wt pc ds rj th wn].
  destruct fs as [cp fr ci ini ts rp pt]. unfold consistent in *. cbn in H.
  destruct ci as [p|].
  - destruct H as (-> & -> & [(-> & -> & ->)|[(-> & -> & Hd)|(err & -> & -> & ->)]]);
      cbn; (split; [reflexivity|]); (split; [reflexivity|]).
    + left. auto.
    + right. left. repeat split. apply Forall_app. split; [exact Hd|].
      constructor; [reflexivity|constructor].
    + right. right. eauto.
  - destruct H as (-> & -> & -> & -> & ->).
    unfold _runRequest, _initClientPool.
    cbn [firestore _clientInitialized _timestampsInSnapshotsEnabled _referencePath].
    destruct ts; cbn [firestore _referencePath poolsCreated];
      destruct (strict_ne (pathProjectId rp) projectIdToken); cbn;
      (split; [reflexivity|]); (split; [reflexivity|]).
    + right. left. repeat split. repeat constructor.
    + left. auto.
    + right. left. repeat split. repeat constructor.
    + left. auto.
Qed.

Lemma projectIdDetected_consistent p result w :
  consistent w -> consistent (projectIdDetected p result w).
Proof.
  intros H. unfold projectIdDetected.
  destruct (promises w !! p) as [[pool| |err]|] eqn:E; try exact H.
  unfold consistent in H.
  destruct (_clientInitialized (firestore w)) as [p0|] eqn:Ei.
  - destruct H as (-> & Hpc & [(Hps & Hcp & Hds)|[(Hps & _)|(err & Hps & _)]]);
      rewrite Hps in E; destruct p as [|p]; cbn in E; try discriminate.
    injection E as <-.
    destruct w as [fs ps wt pc ds rj th wn]. destruct fs as [cp fr ci ini ts rp pt].
    cbn -[settle_waiting] in *. subst.
    destruct result as [detected|err].
    + match goal with |- consistent (settle_waiting _ _ ?w0) =>
        destruct (settle_waiting_dispatch 0 w0) as (F & P & C & D);
          [reflexivity|constructor|] end.
      unfold consistent. rewrite F, P, C. cbn. repeat split. right. left. auto.
    + match goal with |- consistent (settle_waiting _ _ ?w0) =>
        destruct (settle_waiting_fail 0 err w0) as (F & P & C & D) end.
      unfold consistent. rewrite F, P, C, D. cbn. repeat split. right. right. eauto.
  - destruct H as (_ & Hps & _). rewrite Hps in E. discriminate.
Qed.

Lemma step_consistent validate w ev : consistent w -> consistent (step validate w ev).
Proof.
  intros H. destruct ev as [m r t a|m r t a|m r t a|s|p result]; cbn [step].
  - now apply runRequest_consistent.
  - now apply runRequest_consistent.
  - now apply runRequest_consistent.
  - destruct (settings_keeps validate s (firestore w)) as [E1 E2].
    destruct (settings validate s (firestore w)) as [fs err]. cbn in E1, E2.
    unfold consistent in *. cbn. rewrite E1, E2. exact H.
  - now apply projectIdDetected_consistent.
Qed.

Lemma run_consistent validate evs :
  forall w, consistent w -> consistent (run validate w evs).
Proof.
  induction evs as [|ev evs IH]; intros w H; [exact H|].
  cbn. apply IH, step_consistent, H.
Qed.

Lemma newFirestore_consistent validate libVersion ftt s fs :
  newFirestore validate libVersion ftt s = inr fs -> consistent (boot fs).
Proof.
  unfold newFirestore. intros H.
  match type of H with
  | context [validateAndApplySettings validate ?s0 ?fs0] =>
      destruct (validateAndApplySettings_keeps validate s0 fs0) as (H1 & H2 & _);
      destruct (validateAndApplySettings validate s0 fs0) as [fs' [err|]]
  end; [discriminate|].
  injection H as <-. cbn in H1, H2. unfold consistent. cbn. rewrite H1, H2. auto.
Qed.

Lemma settle_waiting_firestore p outcome w :
  firestore (settle_waiting p outcome w) = firestore w.
Proof.
  unfold settle_waiting.
  generalize (filter (fun po : nat * Op => po.1 = p) (waiting w)) as mine.
  generalize (filter (fun po : nat * Op => po.1 <> p) (waiting w)) as others.
  intros others mine. destruct w as [fs ps wt pc ds rj th wn].
  cbn [firestore promises poolsCreated dispatched waiting rejected thrown warnings].
  revert ds rj. induction mine as [|po mine IH]; intros ds rj; cbn; [reflexivity|].
  destruct outcome; apply IH.
Qed.

Lemma runRequest_later op w p :
  _clientInitialized (firestore w) = Some p ->
  _runRequest op w
  = match promises w !! p with
    | Some Ready => dispatch op w
    | Some (Failed err) => fail err op w
    | _ => mkWorld (firestore w) (promises w) (waiting w ++ [(p, op)])
             (poolsCreated w) (dispatched w) (rejected w) (thrown w) (warnings w)
    end.
Proof. intros H. unfold _runRequest. rewrite H. cbv zeta. rewrite H. reflexivity. Qed.

Lemma step_keeps_initialized validate w ev p :
  _clientInitialized (firestore w) = Some p ->
  _clientInitialized (firestore (step validate w ev)) = Some p.
Proof.
  intros H. destruct ev as [m r t a|m r t a|m r t a|s|q result]; cbn [step].
  1-3: unfold request, readStream, readWriteStream; cbv zeta;
    rewrite (runRequest_later _ w p H);
    destruct (promises w !! p) as [[pool| |err]|]; exact H.
  - destruct (settings_keeps validate s (firestore w)) as [E1 _].
    destruct (settings validate s (firestore w)) as [fs err]. cbn in *. congruence.
  - unfold projectIdDetected.
    destruct (promises w !! q) as [[pool| |err]|]; try exact H.
    destruct result; rewrite settle_waiting_firestore; exact H.
Qed.

Lemma run_keeps_initialized validate evs : forall w p,
  _clientInitialized (firestore w) = Some p ->
  _clientInitialized (firestore (run validate w evs)) = Some p.
Proof.
  induction evs as [|ev evs IH]; intros w p H; [exact H|].
  cbn. apply IH, step_keeps_initialized, H.
Qed.

Lemma call_initializes validate w ev :
  is_call ev = true ->
  exists p, _clientInitialized (firestore (step validate w ev)) = Some p.
Proof.
  intros Hc.
  assert (G : forall op, exists p,
             _clientInitialized (firestore (_runRequest op w)) = Some p).
  { intros op. destruct (_clientInitialized (firestore w)) as [p|] eqn:E.
    - exists p. rewrite (runRequest_later _ w p E).
      destruct (promises w !! p) as [[pool| |err]|]; exact E.
    - exists (length (promises w)). unfold _runRequest, _initClientPool. rewrite E.
      destruct (_timestampsInSnapshotsEnabled (firestore w));
        cbn [firestore _referencePath promises];
        destruct (strict_ne _ _); cbn [firestore _clientInitialized set_clientInitialized set_clientPool promises];
        rewrite lookup_app_r, Nat.sub_diag by reflexivity; reflexivity. }
  destruct ev; try discriminate; apply G.
Qed.

(** C9: on one instance, whatever is called in whatever order, the client
    pool is made at most once; the first call of [request], [readStream] or
    [readWriteStream] sets [_clientInitialized] before it returns; from then
    on the field keeps that promise, no further pool is made, and every
    operation is run on the one pool. *)
Theorem client_pool_initialized_once (validate : Validate) (libVersion : string)
    (functionTriggerType : JsValue) (s : Settings) (fs : Firestore)
    (evs : list Event) :
  newFirestore validate libVersion functionTriggerType s = inr fs ->
  (poolsCreated (run validate (boot fs) evs) <= 1)%nat /\
  (forall pre ev post,
     evs = pre ++ ev :: post -> is_call ev = true ->
     _clientInitialized (firestore (run validate (boot fs) pre)) = None ->
     poolsCreated (run validate (boot fs) pre) = O /\
     poolsCreated (run validate (boot fs) (pre ++ [ev])) = 1%nat /\
     exists p,
       _clientInitialized (firestore (run validate (boot fs) (pre ++ [ev]))) = Some p) /\
  (forall pre post p,
     evs = pre ++ post ->
     _clientInitialized (firestore (run validate (boot fs) pre)) = Some p ->
     _clientInitialized (firestore (run validate (boot fs) evs)) = Some p /\
     poolsCreated (run validate (boot fs) evs) = poolsCreated (run validate (boot fs) pre) /\
     length (promises (run validate (boot fs) evs)) = 1%nat) /\
  (forall d, d ∈ dispatched (run validate (boot fs) evs) -> d.1 = Some firstPool).
Proof.
  intros Hnew.
  assert (Inv : forall l, consistent (run validate (boot fs) l)).
  { intros l. apply run_consistent, (newFirestore_consistent _ _ _ _ _ Hnew). }
  assert (Some1 : forall w p, consistent w -> _clientInitialized (firestore w) = Some p ->
                    poolsCreated w = 1%nat /\ length (promises w) = 1%nat).
  { intros w p C E. unfold consistent in C. rewrite E in C.
    destruct C as (_ & C1 & [(-> & _)|[(-> & _)|(err & -> & _)]]); auto. }
  split; [|split; [|split]].
  - pose proof (Inv evs) as C. unfold consistent in C.
    destruct (_clientInitialized _); [destruct C as (_ & -> & _)|destruct C as (-> & _)]; lia.
  - intros pre ev post -> Hc Hnone. split; [|split].
    + pose proof (Inv pre) as C. unfold consistent in C. rewrite Hnone in C. tauto.
    + rewrite client_run_app. cbn [run fold_left].
      destruct (call_initializes validate (run validate (boot fs) pre) ev Hc) as [p Hp].
      pose proof (Inv (pre ++ [ev])) as C. rewrite client_run_app in C. cbn [run fold_left] in C.
      apply (Some1 _ p C Hp).
    + rewrite client_run_app. cbn [run fold_left]. now apply call_initializes.
  - intros pre post p -> Hp.
    pose proof (run_keeps_initialized validate post _ p Hp) as Hp'.
    rewrite <- client_run_app in Hp'.
    destruct (Some1 _ p (Inv pre) Hp) as [C1 _].
    destruct (Some1 _ p (Inv (pre ++ post)) Hp') as [C2 L2].
    split; [exact Hp'|]. split; [congruence|exact L2].
  - intros d Hd. pose proof (Inv evs) as C. unfold consistent in C.
    destruct (_clientInitialized _).
    + destruct C as (_ & _ & [(_ & _ & E)|[(_ & _ & F)|(err & _ & _ & E)]]);
        try (rewrite E in Hd; now apply elem_of_nil in Hd).
      rewrite Forall_forall in F. now apply F.
    + destruct C as (_ & _ & _ & E & _). rewrite E in Hd. now apply elem_of_nil in Hd.
Qed.

(** C10: [settings] throws and changes nothing once a request has set
    [_clientInitialized], and also when an earlier call of [settings] went
    through; a call that goes through stores the merged settings, applies
    them, and sets [_settingsFrozen]. *)
Theorem settings_only_once_before_start (validate : Validate) (s : Settings)
    (fs : Firestore) :
  (_clientInitialized fs <> None ->
   exists err, settings validate s fs = (fs, Some err)) /\
  (forall fs0 s0, settings validate s0 fs0 = (fs, None) ->
   exists err, settings validate s fs = (fs, Some err)) /\
  (forall fs1, settings validate s fs = (fs1, None) ->
   _settingsFrozen fs = false /\ _clientInitialized fs = None /\
   _settingsFrozen fs1 = true /\
   _initalizationSettings fs1 = extend (_initalizationSettings fs) s /\
   _timestampsInSnapshotsEnabled fs1
   = truthy (timestampsInSnapshots (extend (_initalizationSettings fs) s)) /\
   _referencePath fs1
   = mkResourcePath
       (if truthy (projectId (extend (_initalizationSettings fs) s))
        then projectId (extend (_initalizationSettings fs) s)
        else projectIdToken) "(default)" /\
   _clientInitialized fs1 = None /\ _clientPool fs1 = _clientPool fs) /\
  (forall w ev later,
     is_call ev = true ->
     exists err,
       settings validate s (firestore (run validate (step validate w ev) later))
       = (firestore (run validate (step validate w ev) later), Some err)).
Proof.
  assert (Started : forall f, _clientInitialized f <> None ->
            exists err, settings validate s f = (f, Some err)).
  { intros f H. unfold settings.
    destruct (isOptionalString validate _); [eauto|].
    destruct (isOptionalBoolean validate _); [eauto|].
    rewrite bool_decide_eq_true_2 by exact H. eauto. }
  assert (Applied : forall f s' f1, settings validate s' f = (f1, None) ->
            _settingsFrozen f = false /\ _clientInitialized f = None /\
            _settingsFrozen f1 = true /\
            _initalizationSettings f1 = extend (_initalizationSettings f) s' /\
            _timestampsInSnapshotsEnabled f1
            = truthy (timestampsInSnapshots (extend (_initalizationSettings f) s')) /\
            _referencePath f1
            = mkResourcePath
                (if truthy (projectId (extend (_initalizationSettings f) s'))
                 then projectId (extend (_initalizationSettings f) s')
                 else projectIdToken) "(default)" /\
            _clientInitialized f1 = None /\ _clientPool f1 = _clientPool f).
  { intros f s' f1. unfold settings.
    destruct (isOptionalString validate _); [discriminate|].
    destruct (isOptionalBoolean validate _); [discriminate|].
    destruct (bool_decide (_clientInitialized f <> None)) eqn:Hb; [discriminate|].
    apply bool_decide_eq_false_1 in Hb. rename Hb into Hi.
    destruct (_settingsFrozen f) eqn:Hf; [discriminate|].
    assert (Hnone : _clientInitialized f = None).
    { destruct (_clientInitialized f); [exfalso; apply Hi; discriminate|reflexivity]. }
    unfold validateAndApplySettings.
    destruct (isOptionalBoolean validate _); [discriminate|].
    destruct (truthy (projectId (extend (_initalizationSettings f) s')));
      [destruct (isString validate _); [discriminate|]|];
      intros [= <-]; destruct f; cbn in *; subst; repeat split. }
  split; [exact (Started fs)|]. split; [|split; [exact (Applied fs s)|]].
  - intros fs0 s0 H0. destruct (Applied fs0 s0 fs H0) as (_ & _ & Hfrozen & _ & _ & _ & Hnone & _).
    unfold settings.
    destruct (isOptionalString validate _); [eauto|].
    destruct (isOptionalBoolean validate _); [eauto|].
    rewrite Hnone, Hfrozen. rewrite bool_decide_eq_false_2 by auto. eauto.
  - intros w ev later Hc. apply Started.
    destruct (call_initializes validate w ev Hc) as [p Hp].
    rewrite (run_keeps_initialized validate later _ p Hp). discriminate.
Qed.

Lemma settings_only_once_before_start_witness :
  exists err,
    settings lenient noSettings
      (firestore (run lenient
                    (step lenient (boot (mkFirestore None false None noSettings false
                                           (mkResourcePath projectIdToken "(default)") false))
                       (CallRequest "commit" "{}" "tag01" false))
                    []))
    = (firestore (run lenient
                    (step lenient (boot (mkFirestore None false None noSettings false
                                           (mkResourcePath projectIdToken "(default)") false))
                       (CallRequest "commit" "{}" "tag01" false))
                    []),
       Some err).
Proof.
  destruct (settings_only_once_before_start lenient noSettings
              (mkFirestore None false None noSettings false
                 (mkResourcePath projectIdToken "(default)") false))
    as (_ & _ & _ & H).
  apply (H _ (CallRequest "commit" "{}" "tag01" false) []). reflexivity.
Defined.

Example settings_twice :
  let fs := mkFirestore None false None noSettings false
              (mkResourcePath projectIdToken "(default)") false in
  (settings lenient withProject (settings lenient withProject fs).1).2
  = Some frozenError /\
  (settings lenient withProject fs).2 = None.
Proof. split; reflexivity. Qed.

Lemma waiting_filter ops :
  filter (fun po : nat * Op => po.1 = O) (map (fun op => (O, op)) ops)
  = map (fun op => (O, op)) ops /\
  filter (fun po : nat * Op => po.1 <> O) (map (fun op => (O, op)) ops) = [].
Proof.
  induction ops as [|op ops [IH1 IH2]]; [split; reflexivity|]. cbn [map]. split.
  - rewrite filter_cons_True by reflexivity. now rewrite IH1.
  - rewrite filter_cons_False by (cbn; auto). exact IH2.
Qed.

Lemma settle_waiting_all outcome ops w :
  waiting w = map (fun op => (O, op)) ops ->
  settle_waiting O outcome w
  = mkWorld (firestore w) (promises w) [] (poolsCreated w)
      (match outcome with
       | None => dispatched w ++ map (fun op => (_clientPool (firestore w), op)) ops
       | Some _ => dispatched w
       end)
      (match outcome with
       | None => rejected w
       | Some err => rejected w ++ map (fun op => (op, err)) ops
       end)
      (thrown w) (warnings w).
Proof.
  intros Hw. unfold settle_waiting. rewrite Hw.
  destruct (waiting_filter ops) as [-> ->].
  destruct w as [fs ps wt pc ds rj th wn].
  cbn [firestore promises poolsCreated dispatched waiting rejected thrown warnings].
  clear Hw. destruct outcome as [err|]; revert ds rj;
    induction ops as [|op ops IH]; intros ds rj; cbn [map fold_left];
    rewrite ?app_nil_r; try reflexivity.
  - unfold fail at 2. cbn [firestore promises waiting poolsCreated dispatched
      rejected thrown warnings snd]. rewrite IH, <- app_assoc. reflexivity.
  - unfold dispatch at 2. cbn [firestore promises waiting poolsCreated dispatched
      rejected thrown warnings snd]. rewrite IH, <- app_assoc. reflexivity.
Qed.

Lemma runRequest_tracked op ops w :
  tracked ops w -> tracked (ops ++ [op]) (_runRequest op w).
Proof.
  intros H. unfold tracked in H.
  destruct (_clientInitialized (firestore w)) as [p|] eqn:Ei.
  - destruct H as (-> & H). rewrite (runRequest_later op w O Ei).
    destruct H as [((pool & Hp) & Hw & Hd & Hr)|[(Hp & Hd & Hw & Hr)|(err & Hp & Hr & Hw & Hd)]];
      rewrite Hp; cbn [lookup list_lookup]; unfold tracked; cbn; rewrite Ei;
      (split; [reflexivity|]).
    + left. rewrite Hw, map_app. eauto 6.
    + right. left. rewrite Hd, map_app. auto.
    + right. right. exists err. rewrite Hr, map_app. auto.
  - destruct H as (-> & Hp & Hw & Hd & Hr).
    destruct w as [fs ps wt pc ds rj th wn]. destruct fs as [cp fr ci ini ts rp pt].
    cbn in *. subst. unfold tracked, _runRequest, _initClientPool.
    cbn [firestore _clientInitialized _timestampsInSnapshotsEnabled _referencePath].
    destruct ts; cbn [firestore _referencePath poolsCreated];
      destruct (strict_ne (pathProjectId rp) projectIdToken); cbn;
      (split; [reflexivity|]); eauto 8.
Qed.

Lemma settings_started validate s fs :
  _clientInitialized fs <> None -> (settings validate s fs).1 = fs.
Proof.
  intros H. unfold settings.
  destruct (isOptionalString validate _); [reflexivity|].
  destruct (isOptionalBoolean validate _); [reflexivity|].
  now rewrite bool_decide_eq_true_2 by exact H.
Qed.

Lemma step_tracked validate ops w ev :
  tracked ops w ->
  tracked (ops ++ match op_of_event ev with Some op => [op] | None => [] end)
    (step validate w ev).
Proof.
  intros H. destruct ev as [m r t a|m r t a|m r t a|s|p result];
    cbn [step op_of_event].
  1-3: now apply runRequest_tracked.
  - rewrite app_nil_r.
    destruct (settings_keeps validate s (firestore w)) as [E1 E2].
    destruct (settings validate s (firestore w)) as [fs err]. cbn in E1, E2.
    unfold tracked in *. cbn. rewrite E1, E2. exact H.
  - rewrite app_nil_r. unfold projectIdDetected.
    destruct (promises w !! p) as [[pool| |err]|] eqn:E; try exact H.
    unfold tracked in H.
    destruct (_clientInitialized (firestore w)) as [p0|] eqn:Ei.
    2:{ destruct H as (_ & Hps & _). rewrite Hps in E. discriminate. }
    destruct H as (-> & [((pool' & Hp) & Hw & Hd & Hr)|[(Hp & _)|(err & Hp & _)]]);
      rewrite Hp in E; destruct p as [|p]; cbn in E; try discriminate.
    injection E as ->.
    destruct result as [detected|err].
    + rewrite (settle_waiting_all None ops) by exact Hw.
      unfold tracked. cbn. rewrite Ei, Hp, Hd, Hr. cbn.
      split; [reflexivity|]. right. left. auto.
    + rewrite (settle_waiting_all (Some err) ops) by exact Hw.
      unfold tracked. cbn. rewrite Ei, Hp, Hd, Hr. cbn.
      split; [reflexivity|]. right. right. eauto.
Qed.

Lemma called_cons ev evs :
  called (ev :: evs)
  = match op_of_event ev with Some op => [op] | None => [] end ++ called evs.
Proof. unfold called. cbn. destruct (op_of_event ev); reflexivity. Qed.

Lemma run_tracked validate evs : forall ops w,
  tracked ops w -> tracked (ops ++ called evs) (run validate w evs).
Proof.
  induction evs as [|ev evs IH]; intros ops w H; cbn [run fold_left].
  - unfold called. cbn. now rewrite app_nil_r.
  - apply (step_tracked validate _ _ ev) in H. apply IH in H.
    now rewrite called_cons, app_assoc.
Qed.

Lemma newFirestore_fresh validate libVersion ftt s fs :
  newFirestore validate libVersion ftt s = inr fs ->
  _clientInitialized fs = None /\ _clientPool fs = None /\ _settingsFrozen fs = false.
Proof.
  unfold newFirestore. intros H.
  match type of H with
  | context [validateAndApplySettings validate ?s0 ?fs0] =>
      destruct (validateAndApplySettings_keeps validate s0 fs0) as (H1 & H2 & H3);
      destruct (validateAndApplySettings validate s0 fs0) as [fs' [err|]]
  end; [discriminate|].
  injection H as <-. cbn in *. auto.
Qed.

(** No operation is lost, duplicated or reordered: at any time the
    operations handed to the pool, followed by the rejected and the waiting
    ones, are the operations called so far, in the order of the calls. *)
Theorem operations_accounted (validate : Validate) (libVersion : string)
    (functionTriggerType : JsValue) (s : Settings) (fs : Firestore)
    (evs : list Event) :
  newFirestore validate libVersion functionTriggerType s = inr fs ->
  map snd (dispatched (run validate (boot fs) evs))
  ++ map fst (rejected (run validate (boot fs) evs))
  ++ map snd (waiting (run validate (boot fs) evs))
  = called evs.
Proof.
  intros Hnew. destruct (newFirestore_fresh _ _ _ _ _ Hnew) as (Hi & _).
  assert (T0 : tracked [] (boot fs)).
  { unfold tracked. cbn. rewrite Hi. auto. }
  pose proof (run_tracked validate evs [] (boot fs) T0) as T. cbn [app] in T.
  unfold tracked in T.
  destruct (_clientInitialized (firestore (run validate (boot fs) evs))).
  - destruct T as (_ & [(_ & Hw & Hd & Hr)|[(_ & Hd & Hw & Hr)|(err & _ & Hr & Hw & Hd)]]);
      rewrite Hw, Hd, Hr; cbn [map app]; rewrite ?app_nil_r, map_map; cbn;
      apply map_id.
  - destruct T as (-> & _ & -> & -> & ->). reflexivity.
Qed.

Lemma operations_accounted_witness :
  map snd (dispatched (run lenient (boot freshInstance) sampleSession))
  ++ map fst (rejected (run lenient (boot freshInstance) sampleSession))
  ++ map snd (waiting (run lenient (boot freshInstance) sampleSession))
  = called sampleSession.
Proof.
  apply (operations_accounted lenient "0.14.1" JsUndefined noSettings freshInstance
           sampleSession).
  reflexivity.
Defined.

Lemma step_keeps_failed validate w ev err :
  _clientInitialized (firestore w) = Some O -> promises w = [Failed err] ->
  promises (step validate w ev) = [Failed err].
Proof.
  intros Hi Hp. destruct ev as [m r t a|m r t a|m r t a|s|p result]; cbn [step].
  1-3: unfold request, readStream, readWriteStream; cbv zeta;
    rewrite (runRequest_later _ w O Hi), Hp; exact Hp.
  - destruct (settings validate s (firestore w)) as [fs e]. exact Hp.
  - unfold projectIdDetected. rewrite Hp. destruct p as [|p]; exact Hp.
Qed.

Lemma run_keeps_failed validate evs : forall w err,
  _clientInitialized (firestore w) = Some O -> promises w = [Failed err] ->
  promises (run validate w evs) = [Failed err].
Proof.
  induction evs as [|ev evs IH]; intros w err Hi Hp; [exact Hp|].
  cbn [run fold_left]. apply IH.
  - now apply step_keeps_initialized.
  - now apply step_keeps_failed.
Qed.

(** A failed detection of the project id is final: every operation called
    before or after it is rejected with the error of the detection, none is
    handed to a pool, and the initialisation is not started again. *)
Theorem failed_detection_is_final (validate : Validate) (libVersion : string)
    (functionTriggerType : JsValue) (s : Settings) (fs : Firestore)
    (evs later : list Event) (err : FirestoreError) :
  newFirestore validate libVersion functionTriggerType s = inr fs ->
  promises (run validate (boot fs) evs) = [Failed err] ->
  promises (run validate (boot fs) (evs ++ later)) = [Failed err] /\
  rejected (run validate (boot fs) (evs ++ later))
  = map (fun op => (op, err)) (called (evs ++ later)) /\
  dispatched (run validate (boot fs) (evs ++ later)) = [] /\
  poolsCreated (run validate (boot fs) (evs ++ later)) = 1%nat.
Proof.
  intros Hnew Hp. destruct (newFirestore_fresh _ _ _ _ _ Hnew) as (Hi & _).
  assert (T0 : tracked [] (boot fs)).
  { unfold tracked. cbn. rewrite Hi. auto. }
  pose proof (run_consistent validate evs _ (newFirestore_consistent _ _ _ _ _ Hnew)) as C.
  unfold consistent in C. rewrite Hp in C.
  destruct (_clientInitialized (firestore (run validate (boot fs) evs))) as [p|] eqn:Ei;
    [|destruct C as (_ & C & _); discriminate].
  destruct C as (-> & _).
  assert (Hp' : promises (run validate (boot fs) (evs ++ later)) = [Failed err]).
  { rewrite client_run_app. now apply run_keeps_failed. }
  pose proof (run_tracked validate (evs ++ later) [] (boot fs) T0) as T.
  pose proof (run_consistent validate (evs ++ later) _
                (newFirestore_consistent _ _ _ _ _ Hnew)) as C'.
  cbn [app] in T. unfold tracked in T. unfold consistent in C'. rewrite Hp' in T, C'.
  destruct (_clientInitialized (firestore (run validate (boot fs) (evs ++ later))));
    [|destruct T as (_ & T & _); discriminate].
  destruct C' as (_ & Hpc & _).
  destruct T as (_ & [((pool & T) & _)|[(T & _)|(err' & T & Hr & _ & Hd)]]);
    try discriminate.
  injection T as <-. auto.
Qed.

Lemma failed_detection_is_final_witness :
  rejected (run lenient (boot freshInstance)
              (firstn 2 failingSession ++ skipn 2 failingSession))
  = map (fun op => (op, mkError (JsNumber 16) "UNAUTHENTICATED"))
      (called (firstn 2 failingSession ++ skipn 2 failingSession)).
Proof.
  refine (proj1 (proj2 (failed_detection_is_final lenient "0.14.1" JsUndefined
                          noSettings freshInstance (firstn 2 failingSession)
                          (skipn 2 failingSession) _ _ _))); reflexivity.
Defined.

Lemma runRequest_eager rp op w : eager rp w -> eager rp (_runRequest op w).
Proof.
  intros (Hne & Hrp & Hall). unfold eager.
  destruct (_clientInitialized (firestore w)) as [p|] eqn:Ei.
  - rewrite (runRequest_later op w p Ei).
    destruct (promises w !! p) as [[pool| |err]|]; cbn; auto.
  - destruct w as [fs ps wt pc ds rj th wn]. destruct fs as [cp fr ci ini ts rp0 pt].
    cbn in *. subst. unfold _runRequest, _initClientPool.
    cbn [firestore _clientInitialized _timestampsInSnapshotsEnabled _referencePath].
    assert (E : strict_ne (pathProjectId rp) projectIdToken = true).
    { unfold strict_ne. now rewrite bool_decide_eq_false_2. }
    destruct ts; cbn [firestore _referencePath poolsCreated]; rewrite E;
      cbn [firestore _clientInitialized set_clientInitialized set_clientPool promises];
      rewrite lookup_app_r, Nat.sub_diag by reflexivity; cbn;
      (split; [exact Hne|]); (split; [reflexivity|]);
      apply Forall_app; split; auto.
Qed.

Lemma step_eager validate rp w ev :
  (forall s, ev <> CallSettings s) -> eager rp w -> eager rp (step validate w ev).
Proof.
  intros Hev H. destruct ev as [m r t a|m r t a|m r t a|s|p result]; cbn [step].
  1-3: now apply runRequest_eager.
  - now destruct (Hev s).
  - unfold projectIdDetected. destruct H as (Hne & Hrp & Hall).
    destruct (promises w !! p) as [[pool| |err]|] eqn:E; try (now split).
    apply list_elem_of_lookup_2 in E. rewrite Forall_forall in Hall.
    now specialize (Hall _ E).
Qed.

Lemma run_eager validate rp evs : forall w,
  Forall (fun ev => forall s, ev <> CallSettings s) evs ->
  eager rp w -> eager rp (run validate w evs).
Proof.
  induction evs as [|ev evs IH]; intros w Hevs H; [exact H|].
  inversion Hevs; subst. cbn [run fold_left]. apply IH; [assumption|].
  now apply step_eager.
Qed.

(** An instance that has its project id when the first request comes in
    never lets an operation wait and never rejects one: as long as
    [settings] is not called, every operation is handed to the pool in the
    step of its call, and the reference path stays as it is. *)
Theorem with_project_id_nothing_waits (validate : Validate) (libVersion : string)
    (functionTriggerType : JsValue) (s : Settings) (fs : Firestore)
    (evs : list Event) :
  newFirestore validate libVersion functionTriggerType s = inr fs ->
  pathProjectId (_referencePath fs) <> projectIdToken ->
  Forall (fun ev => forall s', ev <> CallSettings s') evs ->
  waiting (run validate (boot fs) evs) = [] /\
  rejected (run validate (boot fs) evs) = [] /\
  map snd (dispatched (run validate (boot fs) evs)) = called evs /\
  _referencePath (firestore (run validate (boot fs) evs)) = _referencePath fs.
Proof.
  intros Hnew Hne Hevs. destruct (newFirestore_fresh _ _ _ _ _ Hnew) as (Hi & _).
  assert (T0 : tracked [] (boot fs)).
  { unfold tracked. cbn. rewrite Hi. auto. }
  assert (E0 : eager (_referencePath fs) (boot fs)).
  { split; [exact Hne|]. split; [reflexivity|constructor]. }
  pose proof (run_tracked validate evs [] (boot fs) T0) as T.
  pose proof (run_eager validate _ evs (boot fs) Hevs E0) as (_ & Hrp & Hall).
  cbn [app] in T. unfold tracked in T.
  destruct (_clientInitialized (firestore (run validate (boot fs) evs))).
  - destruct T as (_ & [((pool & T) & _)|[(_ & Hd & Hw & Hr)|(err & T & _)]]).
    + rewrite T in Hall. inversion Hall; subst. discriminate.
    + rewrite Hw, Hr, Hd, map_map. cbn. rewrite map_id. auto.
    + rewrite T in Hall. inversion Hall; subst. discriminate.
  - destruct T as (-> & _ & -> & -> & ->). auto.
Qed.

Lemma with_project_id_nothing_waits_witness :
  waiting (run lenient
             (boot (mkFirestore None false None
                      (extend withProject
                         (mkSettings JsUndefined JsUndefined
                            {[ "libName"%string := JsString "gccl";
                               "libVersion"%string := JsString "0.14.1" ]}))
                      true (mkResourcePath (JsString "my-project") "(default)") false))
             [CallRequest "commit" "{}" "tag01" false;
              CallReadStream "runQuery" "{}" "tag02" true]) = [].
Proof.
  refine (proj1 (with_project_id_nothing_waits lenient "0.14.1" JsUndefined withProject
                   _ [CallRequest "commit" "{}" "tag01" false;
                      CallReadStream "runQuery" "{}" "tag02" true] _ _ _)).
  - reflexivity.
  - discriminate.
  - repeat constructor; discriminate.
Defined.

Lemma runRequest_undetected rp op w :
  undetected rp w -> undetected rp (_runRequest op w).
Proof.
  intros (Htok & Hrp & H). unfold undetected.
  destruct (_clientInitialized (firestore w)) as [p|] eqn:Ei.
  - destruct H as (-> & Hp & Hcp). rewrite (runRequest_later op w O Ei), Hp.
    cbn. rewrite Ei. auto.
  - destruct H as (Hp & Hpc & Hcp).
    destruct w as [fs ps wt pc ds rj th wn]. destruct fs as [cp fr ci ini ts rp0 pt].
    cbn in *. subst. unfold _runRequest, _initClientPool.
    cbn [firestore _clientInitialized _timestampsInSnapshotsEnabled _referencePath].
    assert (E : strict_ne (pathProjectId rp) projectIdToken = false).
    { unfold strict_ne. now rewrite bool_decide_eq_true_2. }
    destruct ts; cbn [firestore _referencePath poolsCreated]; rewrite E; cbn; auto.
Qed.

Lemma run_undetected validate rp calls : forall w,
  Forall (fun ev => is_call ev = true) calls ->
  undetected rp w -> undetected rp (run validate w calls).
Proof.
  induction calls as [|ev calls IH]; intros w Hc H; [exact H|].
  inversion Hc as [|? ? Hev Hrest]; subst. cbn [run fold_left]. apply IH; [exact Hrest|].
  destruct ev; try discriminate; cbn [step]; now apply runRequest_undetected.
Qed.

(** Without a project id, the operations called wait, none is handed to a
    pool; when the project id is detected, the reference path takes it and
    the waiting operations are handed to the one pool in the order of their
    calls. *)
Theorem queued_operations_run_after_detection (validate : Validate)
    (libVersion : string) (functionTriggerType : JsValue) (s : Settings)
    (fs : Firestore) (calls : list Event) (detected : JsValue) :
  newFirestore validate libVersion functionTriggerType s = inr fs ->
  pathProjectId (_referencePath fs) = projectIdToken ->
  Forall (fun ev => is_call ev = true) calls -> calls <> [] ->
  (dispatched (run validate (boot fs) calls) = [] /\
   waiting (run validate (boot fs) calls) = map (fun op => (O, op)) (called calls)) /\
  (dispatched (run validate (boot fs) (calls ++ [ProjectIdDetected 0 (Resolved detected)]))
   = map (fun op => (Some firstPool, op)) (called calls) /\
   waiting (run validate (boot fs) (calls ++ [ProjectIdDetected 0 (Resolved detected)]))
   = [] /\
   _referencePath
     (firestore (run validate (boot fs)
                   (calls ++ [ProjectIdDetected 0 (Resolved detected)])))
   = mkResourcePath detected (databaseId (_referencePath fs))).
Proof.
  intros Hnew Htok Hcalls Hne.
  destruct (newFirestore_fresh _ _ _ _ _ Hnew) as (Hi & Hpool & _).
  assert (T0 : tracked [] (boot fs)).
  { unfold tracked. cbn. rewrite Hi. auto. }
  assert (U0 : undetected (_referencePath fs) (boot fs)).
  { unfold undetected. cbn. rewrite Hi. auto. }
  pose proof (run_tracked validate calls [] (boot fs) T0) as T.
  pose proof (run_undetected validate _ calls (boot fs) Hcalls U0) as (_ & Hrp & U).
  cbn [app] in T. unfold tracked in T.
  set (w := run validate (boot fs) calls) in *.
  destruct (_clientInitialized (firestore w)) as [p|] eqn:Ei.
  2:{ destruct T as (T & _). destruct calls as [|ev calls]; [congruence|].
      inversion Hcalls as [|? ? Hev _]; subst. rewrite called_cons in T.
      destruct ev; discriminate. }
  destruct U as (_ & Hp & Hcp).
  destruct T as (_ & [(_ & Hw & Hd & Hr)|[(T & _)|(err & T & _)]]);
    [|rewrite Hp in T; discriminate|rewrite Hp in T; discriminate].
  split; [auto|].
  rewrite client_run_app. fold w. cbn [run fold_left step]. unfold projectIdDetected.
  rewrite Hp. cbn [lookup list_lookup].
  rewrite (settle_waiting_all None (called calls)) by exact Hw.
  cbn [dispatched waiting firestore _clientPool _referencePath set_clientPool
       set_referencePath]. rewrite Hd, Hrp. auto.
Qed.

Lemma queued_operations_run_after_detection_witness :
  dispatched (run lenient (boot freshInstance)
                (firstn 2 sampleSession
                   ++ [ProjectIdDetected 0 (Resolved (JsString "detected-project"))]))
  = map (fun op => (Some firstPool, op)) (called (firstn 2 sampleSession)).
Proof.
  refine (proj1 (proj2 (queued_operations_run_after_detection lenient "0.14.1"
                          JsUndefined noSettings freshInstance (firstn 2 sampleSession)
                          (JsString "detected-project") _ _ _ _)));
    [reflexivity | reflexivity | repeat constructor | discriminate].
Defined.

Lemma settle_waiting_warnings p outcome w :
  warnings (settle_waiting p outcome w) = warnings w.
Proof.
  unfold settle_waiting.
  generalize (filter (fun po : nat * Op => po.1 = p) (waiting w)) as mine.
  generalize (filter (fun po : nat * Op => po.1 <> p) (waiting w)) as others.
  intros others mine. destruct w as [fs ps wt pc ds rj th wn].
  cbn [firestore promises poolsCreated dispatched waiting rejected thrown warnings].
  revert ds rj. induction mine as [|po mine IH]; intros ds rj; cbn; [reflexivity|].
  destruct outcome; apply IH.
Qed.

Lemma step_warned_once validate w ev : warned_once w -> warned_once (step validate w ev).
Proof.
  intros (H1 & H2 & H3). unfold warned_once.
  assert (G : forall op, warned_once (_runRequest op w)).
  { intros op. unfold warned_once.
    destruct (_clientInitialized (firestore w)) as [p|] eqn:Ei.
    - rewrite (runRequest_later op w p Ei).
      destruct (promises w !! p) as [[pool| |err]|]; cbn; rewrite ?Ei; auto.
    - specialize (H2 eq_refl).
      destruct w as [fs ps wt pc ds rj th wn]. destruct fs as [cp fr ci ini ts rp pt].
      cbn in *. subst. unfold _runRequest, _initClientPool.
      cbn [firestore _clientInitialized _timestampsInSnapshotsEnabled _referencePath].
      destruct ts; cbn [firestore _referencePath poolsCreated];
        destruct (strict_ne (pathProjectId rp) projectIdToken);
        cbn [firestore _clientInitialized set_clientInitialized set_clientPool promises];
        rewrite lookup_app_r, Nat.sub_diag by reflexivity; cbn;
        repeat split; auto; discriminate. }
  destruct ev as [m r t a|m r t a|m r t a|s|p result]; cbn [step]; try apply G.
  - destruct (_clientInitialized (firestore w)) as [p|] eqn:Ei.
    + pose proof (settings_started validate s (firestore w)) as E.
      rewrite Ei in E. specialize (E ltac:(discriminate)).
      destruct (settings validate s (firestore w)) as [fs e]. cbn in E. subst fs.
      cbn. rewrite Ei. auto.
    + specialize (H2 eq_refl).
      destruct (settings validate s (firestore w)) as [fs e]. cbn. rewrite H2.
      repeat split; auto.
  - unfold projectIdDetected.
    destruct (promises w !! p) as [[pool| |err]|]; try (repeat split; assumption).
    destruct result; rewrite settle_waiting_firestore, settle_waiting_warnings; cbn;
      auto.
Qed.

(** The warning about [Date] objects is printed at most once per instance,
    by the call that starts the initialisation, and an instance with
    [timestampsInSnapshots] enabled has never printed it. *)
Theorem warning_printed_at_most_once (validate : Validate) (libVersion : string)
    (functionTriggerType : JsValue) (s : Settings) (fs : Firestore)
    (evs : list Event) :
  newFirestore validate libVersion functionTriggerType s = inr fs ->
  (warnings (run validate (boot fs) evs) <= 1)%nat /\
  (_clientInitialized (firestore (run validate (boot fs) evs)) = None ->
   warnings (run validate (boot fs) evs) = O) /\
  (_timestampsInSnapshotsEnabled (firestore (run validate (boot fs) evs)) = true ->
   warnings (run validate (boot fs) evs) = O).
Proof.
  intros _. induction evs as [|ev evs IH] using rev_ind.
  - cbn. auto.
  - rewrite client_run_app. cbn [run fold_left]. apply step_warned_once, IH.
Qed.

Lemma warning_printed_at_most_once_witness :
  (warnings (run lenient (boot freshInstance) sampleSession) <= 1)%nat.
Proof.
  refine (proj1 (warning_printed_at_most_once lenient "0.14.1" JsUndefined noSettings
                   freshInstance sampleSession _)).
  reflexivity.
Defined.

Lemma settings_stores_merged validate s fs fs1 :
  settings validate s fs = (fs1, None) ->
  _initalizationSettings fs1 = extend (_initalizationSettings fs) s.
Proof.
  unfold settings.
  destruct (isOptionalString validate _); [discriminate|].
  destruct (isOptionalBoolean validate _); [discriminate|].
  destruct (bool_decide _); [discriminate|].
  destruct (_settingsFrozen fs); [discriminate|].
  unfold validateAndApplySettings.
  destruct (isOptionalBoolean validate _); [discriminate|].
  destruct (truthy (projectId (extend (_initalizationSettings fs) s)));
    [destruct (isString validate _); [discriminate|]|];
    intros [= <-]; reflexivity.
Qed.

Lemma defined_entries_lookup m k :
  defined_entries m !! k
  = match m !! k with
    | Some v => if is_defined v then Some v else None
    | None => None
    end.
Proof.
  unfold defined_entries. rewrite map_lookup_filter.
  destruct (m !! k) as [v|]; cbn; [|reflexivity].
  destruct v; cbn;
    [rewrite option_guard_False by (cbn; auto)
    | rewrite option_guard_True by (cbn; discriminate) ..];
    reflexivity.
Qed.

Lemma defined_entries_defined m k : defined_entries m !! k <> Some JsUndefined.
Proof.
  rewrite defined_entries_lookup. destruct (m !! k) as [[]|]; cbn; discriminate.
Qed.

Lemma defined_entries_clean m k :
  (forall k', m !! k' <> Some JsUndefined) -> defined_entries m !! k = m !! k.
Proof.
  intros H. rewrite defined_entries_lookup. specialize (H k).
  destruct (m !! k) as [[]|]; cbn; congruence.
Qed.

Lemma extend_other a b k :
  otherSettings (extend a b) !! k
  = match otherSettings b !! k with
    | Some v =>
        if is_defined v then Some v else defined_entries (otherSettings a) !! k
    | None => defined_entries (otherSettings a) !! k
    end.
Proof.
  cbn [extend otherSettings]. rewrite lookup_union.
  rewrite (defined_entries_lookup (otherSettings b)).
  destruct (otherSettings b !! k) as [v|]; cbn.
  - destruct (is_defined v); cbn;
      destruct (defined_entries (otherSettings a) !! k); reflexivity.
  - destruct (defined_entries (otherSettings a) !! k); reflexivity.
Qed.

Lemma extend_defined a b k : otherSettings (extend a b) !! k <> Some JsUndefined.
Proof.
  rewrite extend_other.
  destruct (otherSettings b !! k) as [[]|]; cbn;
    try discriminate; apply defined_entries_defined.
Qed.

(** Settings given to [settings] take precedence over those given to the
    constructor: after a call that goes through, every setting that the
    call defines has the value of the call, and every setting that the call
    leaves out, or passes as [undefined], keeps the value stored before.
    [extend] copies no [undefined] value, so the stored settings hold none
    afterwards, and a stored entry that was [undefined] is dropped. *)
Theorem settings_take_precedence (validate : Validate) (s : Settings)
    (fs fs1 : Firestore) :
  settings validate s fs = (fs1, None) ->
  projectId (_initalizationSettings fs1)
  = (if is_defined (projectId s) then projectId s
     else projectId (_initalizationSettings fs)) /\
  timestampsInSnapshots (_initalizationSettings fs1)
  = (if is_defined (timestampsInSnapshots s) then timestampsInSnapshots s
     else timestampsInSnapshots (_initalizationSettings fs)) /\
  (forall k,
     otherSettings (_initalizationSettings fs1) !! k
     = match otherSettings s !! k with
       | Some v =>
           if is_defined v then Some v
           else defined_entries (otherSettings (_initalizationSettings fs)) !! k
       | None => defined_entries (otherSettings (_initalizationSettings fs)) !! k
       end) /\
  ((forall k, otherSettings (_initalizationSettings fs) !! k <> Some JsUndefined) ->
   forall k,
     otherSettings (_initalizationSettings fs1) !! k
     = match otherSettings s !! k with
       | Some v =>
           if is_defined v then Some v
           else otherSettings (_initalizationSettings fs) !! k
       | None => otherSettings (_initalizationSettings fs) !! k
       end) /\
  (forall k, otherSettings (_initalizationSettings fs1) !! k <> Some JsUndefined).
Proof.
  intros H. rewrite (settings_stores_merged validate s fs fs1 H).
  split; [reflexivity|]. split; [reflexivity|]. split; [|split].
  - intros k. apply extend_other.
  - intros Hc k. rewrite extend_other. now rewrite (defined_entries_clean _ k Hc).
  - intros k. apply extend_defined.
Qed.

Lemma settings_take_precedence_witness :
  projectId (_initalizationSettings (settings lenient withProject freshInstance).1)
  = (if is_defined (projectId withProject) then projectId withProject
     else projectId (_initalizationSettings freshInstance)).
Proof.
  refine (proj1 (settings_take_precedence lenient withProject freshInstance
                   (settings lenient withProject freshInstance).1 _)).
  reflexivity.
Defined.

(** A call of [settings] that throws does not use up the one call allowed:
    the frozen flag, the stored settings and the reference path are as
    before. *)
Theorem failed_settings_keep_instance (validate : Validate) (s : Settings)
    (fs fs1 : Firestore) (err : FirestoreError) :
  settings validate s fs = (fs1, Some err) ->
  _settingsFrozen fs1 = _settingsFrozen fs /\
  _initalizationSettings fs1 = _initalizationSettings fs /\
  _referencePath fs1 = _referencePath fs /\
  _clientInitialized fs1 = _clientInitialized fs /\
  _clientPool fs1 = _clientPool fs.
Proof.
  unfold settings.
  destruct (isOptionalString validate (projectId s)); [intros [= <- _]; auto|].
  destruct (isOptionalBoolean validate (timestampsInSnapshots s));
    [intros [= <- _]; auto|].
  destruct (bool_decide (_clientInitialized fs <> None)); [intros [= <- _]; auto|].
  destruct (_settingsFrozen fs) eqn:Hf; [intros [= <- _]; auto|].
  unfold validateAndApplySettings.
  destruct (isOptionalBoolean validate
              (timestampsInSnapshots (extend (_initalizationSettings fs) s)));
    [intros [= <- _]; auto|].
  destruct (truthy (projectId (extend (_initalizationSettings fs) s)));
    [destruct (isString validate (projectId (extend (_initalizationSettings fs) s)));
     [intros [= <- _]; auto|]|]; discriminate.
Qed.

Lemma failed_settings_keep_instance_witness :
  _settingsFrozen
    (settings lenient (mkSettings (JsNumber 7) JsUndefined ∅) freshInstance).1
  = _settingsFrozen freshInstance.
Proof.
  refine (proj1 (failed_settings_keep_instance lenient
                   (mkSettings (JsNumber 7) JsUndefined ∅) freshInstance _
                   (mkError JsUndefined "not a string") _)).
  reflexivity.
Defined.

Lemma client_pool_initialized_once_witness :
  (poolsCreated (run lenient (boot (mkFirestore None false None
      (extend noSettings (mkSettings JsUndefined JsUndefined
         {[ "libName"%string := JsString "gccl";
            "libVersion"%string := JsString "0.14.1" ]}))
      false (mkResourcePath projectIdToken "(default)") false)) sampleSession) <= 1)%nat.
Proof.
  refine (proj1 (client_pool_initialized_once lenient "0.14.1" JsUndefined noSettings
                   _ sampleSession _)).
  reflexivity.
Defined.

Example sample_session_dispatch :
  map (fun d => (d.1, methodName d.2))
    (dispatched (run lenient (boot (mkFirestore None false None noSettings false
                                      (mkResourcePath projectIdToken "(default)") false))
                   sampleSession))
  = [(Some firstPool, "commit"%string); (Some firstPool, "runQuery"%string);
     (Some firstPool, "listen"%string)].
Proof. reflexivity. Qed.

Lemma validateAndApplySettings_applies validate s fs fs1 :
  validateAndApplySettings validate s fs = (fs1, None) ->
  _initalizationSettings fs1 = s /\
  _referencePath fs1
  = mkResourcePath (if truthy (projectId s) then projectId s else projectIdToken)
      "(default)" /\
  _timestampsInSnapshotsEnabled fs1 = truthy (timestampsInSnapshots s).
Proof.
  unfold validateAndApplySettings.
  destruct (isOptionalBoolean validate _); [discriminate|].
  destruct (truthy (projectId s));
    [destruct (isString validate _); [discriminate|]|];
    intros [= <-]; destruct fs; cbn; auto.
Qed.

(** A constructor call that goes through stamps the library name and
    version over whatever the caller passed under these keys, keeps the
    caller's project id and every other setting whose value is not
    [undefined], stores no [undefined] value, points the reference path at
    the project id, or at the placeholder when none was given, and prefers
    transactions exactly when [FUNCTION_TRIGGER_TYPE] is set. *)
Theorem constructor_stamps_library (validate : Validate) (libVersion : string)
    (functionTriggerType : JsValue) (s : Settings) (fs : Firestore) :
  newFirestore validate libVersion functionTriggerType s = inr fs ->
  otherSettings (_initalizationSettings fs) !! "libName"%string
  = Some (JsString "gccl") /\
  otherSettings (_initalizationSettings fs) !! "libVersion"%string
  = Some (JsString libVersion) /\
  (forall k, k <> "libName"%string -> k <> "libVersion"%string ->
     otherSettings (_initalizationSettings fs) !! k
     = match otherSettings s !! k with
       | Some v => if is_defined v then Some v else None
       | None => None
       end) /\
  (forall k, otherSettings (_initalizationSettings fs) !! k <> Some JsUndefined) /\
  projectId (_initalizationSettings fs) = projectId s /\
  _referencePath fs
  = mkResourcePath (if truthy (projectId s) then projectId s else projectIdToken)
      "(default)" /\
  _timestampsInSnapshotsEnabled fs = truthy (timestampsInSnapshots s) /\
  _preferTransactions fs = is_defined functionTriggerType.
Proof.
  unfold newFirestore. intros H.
  match type of H with
  | context [validateAndApplySettings validate ?s0 ?fs0] =>
      pose proof (validateAndApplySettings_applies validate s0 fs0) as A;
      destruct (validateAndApplySettings validate s0 fs0) as [fs' [err|]]
  end; [discriminate|].
  injection H as <-. destruct (A fs' eq_refl) as (A1 & A2 & A3).
  cbn [_initalizationSettings _referencePath _timestampsInSnapshotsEnabled
       _preferTransactions].
  rewrite A1, A2, A3. clear A A1 A2 A3.
  split; [|split; [|split; [|split; [|repeat split]]]].
  - rewrite extend_other. cbn [otherSettings]. now rewrite lookup_insert_eq.
  - rewrite extend_other. cbn [otherSettings].
    rewrite lookup_insert_ne by discriminate. now rewrite lookup_singleton_eq.
  - intros k Hn Hv. rewrite extend_other. cbn [otherSettings].
    rewrite lookup_insert_ne by congruence.
    rewrite lookup_singleton_ne by congruence. apply defined_entries_lookup.
  - intros k. apply extend_defined.
Qed.

Lemma constructor_stamps_library_witness :
  exists fs,
    newFirestore lenient "0.14.1" JsUndefined
      (mkSettings (JsString "my-project") JsUndefined
         {[ "libName"%string := JsString "mine";
            "keyFilename"%string := JsUndefined ]}) = inr fs /\
    otherSettings (_initalizationSettings fs) !! "libName"%string
    = Some (JsString "gccl") /\
    otherSettings (_initalizationSettings fs) !! "keyFilename"%string = None.
Proof.
  eexists. split; [reflexivity|].
  destruct (constructor_stamps_library lenient "0.14.1" JsUndefined
              (mkSettings (JsString "my-project") JsUndefined
                 {[ "libName"%string := JsString "mine";
                    "keyFilename"%string := JsUndefined ]}) _ eq_refl)
    as (H1 & _ & H3 & _).
  split; [exact H1|]. apply (H3 "keyFilename"%string); discriminate.
Defined.

End ClientProps.

(** ** Client-side identifiers *)

Module IdentifiersProps.
Import Identifiers.

Lemma length_append s1 s2 :
  String.length (String.append s1 s2) = (String.length s1 + String.length s2)%nat.
Proof. induction s1 as [|c s1 IH]; simpl; [reflexivity|]. now f_equal. Qed.

Lemma ascii_of_append s1 s2 :
  String.list_ascii_of_string (String.append s1 s2)
  = String.list_ascii_of_string s1 ++ String.list_ascii_of_string s2.
Proof. induction s1 as [|c s1 IH]; simpl; [reflexivity|]. now f_equal. Qed.

Lemma get_in_ascii s : forall i c,
  String.get i s = Some c -> c ∈ String.list_ascii_of_string s.
Proof.
  induction s as [|c0 s IH]; intros i c H; [discriminate|].
  destruct i as [|i]; cbn in H.
  - injection H as ->. left.
  - right. now apply (IH i).
Qed.

Lemma get_in_range s : forall i,
  (i < String.length s)%nat -> exists c, String.get i s = Some c.
Proof.
  induction s as [|c0 s IH]; intros i H; cbn in H; [lia|].
  destruct i as [|i]; cbn; [eauto|]. apply IH. lia.
Qed.

Lemma length_substring m : forall s,
  String.length (String.substring 0 m s) = Nat.min m (String.length s).
Proof.
  induction m as [|m IH]; intros s; destruct s as [|c s]; cbn; try reflexivity.
  now rewrite IH.
Qed.

Lemma autoId_loop_spec n draw : forall i acc,
  (String.length (autoId_loop n draw i acc) <= String.length acc + n)%nat /\
  ((forall j, (i <= j < i + n)%nat -> (draw j < String.length chars)%nat) ->
   String.length (autoId_loop n draw i acc) = (String.length acc + n)%nat /\
   forall c, c ∈ String.list_ascii_of_string (autoId_loop n draw i acc) ->
             c ∈ String.list_ascii_of_string acc \/ c ∈ String.list_ascii_of_string chars).
Proof.
  induction n as [|n IH]; intros i acc; cbn [autoId_loop].
  - split; [lia|]. intros _. split; [lia|auto].
  - destruct (IH (S i) (String.append acc (charAt chars (draw i)))) as [L R].
    rewrite length_append in L, R. unfold charAt in *.
    destruct (String.get (draw i) chars) as [c0|] eqn:Hc0;
      simpl String.length in L, R; (split; [lia|]); intros Hd.
    + destruct R as [R1 R2]; [intros j Hj; apply Hd; lia|]. split; [lia|].
      intros c Hc. apply R2 in Hc. destruct Hc as [Hc|Hc]; [|now right].
      rewrite ascii_of_append in Hc. apply elem_of_app in Hc.
      destruct Hc as [Hc|Hc]; [now left|]. right.
      cbn in Hc. apply list_elem_of_singleton in Hc. subst.
      now apply (get_in_ascii chars (draw i)).
    + destruct (get_in_range chars (draw i)) as [c0 Hc]; [apply Hd; lia|].
      congruence.
Qed.

(** [autoId] is never longer than 20 characters; when every index drawn is
    within the 62 characters of the alphabet, it is exactly 20 characters
    long, all of them letters or digits, and [requestTag], its first
    characters, is 5 long. *)
Theorem autoId_width (draw : nat -> nat) :
  (String.length (autoId draw) <= 20)%nat /\
  ((forall i, (i < 20)%nat -> (draw i < 62)%nat) ->
   String.length (autoId draw) = 20%nat /\
   (forall c, c ∈ String.list_ascii_of_string (autoId draw) ->
              c ∈ String.list_ascii_of_string chars) /\
   String.length (requestTag draw) = 5%nat).
Proof.
  unfold autoId, requestTag.
  destruct (autoId_loop_spec 20 draw 0 EmptyString) as [L R]. split; [exact L|].
  intros Hd. destruct R as [R1 R2]; [intros j Hj; apply Hd; lia|].
  cbn [String.length Nat.add] in R1. split; [exact R1|]. split.
  - intros c Hc. destruct (R2 c Hc) as [H|H]; [|exact H].
    cbn in H. now apply elem_of_nil in H.
  - unfold autoId. now rewrite length_substring, R1.
Qed.

Lemma autoId_width_witness :
  String.length (autoId sampleDraw) = 20%nat.
Proof.
  refine (proj1 (proj2 (autoId_width sampleDraw) _)).
  intros i Hi. unfold sampleDraw. apply Nat.mod_upper_bound. discriminate.
Defined.

End IdentifiersProps.

(** ** The unary funnel *)

Module RequestProps.
Import Retry Client RetryProps.

(** C7: [request] hands [_runRequest] an operation with a budget of 5
    attempts when [allowRetries] is true and of 1 otherwise, and an
    initialised instance runs that operation on its pool; a retryable
    request whose call fails [k < 5] times with a transient error and then
    succeeds makes exactly [k + 1] attempts and resolves with the value of
    the successful one. *)
Theorem request_attempt_budget {R} (ext : Externals) (fs : Firestore)
    (gapicClient : GapicClient R) (k fuel : nat) (v : R) (st : RetryState)
    (methodName payload requestTag : string) :
  (k < 5)%nat ->
  transient_failures (gapicClient methodName (_decorateRequest ext fs payload))
    (calls st) k ->
  gapicClient methodName (_decorateRequest ext fs payload) (calls st + k)%nat
  = Resolved v ->
  (forall allowRetries w,
     request methodName payload requestTag allowRetries w
     = _runRequest (mkOp Unary methodName payload requestTag
                      (if allowRetries then 5 else 1)) w) /\
  (forall allowRetries w p,
     _clientInitialized (firestore w) = Some p -> promises w !! p = Some Ready ->
     dispatched (request methodName payload requestTag allowRetries w)
     = dispatched w ++ [(_clientPool (firestore w),
                         mkOp Unary methodName payload requestTag
                           (if allowRetries then 5 else 1))]) /\
  run_unary (k + S fuel) ext fs gapicClient
    (mkOp Unary methodName payload requestTag 5) st
  = Some (Resolved v, stop_state k None true st) /\
  calls (stop_state k None true st) = (calls st + (k + 1))%nat /\
  _lastSuccessfulRequest (stop_state k None true st)
  = Some (clock (stop_state k None true st)).
Proof.
  intros Hk Hfail Hok. split; [|split; [|split; [|split]]].
  - intros [|] w; reflexivity.
  - intros allowRetries w p Hi Hp. unfold request. cbv zeta.
    rewrite (ClientProps.runRequest_later _ w p Hi), Hp. reflexivity.
  - unfold run_unary. cbn [attempts Client.methodName Client.payload].
    rewrite (retry_after_failures _ k (S fuel) 5 None st Hfail) by lia.
    cbn [_retry]. unfold invoke. cbn [calls sleep].
    rewrite after_failures_calls, Hok. reflexivity.
  - rewrite stop_state_calls. lia.
  - reflexivity.
Qed.

Lemma request_attempt_budget_witness :
  run_unary 5 sampleExternals sampleInstance flakyClient
    (mkOp Unary "commit" "{}" "tag01" 5) initialRetryState
  = Some (Resolved "doc"%string, stop_state 2 None true initialRetryState).
Proof.
  assert (H : transient_failures
                (flakyClient "commit" (_decorateRequest sampleExternals sampleInstance "{}"))
                (calls initialRetryState) 2).
  { intros i Hi. exists unavailable.
    destruct i as [|[|i]]; [split; reflexivity | split; reflexivity | lia]. }
  assert (Hk : (2 < 5)%nat) by lia.
  destruct (request_attempt_budget sampleExternals sampleInstance flakyClient 2 2
              "doc"%string initialRetryState "commit" "{}" "tag01" Hk H eq_refl)
    as (_ & _ & E & _).
  exact E.
Defined.

(** A request that does not allow retries calls the method once: whatever
    the first call answers, success, transient or final error, is the
    outcome of the request. *)
Theorem request_without_retries_calls_once {R} (ext : Externals) (fs : Firestore)
    (gapicClient : GapicClient R) (fuel : nat) (st : RetryState)
    (methodName payload requestTag : string) (w : World) :
  request methodName payload requestTag false w
  = _runRequest (mkOp Unary methodName payload requestTag 1) w /\
  run_unary (S fuel) ext fs gapicClient (mkOp Unary methodName payload requestTag 1) st
  = Some (gapicClient methodName (_decorateRequest ext fs payload) (calls st),
          stop_state 0 None
            (succeeded (gapicClient methodName (_decorateRequest ext fs payload)
                          (calls st))) st) /\
  calls (stop_state 0 None
           (succeeded (gapicClient methodName (_decorateRequest ext fs payload)
                         (calls st))) st)
  = S (calls st).
Proof.
  split; [reflexivity|]. split.
  - unfold run_unary. cbn [attempts Client.methodName Client.payload _retry].
    unfold invoke. cbn [calls sleep].
    destruct (gapicClient methodName (_decorateRequest ext fs payload) (calls st))
      as [v|err]; [reflexivity|].
    destruct (unrecoverable err); reflexivity.
  - rewrite stop_state_calls. lia.
Qed.

End RequestProps.
